(** * peekguard: placeholder registry, span merge, text rewrite and restore

    A shallow embedding of
      - [peekguard/utils/entities.py]          (the entity enumeration),
      - [peekguard/api/masking/handler.py]     (registry, the two masking
        passes and [mask_sentence]),
      - [peekguard/api/unmasking/router.py]    ([_unmask_sentence]),
    followed by the properties of the redaction engine.

    Conventions of the embedding:
      - a Python [str] is a [list ascii] (the model covers ASCII text; the
        code's [\d] then means the ten ASCII digits);
      - a Python [int] used as an offset is a [Z], a counter is an [N];
      - a [dict[str, str]] is an association list in insertion order, since
        both the seeding loop and the restorer iterate over it;
      - the registry's reverse index and counters, which are only looked up,
        are finite maps;
      - the detectors ([pyap.parse], [AnalyzerEngine.analyze]) are function
        parameters; calls to them, warnings and alerts are recorded in a
        trace of events (informational log lines and timings are left
        out);
      - scores are rationals, ordered as finite floats are. *)

From Stdlib Require Import ZArith NArith QArith Lia List Ascii String Bool.
From Stdlib Require Import DecimalN DecimalPos Sorting.Sorted Sorting.Permutation.
From stdpp Require Import base decidable option list gmap strings.

Import ListNotations.
Open Scope Z_scope.

(* ===================================================================== *)
(** * Python built-ins used by the code                                   *)
(* ===================================================================== *)

Module Py.

Abbreviation str := (list ascii).

(** A string literal. *)
Definition lit (s : string) : str := list_ascii_of_string s.

(** [len(s)] *)
Definition len {A} (s : list A) : Z := Z.of_nat (List.length s).

(** ** Slicing

    [s[lo:hi]] with Python's treatment of indices: a negative index counts
    from the end, and every index is clamped into [0, len s]. *)

Definition clamp (n i : Z) : Z :=
  if i <? 0 then Z.max 0 (n + i) else Z.min i n.

Definition slice {A} (s : list A) (lo hi : Z) : list A :=
  let a := clamp (len s) lo in
  let b := clamp (len s) hi in
  firstn (Z.to_nat (b - a)) (skipn (Z.to_nat a) s).

(** [s[:hi]] and [s[lo:]] *)
Definition slice_to {A} (s : list A) (hi : Z) : list A := slice s 0 hi.
Definition slice_from {A} (s : list A) (lo : Z) : list A := slice s lo (len s).

(** ** [str.replace]

    [replace_from old new skip s] scans [s] from the left; [skip] is the
    number of characters of the current match still to be dropped.  For a
    non-empty [old] this is the leftmost, non-overlapping replacement that
    [str.replace] performs. *)

Fixpoint startswith (s old : str) : bool :=
  match old, s with
  | [], _ => true
  | _ :: _, [] => false
  | c :: old', d :: s' => if decide (c = d) then startswith s' old' else false
  end.

Fixpoint replace_from (old new : str) (skip : nat) (s : str) : str :=
  match s with
  | [] => []
  | c :: s' =>
      match skip with
      | S k => replace_from old new k s'
      | O =>
          if startswith s old
          then new ++ replace_from old new (List.length old - 1) s'
          else c :: replace_from old new 0 s'
      end
  end.

(** [s.replace(old, new)]; with an empty [old], Python inserts [new] before
    every character and at the end. *)
Definition replace (s old new : str) : str :=
  match old with
  | [] => new ++ flat_map (fun c => c :: new) s
  | _ :: _ => replace_from old new 0 s
  end.

(** ** Stable sorting

    [list.sort] and [sorted] are stable; the result of a stable sort is
    determined by the key order, and insertion from the right computes it.
    [le x y] reads: the key of [x] is not greater than the key of [y]. *)

Section Sort.
Context {A : Type} (le : A -> A -> bool).

Fixpoint insert_sorted (x : A) (l : list A) : list A :=
  match l with
  | [] => [x]
  | y :: l' => if le x y then x :: y :: l' else y :: insert_sorted x l'
  end.

Fixpoint sorted (l : list A) : list A :=
  match l with
  | [] => []
  | x :: l' => insert_sorted x (sorted l')
  end.
End Sort.

(** ** [dict[str, str]] in insertion order *)

Abbreviation dict := (list (list ascii * list ascii)).

(** [k in d] / [d[k]] *)
Fixpoint dict_get (d : dict) (k : str) : option str :=
  match d with
  | [] => None
  | (k', v) :: d' => if decide (k' = k) then Some v else dict_get d' k
  end.

(** [d[k] = v]: an existing key keeps its position, a new key goes last. *)
Fixpoint dict_set (d : dict) (k v : str) : dict :=
  match d with
  | [] => [(k, v)]
  | (k', v') :: d' =>
      if decide (k' = k) then (k, v) :: d' else (k', v') :: dict_set d' k v
  end.

(** [d.keys()], also the order in which [for k in d] runs. *)
Definition dict_keys (d : dict) : list str := map fst d.

(** A dictionary holds each key once. *)
Definition dict_wf (d : dict) : Prop := NoDup (dict_keys d).

(** ** Decimal numerals: [int(s)] on a digit string and [f"{n}"] *)

Definition is_digit (c : ascii) : bool :=
  (48 <=? N_of_ascii c)%N && (N_of_ascii c <=? 57)%N.

Definition digit_of_ascii (c : ascii) : option (Decimal.uint -> Decimal.uint) :=
  match N_of_ascii c with
  | 48%N => Some Decimal.D0 | 49%N => Some Decimal.D1
  | 50%N => Some Decimal.D2 | 51%N => Some Decimal.D3
  | 52%N => Some Decimal.D4 | 53%N => Some Decimal.D5
  | 54%N => Some Decimal.D6 | 55%N => Some Decimal.D7
  | 56%N => Some Decimal.D8 | 57%N => Some Decimal.D9
  | _ => None
  end.

Fixpoint uint_of_str (s : str) : option Decimal.uint :=
  match s with
  | [] => Some Decimal.Nil
  | c :: s' =>
      match digit_of_ascii c, uint_of_str s' with
      | Some d, Some u => Some (d u)
      | _, _ => None
      end
  end.

Fixpoint str_of_uint (u : Decimal.uint) : str :=
  match u with
  | Decimal.Nil => []
  | Decimal.D0 u => "0"%char :: str_of_uint u
  | Decimal.D1 u => "1"%char :: str_of_uint u
  | Decimal.D2 u => "2"%char :: str_of_uint u
  | Decimal.D3 u => "3"%char :: str_of_uint u
  | Decimal.D4 u => "4"%char :: str_of_uint u
  | Decimal.D5 u => "5"%char :: str_of_uint u
  | Decimal.D6 u => "6"%char :: str_of_uint u
  | Decimal.D7 u => "7"%char :: str_of_uint u
  | Decimal.D8 u => "8"%char :: str_of_uint u
  | Decimal.D9 u => "9"%char :: str_of_uint u
  end.

(** [int(s)]: defined on non-empty digit strings, the only arguments the
    code passes; [None] stands for [ValueError]. *)
Definition int (s : str) : option N :=
  match s with
  | [] => None
  | _ :: _ => N.of_uint <$> uint_of_str s
  end.

(** [f"{n}"] for a non-negative integer. *)
Definition format_int (n : N) : str := str_of_uint (N.to_uint n).

(** [x in l] on a list, and [l.remove(x)] (first occurrence). *)
Definition contains (l : list str) (x : str) : bool := bool_decide (x ∈ l).

Fixpoint remove_first (x : str) (l : list str) : list str :=
  match l with
  | [] => []
  | y :: l' => if decide (y = x) then l' else y :: remove_first x l'
  end.

End Py.

Import Py.

(* ===================================================================== *)
(** * peekguard/utils/entities.py                                         *)
(* ===================================================================== *)

Definition PRESIDIO_ENTITIES : list str :=
  map lit
    [ "PERSON"; "EMAIL_ADDRESS"; "CREDIT_CARD"; "PHONE_NUMBER"; "US_SSN";
      "IP_ADDRESS"; "URL"; "LOCATION";
      "GOVERNMENT_ID"; "FINANCIAL_ID"; "TECHNICAL_ID"; "MEDICAL_ID";
      "SECURITY_DATA"; "VEHICLE_ID"; "DEMOGRAPHIC_DATA" ]%string.

(* ===================================================================== *)
(** * Effects: exceptions and the trace of external interactions          *)
(* ===================================================================== *)

(** What the code raises. [HTTPException] carries the status code and the
    list the detail message is formatted from. *)
Inductive exn : Type :=
| HTTPException (status_code : Z) (invalid_entities : list str)
| ValueError.

(** What the code does to its collaborators, in order. *)
Inductive Event : Type :=
| LogWarningMalformed (placeholder : str)
| LogWarningInvalid (invalid_entities : list str)
| LogWarningNoAnalyzer
| SendAlert (invalid_entities : list str)
| PyapParse (text : str)
| AnalyzerAnalyze (text language : str) (entities : list str).

(** A computation yields the events it emitted and either an exception or a
    value; an exception stops the computation. *)
Definition M (A : Type) : Type := list Event * (exn + A).

Global Instance M_ret : MRet M := fun A a => ([], inr a).

Global Instance M_bind : MBind M := fun A B k m =>
  match m with
  | (evs, inl e) => (evs, inl e)
  | (evs, inr a) => let '(evs', r) := k a in (evs ++ evs', r)
  end.

Definition raise {A} (e : exn) : M A := ([], inl e).
Definition tell (evs : list Event) : M unit := (evs, inr tt).

(** The events of a computation and its result. *)
Definition events {A} (m : M A) : list Event := fst m.
Definition outcome {A} (m : M A) : exn + A := snd m.

(* ===================================================================== *)
(** * peekguard/api/masking/handler.py                                    *)
(* ===================================================================== *)

Definition MIN_THRESHOLD : Q := 6 # 10.

(** ** [PLACEHOLDER_REGEX = r"<([A-Z0-9_]+)_(\d+)>"] under [fullmatch]

    The digits of group 2 hold no underscore, so group 1 ends at the last
    underscore of the text between the angle brackets: the only way the
    greedy group and its backtracking can match the whole string. *)

Definition is_upper (c : ascii) : bool :=
  (65 <=? N_of_ascii c)%N && (N_of_ascii c <=? 90)%N.

Definition is_entity_char (c : ascii) : bool :=
  is_upper c || is_digit c || bool_decide (c = "_"%char).

(** [s] without its last character, and that character. *)
Fixpoint split_last (s : str) : option (str * ascii) :=
  match s with
  | [] => None
  | c :: s' =>
      match split_last s' with
      | None => Some ([], c)
      | Some (i, l) => Some (c :: i, l)
      end
  end.

(** [s] cut at its last underscore. *)
Fixpoint rsplit_underscore (s : str) : option (str * str) :=
  match s with
  | [] => None
  | c :: s' =>
      match rsplit_underscore s' with
      | Some (a, b) => Some (c :: a, b)
      | None => if decide (c = "_"%char) then Some ([], s') else None
      end
  end.

Definition nonempty {A} (l : list A) : bool :=
  match l with [] => false | _ :: _ => true end.

(** [re.fullmatch(PLACEHOLDER_REGEX, s)], returning [match.groups()]. *)
Definition placeholder_fullmatch (s : str) : option (str * str) :=
  match s with
  | "<"%char :: rest =>
      match split_last rest with
      | Some (inner, ">"%char) =>
          match rsplit_underscore inner with
          | Some (entity, number_s) =>
              if nonempty entity && forallb is_entity_char entity
                 && nonempty number_s && forallb is_digit number_s
              then Some (entity, number_s)
              else None
          | None => None
          end
      | _ => None
      end
  | _ => None
  end.

(** [f"<{entity}_{n}>"] *)
Definition format_placeholder (entity : str) (n : N) : str :=
  "<"%char :: entity ++ "_"%char :: format_int n ++ [">"%char].

(** ** [class PlaceholderManager] *)

Record PlaceholderManager : Type := mkPM {
  _placeholder_to_pii : dict;
  _pii_to_placeholder : gmap (str * str) str;
  _entity_counters : gmap str N
}.

(** [self._entity_counters[entity]] on a [defaultdict(int)] *)
Definition counter (pm : PlaceholderManager) (entity : str) : N :=
  default 0%N (_entity_counters pm !! entity).

(** [placeholder_for]: the token and the registry after the call. *)
Definition placeholder_for (pm : PlaceholderManager) (entity value : str)
  : str * PlaceholderManager :=
  match _pii_to_placeholder pm !! (entity, value) with
  | Some placeholder => (placeholder, pm)
  | None =>
      let n := (counter pm entity + 1)%N in
      let placeholder := format_placeholder entity n in
      (placeholder,
       {| _placeholder_to_pii := dict_set (_placeholder_to_pii pm) placeholder value;
          _pii_to_placeholder := <[(entity, value) := placeholder]> (_pii_to_placeholder pm);
          _entity_counters := <[entity := n]> (_entity_counters pm) |})
  end.

(** The [mappings] property: a copy of the placeholder-to-value dictionary. *)
Definition mappings (pm : PlaceholderManager) : dict := _placeholder_to_pii pm.

(** The body of the loop of [_initialise_from_existing] for one item. *)
Definition initialise_item (pm : PlaceholderManager) (item : str * str)
  : M PlaceholderManager :=
  let '(placeholder, original) := item in
  match placeholder_fullmatch placeholder with
  | None => tell [LogWarningMalformed placeholder] ;; mret pm
  | Some (entity, number_s) =>
      match int number_s with
      | None => raise ValueError
      | Some number =>
          mret {| _placeholder_to_pii := _placeholder_to_pii pm;
                 _pii_to_placeholder :=
                   <[(entity, original) := placeholder]> (_pii_to_placeholder pm);
                 _entity_counters :=
                   <[entity := N.max (counter pm entity) number]> (_entity_counters pm) |}
      end
  end.

Fixpoint initialise_items (items : dict) (pm : PlaceholderManager)
  : M PlaceholderManager :=
  match items with
  | [] => mret pm
  | item :: items' =>
      pm' ← initialise_item pm item;
      initialise_items items' pm'
  end.

Definition _initialise_from_existing (pm : PlaceholderManager) : M PlaceholderManager :=
  initialise_items (_placeholder_to_pii pm) pm.

(** [PlaceholderManager(existing)] *)
Definition PlaceholderManager_init (existing : option dict) : M PlaceholderManager :=
  _initialise_from_existing
    {| _placeholder_to_pii := default [] existing;
       _pii_to_placeholder := ∅;
       _entity_counters := ∅ |}.

(** ** [class AddressMasker] *)

(** A match of [pyap.parse]. *)
Record Address : Type := mkAddress {
  full_address : str;
  match_start : Z;
  match_end : Z
}.

(** An entry of [replacements]. *)
Record Replacement : Type := mkReplacement {
  rep_start : Z;
  rep_end : Z;
  rep_placeholder : str
}.

Definition LOCATION : str := lit "LOCATION".

(** The first loop of [AddressMasker.mask]: one placeholder per match. *)
Fixpoint address_replacements (pm : PlaceholderManager) (addrs : list Address)
  : list Replacement * PlaceholderManager :=
  match addrs with
  | [] => ([], pm)
  | addr :: addrs' =>
      let '(placeholder, pm1) := placeholder_for pm LOCATION (full_address addr) in
      let '(reps, pm2) := address_replacements pm1 addrs' in
      (mkReplacement (match_start addr) (match_end addr) placeholder :: reps, pm2)
  end.

(** The second loop: apply the replacements left to right, adjusting offsets. *)
Fixpoint address_apply (reps : list Replacement) (offset : Z) (masked : str)
    (spans : list (Z * Z)) : str * list (Z * Z) :=
  match reps with
  | [] => (masked, spans)
  | rep :: reps' =>
      let start := rep_start rep + offset in
      let end_ := rep_end rep + offset in
      let masked' := slice_to masked start ++ rep_placeholder rep ++ slice_from masked end_ in
      let offset' := offset + (len (rep_placeholder rep) - (rep_end rep - rep_start rep)) in
      address_apply reps' offset' masked'
        (spans ++ [(start, start + len (rep_placeholder rep))])
  end.

(** [AddressMasker.mask] once [pyap.parse] has answered [addrs]. *)
Definition address_mask (pm : PlaceholderManager) (text : str) (addrs : list Address)
  : (str * list (Z * Z)) * PlaceholderManager :=
  let '(replacements, pm') := address_replacements pm addrs in
  let replacements := sorted (fun a b => rep_start a <=? rep_start b) replacements in
  (address_apply replacements 0 text [], pm').

(** ** [class PresidioMasker] *)

Record RecognizerResult : Type := mkResult {
  entity_type : str;
  start : Z;
  end_ : Z;
  score : Q
}.

(** The sort key [(r.start, -(r.end - r.start), -r.score)] and the order of
    Python tuples on it.  Scores are rationals: the order of finite floats. *)
Definition sort_key (r : RecognizerResult) : Z * Z * Q :=
  (start r, - (end_ r - start r), (- score r)%Q).

Definition key_lt (a b : Z * Z * Q) : bool :=
  let '(a1, a2, a3) := a in
  let '(b1, b2, b3) := b in
  if negb (a1 =? b1) then a1 <? b1
  else if negb (a2 =? b2) then a2 <? b2
  else negb (Qle_bool b3 a3).

Definition key_le (a b : RecognizerResult) : bool :=
  negb (key_lt (sort_key b) (sort_key a)).

(** [PresidioMasker._overlaps_any] *)
Definition _overlaps_any (s e : Z) (spans : list (Z * Z)) : bool :=
  existsb (fun '(ss, ee) => Z.max s ss <? Z.min e ee) spans.

(** The selection loop of [PresidioMasker.mask]; [keys] is
    [self._pm.mappings.keys()], which the loop does not change. *)
Fixpoint select (text : str) (keys : list str) (exclude_spans : list (Z * Z))
    (results : list RecognizerResult) (last_end : Z) : list RecognizerResult :=
  match results with
  | [] => []
  | res :: results' =>
      if _overlaps_any (start res) (end_ res) exclude_spans
      then select text keys exclude_spans results' last_end
      else if contains keys (slice text (start res) (end_ res))
      then select text keys exclude_spans results' last_end
      else if last_end <=? start res
      then res :: select text keys exclude_spans results' (end_ res)
      else select text keys exclude_spans results' last_end
  end.

(** The replacement loop of [PresidioMasker.mask]. *)
Fixpoint presidio_apply (chosen : list RecognizerResult) (pm : PlaceholderManager)
    (offset : Z) (masked : str) : str * PlaceholderManager :=
  match chosen with
  | [] => (masked, pm)
  | res :: chosen' =>
      let s := start res + offset in
      let e := end_ res + offset in
      let original_val := slice masked s e in
      let '(placeholder, pm') := placeholder_for pm (entity_type res) original_val in
      let masked' := slice_to masked s ++ placeholder ++ slice_from masked e in
      presidio_apply chosen' pm' (offset + (len placeholder - len original_val)) masked'
  end.

(** The spans [PresidioMasker.mask] keeps from the analyzer's [results]. *)
Definition presidio_chosen (pm : PlaceholderManager) (text : str)
    (exclude_spans : list (Z * Z)) (results : list RecognizerResult)
  : list RecognizerResult :=
  select text (dict_keys (mappings pm)) exclude_spans (sorted key_le results) (-1).

(** [PresidioMasker.mask] once the analyzer has answered [results]. *)
Definition presidio_mask (pm : PlaceholderManager) (text : str)
    (exclude_spans : list (Z * Z)) (results : list RecognizerResult)
  : str * PlaceholderManager :=
  presidio_apply (presidio_chosen pm text exclude_spans results) pm 0 text.

(** The analyzer: [analyze(text, language, entities, score_threshold)]. *)
Definition AnalyzerEngine : Type := str -> str -> list str -> Q -> list RecognizerResult.

Section Detectors.

(** [pyap.parse(text, country="US")] *)
Variable pyap_parse : str -> list Address.

Definition AddressMasker_mask (pm : PlaceholderManager) (text : str)
  : M ((str * list (Z * Z)) * PlaceholderManager) :=
  tell [PyapParse text] ;;
  mret (address_mask pm text (pyap_parse text)).

Definition PresidioMasker_mask (analyzer : AnalyzerEngine) (pm : PlaceholderManager)
    (language : str) (text : str) (entities : list str)
    (exclude_spans : list (Z * Z)) : M (str * PlaceholderManager) :=
  match entities with
  | [] => mret (text, pm)
  | _ :: _ =>
      tell [AnalyzerAnalyze text language entities] ;;
      mret (presidio_mask pm text exclude_spans
              (analyzer text language entities MIN_THRESHOLD))
  end.

(** ** [mask_sentence] *)

(** [if presidio_entities:] holds for a list that is present and not empty. *)
Definition truthy (presidio_entities : option (list str)) : bool :=
  match presidio_entities with
  | Some (_ :: _) => true
  | _ => false
  end.

Definition validate (presidio_entities : option (list str)) : M unit :=
  if truthy presidio_entities then
    let invalid_entities :=
      filter (fun entity => ¬ entity ∈ PRESIDIO_ENTITIES)
             (default [] presidio_entities) in
    if nonempty invalid_entities then
      tell [LogWarningInvalid invalid_entities; SendAlert invalid_entities] ;;
      raise (HTTPException 422 invalid_entities)
    else mret tt
  else mret tt.

Definition effective_entities (presidio_entities : option (list str)) : list str :=
  if truthy presidio_entities then default [] presidio_entities
  else PRESIDIO_ENTITIES.

(** Step 2 of [mask_sentence]: the address pass. *)
Definition address_pass (pm : PlaceholderManager) (sentence : str)
    (effective : list str)
  : M (str * list (Z * Z) * PlaceholderManager * list str) :=
  if contains effective LOCATION then
    '(current_text, address_spans, pm') ← AddressMasker_mask pm sentence;
    if nonempty address_spans
    then mret (current_text, address_spans, pm', remove_first LOCATION effective)
    else mret (current_text, address_spans, pm', effective)
  else mret (sentence, [], pm, effective).

(** Step 3 of [mask_sentence]: the general pass. *)
Definition general_pass (analyzer : option AnalyzerEngine) (language : str)
    (pm : PlaceholderManager) (current_text : str)
    (address_spans : list (Z * Z)) (effective : list str)
  : M (str * PlaceholderManager) :=
  match analyzer, effective with
  | Some a, _ :: _ =>
      PresidioMasker_mask a pm language current_text effective address_spans
  | None, _ :: _ => tell [LogWarningNoAnalyzer] ;; mret (current_text, pm)
  | _, [] => mret (current_text, pm)
  end.

Definition mask_sentence (sentence : str) (analyzer : option AnalyzerEngine)
    (language : str) (presidio_entities : option (list str))
    (existing_mappings : option dict) : M (str * dict) :=
  validate presidio_entities ;;
  match sentence with
  | [] => mret ([], [])
  | _ :: _ =>
      pm ← PlaceholderManager_init existing_mappings;
      '(current_text, address_spans, pm1, effective) ←
        address_pass pm sentence (effective_entities presidio_entities);
      '(current_text', pm2) ←
        general_pass analyzer language pm1 current_text address_spans effective;
      mret (current_text', mappings pm2)
  end.

End Detectors.

(* ===================================================================== *)
(** * peekguard/api/unmasking/router.py                                   *)
(* ===================================================================== *)

(** [sorted(mappings, key=len, reverse=True)]: longest key first, keys of the
    same length in the order of the dictionary. *)
Definition keys_longest_first (mappings : dict) : list str :=
  sorted (fun a b => len b <=? len a) (dict_keys mappings).

(** The loop of [_unmask_sentence].  The keys come from [mappings], so the
    lookup [mappings[ph]] finds a value. *)
Fixpoint unmask_loop (mappings : dict) (keys : list str) (result : str) : str :=
  match keys with
  | [] => result
  | ph :: keys' =>
      unmask_loop mappings keys'
        (replace result ph (default [] (dict_get mappings ph)))
  end.

Definition _unmask_sentence (masked_data : str) (mappings : dict) : str :=
  match masked_data, mappings with
  | [], _ => masked_data
  | _, [] => masked_data
  | _, _ => unmask_loop mappings (keys_longest_first mappings) masked_data
  end.


(* ===================================================================== *)
(** * Vocabulary of the specification                                     *)
(* ===================================================================== *)

(** ** Registry *)

(** A sequence of [placeholder_for] calls: the tokens returned, in order, and
    the registry afterwards. *)
Fixpoint placeholders_for (pm : PlaceholderManager) (calls : list (str * str))
  : list str * PlaceholderManager :=
  match calls with
  | [] => ([], pm)
  | (entity, value) :: calls' =>
      let '(placeholder, pm1) := placeholder_for pm entity value in
      let '(placeholders, pm2) := placeholders_for pm1 calls' in
      (placeholder :: placeholders, pm2)
  end.

(** A seed key is well-formed when it matches the canonical pattern. *)
Definition well_formed (placeholder : str) : bool :=
  bool_decide (is_Some (placeholder_fullmatch placeholder)).

(** The entity type and number a well-formed key stands for. *)
Definition parse_placeholder (placeholder : str) : option (str * N) :=
  match placeholder_fullmatch placeholder with
  | Some (entity, number_s) =>
      match int number_s with
      | Some n => Some (entity, n)
      | None => None
      end
  | None => None
  end.

(** ** Spans *)

(** Two spans overlap iff [max(s1, s2) < min(e1, e2)]. *)
Definition overlap (s1 e1 s2 e2 : Z) : Prop := Z.max s1 s2 < Z.min e1 e2.

Definition span_of (r : RecognizerResult) : Z * Z := (start r, end_ r).
Definition span_of_rep (r : Replacement) : Z * Z := (rep_start r, rep_end r).
Definition span_of_address (a : Address) : Z * Z := (match_start a, match_end a).

(** The spans lie in [pos, n], left to right, each ending before the next
    starts. *)
Fixpoint ordered_disjoint (pos : Z) (spans : list (Z * Z)) (n : Z) : Prop :=
  match spans with
  | [] => pos <= n
  | (s, e) :: spans' => pos <= s /\ s <= e /\ ordered_disjoint e spans' n
  end.

(** The span invariant of the data model, [0 <= start < end <= len(text)]. *)
Definition span_invariant (text : str) (span : Z * Z) : Prop :=
  0 <= fst span /\ fst span < snd span /\ snd span <= len text.

(** ** The rewritten text

    [text] from offset [pos] on, with every span of [reps] replaced by its
    placeholder and everything between the spans copied. *)
Fixpoint spliced (text : str) (pos : Z) (reps : list (Z * Z * str)) : str :=
  match reps with
  | [] => slice_from text pos
  | (s, e, placeholder) :: reps' =>
      slice text pos s ++ placeholder ++ spliced text e reps'
  end.

(** The sum of [len(placeholder) - (end - start)] over the spans. *)
Fixpoint total_delta (reps : list (Z * Z * str)) : Z :=
  match reps with
  | [] => 0
  | (s, e, placeholder) :: reps' => (len placeholder - (e - s)) + total_delta reps'
  end.

Definition rep_triple (r : Replacement) : Z * Z * str :=
  (rep_start r, rep_end r, rep_placeholder r).

(** ** Tokens in angle brackets

    A string that opens with ["<"], closes with [">"] and holds no other
    angle bracket: every canonical placeholder has this shape. *)
Definition no_angle (c : ascii) : bool :=
  negb (bool_decide (c = "<"%char)) && negb (bool_decide (c = ">"%char)).

Definition no_lt (c : ascii) : bool := negb (bool_decide (c = "<"%char)).

Definition is_token (t : str) : bool :=
  match t with
  | "<"%char :: rest =>
      match split_last rest with
      | Some (body, ">"%char) => forallb no_angle body
      | _ => false
      end
  | _ => false
  end.

(** [Masked tok p m spans o]: the text [m], which starts at offset [p] of a
    masked text, reads as [o] once every token is replaced by its value.
    [m] is made of characters other than ["<"], copied, and of tokens [t]
    standing for a value [v] with [tok t v]; [spans] lists the offsets of
    the tokens. *)
Inductive Masked (tok : str -> str -> Prop) : Z -> str -> list (Z * Z) -> str -> Prop :=
| Masked_nil p : Masked tok p [] [] []
| Masked_char p c m spans o :
    no_lt c = true ->
    Masked tok (p + 1) m spans o ->
    Masked tok p (c :: m) spans (c :: o)
| Masked_token p t v m spans o :
    tok t v ->
    Masked tok (p + len t) m spans o ->
    Masked tok p (t ++ m) ((p, p + len t) :: spans) (v ++ o).

(** A token of the registry [d] with its value, which holds no ["<"]. *)
Definition token_of (d : dict) (t v : str) : Prop :=
  is_token t = true /\ dict_get d t = Some v /\ forallb no_lt v = true.

(** ** Seeding without its effects

    What one round of the seeding loop does to the registry, and the whole
    loop; the keys it warns about. *)
Definition seed_item (pm : PlaceholderManager) (item : str * str) : PlaceholderManager :=
  match parse_placeholder (fst item) with
  | Some (entity, number) =>
      {| _placeholder_to_pii := _placeholder_to_pii pm;
         _pii_to_placeholder :=
           <[(entity, snd item) := fst item]> (_pii_to_placeholder pm);
         _entity_counters :=
           <[entity := N.max (counter pm entity) number]> (_entity_counters pm) |}
  | None => pm
  end.

Definition seed_items (items : dict) (pm : PlaceholderManager) : PlaceholderManager :=
  fold_left seed_item items pm.

Definition malformed_keys (items : dict) : list str :=
  filter (fun k => well_formed k = false) (dict_keys items).

Definition well_formed_items (items : dict) : dict :=
  filter (fun item => well_formed (fst item) = true) items.

Definition empty_registry (existing : option dict) : PlaceholderManager :=
  {| _placeholder_to_pii := default [] existing;
     _pii_to_placeholder := ∅;
     _entity_counters := ∅ |}.

(** The registry [PlaceholderManager(existing)] builds. *)
Definition seeded (existing : option dict) : PlaceholderManager :=
  seed_items (default [] existing) (empty_registry existing).

(** The reverse index, read as "every well-formed seed key is what its pair
    of entity type and value maps to". *)
Definition reverse_index_maps_each_key (seed : dict) (pm : PlaceholderManager) : Prop :=
  forall placeholder original entity n,
    (placeholder, original) ∈ seed ->
    parse_placeholder placeholder = Some (entity, n) ->
    _pii_to_placeholder pm !! (entity, original) = Some placeholder.

(** ** The pipeline of [mask_sentence] without its effects *)

(** An event that asks a detector for spans. *)
Definition is_detection (ev : Event) : bool :=
  match ev with
  | PyapParse _ | AnalyzerAnalyze _ _ _ => true
  | _ => false
  end.

Section Pipeline.
Variable pyap_parse : str -> list Address.

(** The text, the address spans, the registry and the requested types
    after the address pass. *)
Definition after_address_pass (pm : PlaceholderManager) (sentence : str)
    (effective : list str)
  : str * list (Z * Z) * PlaceholderManager * list str :=
  if contains effective LOCATION then
    let '(current_text, address_spans, pm') :=
      address_mask pm sentence (pyap_parse sentence) in
    (current_text, address_spans, pm',
     if nonempty address_spans then remove_first LOCATION effective else effective)
  else (sentence, [], pm, effective).

(** The text and the registry after the general pass. *)
Definition after_general_pass (analyzer : option AnalyzerEngine) (language : str)
    (state : str * list (Z * Z) * PlaceholderManager * list str)
  : str * PlaceholderManager :=
  let '(current_text, address_spans, pm, effective) := state in
  match analyzer, effective with
  | Some a, _ :: _ =>
      presidio_mask pm current_text address_spans
        (a current_text language effective MIN_THRESHOLD)
  | _, _ => (current_text, pm)
  end.

(** The masked text and the registry of a run on a non-empty sentence
    whose requested types are valid. *)
Definition pipeline (sentence : str) (analyzer : option AnalyzerEngine)
    (language : str) (presidio_entities : option (list str))
    (existing_mappings : option dict) : str * PlaceholderManager :=
  after_general_pass analyzer language
    (after_address_pass (seeded existing_mappings) sentence
       (effective_entities presidio_entities)).
End Pipeline.

(** The events of the general pass. *)
Definition general_pass_events (analyzer : option AnalyzerEngine) (language : str)
    (current_text : str) (effective : list str) : list Event :=
  match analyzer, effective with
  | Some _, _ :: _ => [AnalyzerAnalyze current_text language effective]
  | None, _ :: _ => [LogWarningNoAnalyzer]
  | _, [] => []
  end.

(** Every requested type belongs to the enumeration. *)
Definition all_valid (presidio_entities : option (list str)) : Prop :=
  Forall (fun entity => entity ∈ PRESIDIO_ENTITIES) (default [] presidio_entities).

(** ** Where the placeholders land

    The spans of the placeholders in the rewritten text, for replacements
    applied left to right starting with the running [offset]. *)
Fixpoint placed_spans (offset : Z) (reps : list (Z * Z * str)) : list (Z * Z) :=
  match reps with
  | [] => []
  | (s, e, placeholder) :: reps' =>
      (s + offset, s + offset + len placeholder)
        :: placed_spans (offset + (len placeholder - (e - s))) reps'
  end.

(** The registry calls of the general pass on [text]: the entity type of each
    chosen span with the substring the span covers. *)
Definition presidio_calls (text : str) (chosen : list RecognizerResult)
  : list (str * str) :=
  map (fun res => (entity_type res, slice text (start res) (end_ res))) chosen.

(** The chosen spans with the placeholders the registry answered. *)
Definition presidio_triples (chosen : list RecognizerResult) (placeholders : list str)
  : list (Z * Z * str) :=
  map (fun '(res, placeholder) => (start res, end_ res, placeholder))
      (combine chosen placeholders).

(** ** The merge of spans *)

(** The substring a candidate covers. *)
Definition matched_text (text : str) (res : RecognizerResult) : str :=
  slice text (start res) (end_ res).

(** The tie-break order of the candidates: start ascending, then length
    descending, then score descending. *)
Definition candidate_order (a b : RecognizerResult) : Prop :=
  start a < start b \/
  (start a = start b /\
   (end_ b - start b < end_ a - start a \/
    (end_ a - start a = end_ b - start b /\ (score b <= score a)%Q))).

(** The end offset of the last accepted span, [last_end] if there is none. *)
Fixpoint last_end_of (last_end : Z) (accepted : list RecognizerResult) : Z :=
  match accepted with
  | [] => last_end
  | a :: accepted' => last_end_of (end_ a) accepted'
  end.

(** [a] ends before [b] starts. *)
Definition ends_before (a b : RecognizerResult) : Prop := end_ a <= start b.

(** A candidate passes the two guards of the selection loop: it overlaps no
    excluded span and its text is no known placeholder. *)
Definition passes_guards (text : str) (keys : list str) (exclude_spans : list (Z * Z))
    (res : RecognizerResult) : bool :=
  negb (_overlaps_any (start res) (end_ res) exclude_spans)
  && negb (contains keys (matched_text text res)).

(** Each accepted span starts at or after the end of the one accepted before
    it, the first at or after [last_end]. *)
Fixpoint chained (last_end : Z) (accepted : list RecognizerResult) : Prop :=
  match accepted with
  | [] => True
  | a :: accepted' => last_end <= start a /\ chained (end_ a) accepted'
  end.

(** The replacements the address pass applies, in the order it applies them. *)
Definition address_applied (pm : PlaceholderManager) (addrs : list Address)
  : list Replacement :=
  sorted (fun a b => rep_start a <=? rep_start b) (address_replacements pm addrs).1.

(** ** The restorer *)

(** [old] occurs in [s] as a literal substring. *)
Definition occurs (old s : str) : Prop := exists pre post, s = pre ++ old ++ post.

(** The loop of [_unmask_sentence] as a fold over the keys. *)
Definition replace_all (mappings : dict) (keys : list str) (text : str) : str :=
  fold_left (fun result ph => replace result ph (default [] (dict_get mappings ph)))
            keys text.

(** A placeholder of the text with no entry in the mapping stays where it
    is, and the text before and after it is restored on its own. *)
Definition unmapped_placeholders_untouched (mappings : dict) : Prop :=
  forall before placeholder after,
    is_token placeholder = true ->
    placeholder ∉ dict_keys mappings ->
    _unmask_sentence (before ++ placeholder ++ after) mappings
    = _unmask_sentence before mappings ++ placeholder
        ++ _unmask_sentence after mappings.

(** The tokens of [d] whose key is not among [removed]. *)
Definition token_without (d : dict) (removed : list str) (t v : str) : Prop :=
  token_of d t v /\ t ∉ removed.

(** ** Invariant of the registry

    Every key of the placeholder map is a token in angle brackets; the
    reverse index points to keys that hold the value of the pair; and no key
    has the form of a placeholder the counters have yet to reach. *)
Record registry_ok (pm : PlaceholderManager) : Prop := {
  keys_are_tokens :
    Forall (fun k => is_token k = true) (dict_keys (_placeholder_to_pii pm));
  index_sound :
    forall entity value placeholder,
      _pii_to_placeholder pm !! (entity, value) = Some placeholder ->
      dict_get (_placeholder_to_pii pm) placeholder = Some value;
  keys_below_counters :
    forall entity n,
      format_placeholder entity n ∈ dict_keys (_placeholder_to_pii pm) ->
      (n <= counter pm entity)%N
}.

(** The placeholder map only grows. *)
Definition registry_extends (pm pm' : PlaceholderManager) : Prop :=
  forall k v,
    dict_get (_placeholder_to_pii pm) k = Some v ->
    dict_get (_placeholder_to_pii pm') k = Some v.

(** The registry calls of the address pass and its replacements. *)
Definition address_calls (addrs : list Address) : list (str * str) :=
  map (fun addr => (LOCATION, full_address addr)) addrs.

Definition address_triples (addrs : list Address) (placeholders : list str)
  : list (Z * Z * str) :=
  map (fun '(addr, placeholder) => (match_start addr, match_end addr, placeholder))
      (combine addrs placeholders).

(** An entity type without angle brackets. *)
Definition plain_entity (entity : str) : Prop := forallb no_angle entity = true.

(** ** A sample run

    The sentence of the repository's test of [mask_sentence], an address
    detector that finds its address and an analyzer that finds its person. *)
Definition sample_sentence : str :=
  lit "My name is John Doe and I live at 123 Main St, Anytown, USA.".

Definition sample_pyap (text : str) : list Address :=
  if decide (text = sample_sentence)
  then [mkAddress (lit "123 Main St, Anytown, USA") 34 59]
  else [].

Definition sample_analyzer : AnalyzerEngine :=
  fun text language entities score_threshold =>
    if bool_decide (lit "PERSON" ∈ entities) && (19 <=? len text)
    then [mkResult (lit "PERSON") 11 19 (85 # 100)]
    else [].

(** Unfolds the operations on computations. *)
Ltac munfold :=
  unfold mbind, M_bind, mret, M_ret, tell, raise, events, outcome in *.

(* ===================================================================== *)
(** * Further vocabulary: the registry over its lifetime                  *)
(* ===================================================================== *)

(** An entity type the canonical pattern accepts as its first group: not
    empty, capitals, digits and underscores only.  Every member of
    [PRESIDIO_ENTITIES] is one. *)
Definition canonical_entity (entity : str) : bool :=
  nonempty entity && forallb is_entity_char entity.

(** The numbers of the well-formed seed keys of an entity type, and the
    highest of them (0 when there is none). *)
Definition seed_numbers (entity : str) (seed : dict) : list N :=
  omap (fun item : str * str =>
          match parse_placeholder item.1 with
          | Some (e, n) => if decide (e = entity) then Some n else None
          | None => None
          end) seed.

Definition highest_seeded (entity : str) (seed : dict) : N :=
  foldr N.max 0%N (seed_numbers entity seed).

(** The number a token carries for an entity type: the one the canonical
    pattern reads, or the one it was formatted with. *)
Definition token_number (entity t : str) (n : N) : Prop :=
  parse_placeholder t = Some (entity, n) \/ t = format_placeholder entity n.

(** Invariant of the reverse index: every token it holds carries a number
    its entity type's counter has reached, and no two pairs share a token. *)
Record index_ok (pm : PlaceholderManager) : Prop := {
  index_numbered :
    forall entity value t,
      _pii_to_placeholder pm !! (entity, value) = Some t ->
      exists n, token_number entity t n /\ (n <= counter pm entity)%N;
  index_injective :
    forall pair pair' t,
      _pii_to_placeholder pm !! pair = Some t ->
      _pii_to_placeholder pm !! pair' = Some t ->
      pair = pair'
}.

(** Invariant of the placeholder map: the counters have reached the number
    of every key the canonical pattern accepts. *)
Definition counters_cover (pm : PlaceholderManager) : Prop :=
  forall key entity n,
    key ∈ dict_keys (_placeholder_to_pii pm) ->
    parse_placeholder key = Some (entity, n) ->
    (n <= counter pm entity)%N.

(** The values of an entity type among the calls, each once, in the order
    of their first appearance, starting from those [seen]. *)
Fixpoint first_seen (entity : str) (seen : list str) (calls : list (str * str))
  : list str :=
  match calls with
  | [] => seen
  | (e, v) :: calls' =>
      first_seen entity
        (if decide (e = entity)
         then (if decide (v ∈ seen) then seen else seen ++ [v])
         else seen)
        calls'
  end.

(** The position of [v] in [l], counted from 1. *)
Fixpoint position (v : str) (l : list str) : option N :=
  match l with
  | [] => None
  | x :: l' => if decide (x = v) then Some 1%N else N.succ <$> position v l'
  end.

(** The detector reports canonical entity types only. *)
Definition reports_canonical (analyzer : option AnalyzerEngine) : Prop :=
  forall a text language entities score_threshold,
    analyzer = Some a ->
    Forall (fun res => canonical_entity (entity_type res) = true)
           (a text language entities score_threshold).

(** Two half-open intervals share an offset. *)
Definition share_offset (s e ss ee : Z) : Prop :=
  exists i, s <= i < e /\ ss <= i < ee.

(** The placeholder map of [pm'] is that of [pm] followed by new entries,
    whose keys match the canonical pattern, differ from one another and are
    no keys of [pm]. *)
Definition grows (pm pm' : PlaceholderManager) : Prop :=
  exists new,
    _placeholder_to_pii pm' = _placeholder_to_pii pm ++ new /\
    Forall (fun k => well_formed k = true /\ k ∉ dict_keys (_placeholder_to_pii pm))
           (dict_keys new) /\
    NoDup (dict_keys new).

(* ===================================================================== *)
(** * peekguard/utils/analyzer.py: [CustomAnalyzer]                       *)
(* ===================================================================== *)

(** [str.lower()] on ASCII text. *)
Definition lower_char (c : ascii) : ascii :=
  if is_upper c then ascii_of_N (N_of_ascii c + 32) else c.

Definition lower (s : str) : str := map lower_char s.

(** [self._false_positives_map = {"PERSON": {"email"}}] *)
Definition _false_positives_map : list (str * list str) :=
  [(lit "PERSON", [lit "email"])].

(** [m.get(k)] on a dictionary whose values are sets. *)
Fixpoint sets_get (m : list (str * list str)) (k : str) : option (list str) :=
  match m with
  | [] => None
  | (k', v) :: m' => if decide (k' = k) then Some v else sets_get m' k
  end.

(** The test the loop of [analyze] makes on one result: its entity type is
    a key of the map and its text, in lower case, is in the set. *)
Definition is_false_positive (text_to_analyze : str) (res : RecognizerResult) : bool :=
  match sets_get _false_positives_map (entity_type res) with
  | Some known =>
      bool_decide (lower (slice text_to_analyze (start res) (end_ res)) ∈ known)
  | None => false
  end.

(** The loop of [analyze]. *)
Fixpoint filtered_results (text_to_analyze : str)
    (original_results : list RecognizerResult) : list RecognizerResult :=
  match original_results with
  | [] => []
  | res :: rest =>
      if is_false_positive text_to_analyze res
      then filtered_results text_to_analyze rest
      else res :: filtered_results text_to_analyze rest
  end.

(** [text_to_analyze]: the keyword argument [text] unless it is missing or
    empty and there is a positional argument, which is then taken. *)
Definition text_to_analyze (args0 kwargs_text : option str) : option str :=
  match kwargs_text with
  | Some (_ :: _) => kwargs_text
  | _ => match args0 with
         | Some a => Some a
         | None => kwargs_text
         end
  end.

(** [CustomAnalyzer.analyze], with its positional and keyword arguments,
    once the base class has
    answered [original_results]; [None] stands for the [TypeError] of
    slicing [None], raised when no text was passed and there is a result. *)
Definition CustomAnalyzer_analyze (original_results : list RecognizerResult)
    (args0 kwargs_text : option str) : option (list RecognizerResult) :=
  match text_to_analyze args0 kwargs_text with
  | Some text => Some (filtered_results text original_results)
  | None =>
      match original_results with
      | [] => Some []
      | _ :: _ => None
      end
  end.

(** The analyzer as [PresidioMasker.mask] calls it, every argument passed
    by keyword, on top of the base class's [analyze]. *)
Definition CustomAnalyzer (super_analyze : AnalyzerEngine) : AnalyzerEngine :=
  fun text language entities score_threshold =>
    default []
      (CustomAnalyzer_analyze (super_analyze text language entities score_threshold)
         None (Some text)).

(** A result the filter drops: a [PERSON] whose text reads "email" in any
    mix of cases. *)
Definition email_as_person (text : str) (res : RecognizerResult) : Prop :=
  entity_type res = lit "PERSON" /\
  lower (slice text (start res) (end_ res)) = lit "email".

Global Instance email_as_person_dec text res : Decision (email_as_person text res).
Proof. unfold email_as_person. apply _. Defined.

(* ===================================================================== *)
(** * peekguard/utils/entities.py: the tables of the DLP recognizer       *)
(* ===================================================================== *)

Definition PRESIDIO_TO_DLP : list (str * list str) :=
  [ (lit "PERSON", [lit "PERSON_NAME"]);
    (lit "EMAIL_ADDRESS", [lit "EMAIL_ADDRESS"]);
    (lit "CREDIT_CARD", [lit "CREDIT_CARD_DATA"]);
    (lit "PHONE_NUMBER", [lit "PHONE_NUMBER"]);
    (lit "US_SSN", [lit "GOVERNMENT_ID"]);
    (lit "IP_ADDRESS", [lit "TECHNICAL_ID"]);
    (lit "URL", [lit "URL"]);
    (lit "LOCATION", [lit "GEOGRAPHIC_DATA"]);
    (lit "GOVERNMENT_ID",
       [lit "GOVERNMENT_ID"; lit "PASSPORT"; lit "DRIVERS_LICENSE_NUMBER"]);
    (lit "FINANCIAL_ID", [lit "FINANCIAL_ID"]);
    (lit "TECHNICAL_ID", [lit "TECHNICAL_ID"; lit "MAC_ADDRESS"]);
    (lit "MEDICAL_ID", [lit "MEDICAL_ID"; lit "MEDICAL_DATA"]);
    (lit "SECURITY_DATA", [lit "SECURITY_DATA"]);
    (lit "VEHICLE_ID", [lit "VEHICLE_IDENTIFICATION_NUMBER"]);
    (lit "DEMOGRAPHIC_DATA", [lit "DEMOGRAPHIC_DATA"]) ].

(** The pairs a comprehension [{k: v for x, ks in items for k in ks}]
    generates, in order, and the dictionary it builds from them: a later
    pair with a key already seen replaces the value of that key. *)
Definition comprehension_pairs (items : list (str * list str)) : list (str * str) :=
  flat_map (fun '(presidio, dlps) => map (fun dlp => (dlp, presidio)) dlps) items.

Definition dict_of_pairs (pairs : list (str * str)) : dict :=
  fold_left (fun d '(k, v) => dict_set d k v) pairs [].

Definition DLP_TO_PRESIDIO : dict :=
  dict_of_pairs (comprehension_pairs PRESIDIO_TO_DLP).

(* ===================================================================== *)
(** * UTF-8, for the byte offsets of the DLP findings                     *)
(* ===================================================================== *)

(** Where the encoding matters a Python [str] is the list of its code
    points and a [bytes] object the list of its bytes. *)
Abbreviation ustr := (list N).
Abbreviation bytes := (list N).

(** A lone surrogate has no UTF-8 encoding. *)
Definition is_surrogate (c : N) : bool := (0xD800 <=? c)%N && (c <=? 0xDFFF)%N.

(** [chr(c).encode("utf-8")]; [None] stands for [UnicodeEncodeError]. *)
Definition encode_char (c : N) : option bytes :=
  if (c <? 0x80)%N then Some [c]
  else if (c <? 0x800)%N then Some [0xC0 + c / 64; 0x80 + c mod 64]%N
  else if (c <? 0x10000)%N then
    if is_surrogate c then None
    else Some [0xE0 + c / 4096; 0x80 + (c / 64) mod 64; 0x80 + c mod 64]%N
  else if (c <? 0x110000)%N then
    Some [0xF0 + c / 262144; 0x80 + (c / 4096) mod 64;
          0x80 + (c / 64) mod 64; 0x80 + c mod 64]%N
  else None.

(** A continuation byte, and the second byte allowed after a lead byte of a
    three-byte and of a four-byte sequence (no overlong form, no surrogate,
    nothing above U+10FFFF). *)
Definition is_continuation (b : N) : bool := (0x80 <=? b)%N && (b <=? 0xBF)%N.

Definition second_of_three (b0 b1 : N) : bool :=
  if (b0 =? 0xE0)%N then (0xA0 <=? b1)%N && (b1 <=? 0xBF)%N
  else if (b0 =? 0xED)%N then (0x80 <=? b1)%N && (b1 <=? 0x9F)%N
  else is_continuation b1.

Definition second_of_four (b0 b1 : N) : bool :=
  if (b0 =? 0xF0)%N then (0x90 <=? b1)%N && (b1 <=? 0xBF)%N
  else if (b0 =? 0xF4)%N then (0x80 <=? b1)%N && (b1 <=? 0x8F)%N
  else is_continuation b1.

(** One round of the decoder on the lead byte [b0] and the bytes [r0] after
    it; [decode] is the decoder for what remains. *)
Definition decode_from (decode : bytes -> bytes) (b0 : N) (r0 : list N) : list N :=
  if (b0 <? 0x80)%N then b0 :: decode r0
  else if (0xC2 <=? b0)%N && (b0 <=? 0xDF)%N then
    match r0 with
    | [] => []
    | b1 :: r1 =>
        if is_continuation b1
        then ((b0 - 0xC0) * 64 + (b1 - 0x80))%N :: decode r1
        else decode r0
    end
  else if (0xE0 <=? b0)%N && (b0 <=? 0xEF)%N then
    match r0 with
    | [] => []
    | b1 :: r1 =>
        if second_of_three b0 b1 then
          match r1 with
          | [] => []
          | b2 :: r2 =>
              if is_continuation b2
              then ((b0 - 0xE0) * 4096 + (b1 - 0x80) * 64 + (b2 - 0x80))%N
                     :: decode r2
              else decode r1
          end
        else decode r0
    end
  else if (0xF0 <=? b0)%N && (b0 <=? 0xF4)%N then
    match r0 with
    | [] => []
    | b1 :: r1 =>
        if second_of_four b0 b1 then
          match r1 with
          | [] => []
          | b2 :: r2 =>
              if is_continuation b2 then
                match r2 with
                | [] => []
                | b3 :: r3 =>
                    if is_continuation b3
                    then ((b0 - 0xF0) * 262144 + (b1 - 0x80) * 4096
                          + (b2 - 0x80) * 64 + (b3 - 0x80))%N
                           :: decode r3
                    else decode r2
                end
              else decode r1
          end
        else decode r0
    end
  else decode r0.

(** [bs.decode("utf-8", errors="ignore")]: a sequence cut short by the end
    of the input is dropped with it; a byte that cannot start or continue
    a sequence drops the bytes read so far for that sequence. *)
Fixpoint decode_ignore (bs : bytes) : ustr :=
  match bs with
  | [] => []
  | b0 :: r0 => decode_from decode_ignore b0 r0
  end.


(** [s.encode("utf-8")] *)
Fixpoint encode (s : ustr) : option bytes :=
  match s with
  | [] => Some []
  | c :: s' =>
      match encode_char c, encode s' with
      | Some b, Some bs => Some (b ++ bs)
      | _, _ => None
      end
  end.

(** The number of bytes of a code point's encoding, and the byte offset at
    which the character of index [i] starts. *)
Definition utf8_width (c : N) : nat :=
  if (c <? 0x80)%N then 1
  else if (c <? 0x800)%N then 2
  else if (c <? 0x10000)%N then 3
  else 4.

Definition byte_offset (s : ustr) (i : nat) : nat :=
  sum_list (utf8_width <$> take i s).

(* ===================================================================== *)
(** * peekguard/utils/dlp_recognizer.py: [GoogleDlpRecognizer]            *)
(* ===================================================================== *)

(** [dlp_v2.Likelihood]; a value outside the enumeration is kept as its
    number. *)
Inductive Likelihood : Type :=
| LIKELIHOOD_UNSPECIFIED
| VERY_UNLIKELY
| UNLIKELY
| POSSIBLE
| LIKELY
| VERY_LIKELY
| LIKELIHOOD_OTHER (value : Z).

(** [_convert_likelihood_to_score] *)
Definition _convert_likelihood_to_score (likelihood : Likelihood) : Q :=
  match likelihood with
  | LIKELIHOOD_UNSPECIFIED => 0
  | VERY_UNLIKELY => 2 # 10
  | UNLIKELY => 4 # 10
  | POSSIBLE => 6 # 10
  | LIKELY => 8 # 10
  | VERY_LIKELY => 1
  | LIKELIHOOD_OTHER _ => 0
  end.

(** A finding of the response, as far as [analyze] reads it. *)
Record Finding : Type := mkFinding {
  info_type_name : str;
  finding_likelihood : Likelihood;
  byte_range_start : Z;
  byte_range_end : Z
}.

(** The request [analyze] sends. *)
Record InspectRequest : Type := mkInspectRequest {
  request_parent : str;
  request_info_types : list str;
  request_include_quote : bool;
  request_min_likelihood : Likelihood;
  request_item_value : ustr
}.

(** What the recognizer does to its collaborators. *)
Inductive DlpEvent : Type :=
| LogDebugNoInfoTypes
| InspectContent (request : InspectRequest)
| LogErrorDlp.

(** The DLP info types of the requested entities, in order. *)
Definition dlp_info_types (entities : list str) : list str :=
  flat_map (fun entity => default [] (sets_get PRESIDIO_TO_DLP entity)) entities.

(** [len(utf8_text[:byte].decode("utf-8", errors="ignore"))] *)
Definition char_offset (utf8_text : bytes) (byte : Z) : Z :=
  len (decode_ignore (slice_to utf8_text byte)).

(** The body of the loop over the findings: the result for one finding, if
    its info type is a key of [DLP_TO_PRESIDIO]. *)
Definition finding_result (utf8_text : bytes) (finding : Finding)
  : option RecognizerResult :=
  match dict_get DLP_TO_PRESIDIO (info_type_name finding) with
  | Some presidio_entity =>
      Some (mkResult presidio_entity
              (char_offset utf8_text (byte_range_start finding))
              (char_offset utf8_text (byte_range_end finding))
              (_convert_likelihood_to_score (finding_likelihood finding)))
  | None => None
  end.

Section Dlp.

(** [self.dlp_client.inspect_content]; [None] stands for an exception. *)
Variable inspect_content : InspectRequest -> option (list Finding).

(** [GoogleDlpRecognizer.analyze]; [parent] is [self.parent].  The
    explanation attached to each result, which nothing reads, is left
    out. *)
Definition GoogleDlpRecognizer_analyze (parent : str) (text : ustr)
    (entities : list str) : list DlpEvent * list RecognizerResult :=
  match text with
  | [] => ([], [])
  | _ :: _ =>
      match dlp_info_types entities with
      | [] => ([LogDebugNoInfoTypes], [])
      | (_ :: _) as info_types =>
          let request := mkInspectRequest parent info_types true POSSIBLE text in
          match inspect_content request with
          | None => ([InspectContent request; LogErrorDlp], [])
          | Some findings =>
              match encode text with
              | None => ([InspectContent request; LogErrorDlp], [])
              | Some utf8_text =>
                  ([InspectContent request], omap (finding_result utf8_text) findings)
              end
          end
      end
  end.

End Dlp.

(** A request sent to the DLP service. *)
Definition is_inspect (ev : DlpEvent) : bool :=
  match ev with InspectContent _ => true | _ => false end.

(** The value of the last pair with key [k]. *)
Fixpoint last_with_key (pairs : list (str * str)) (k : str) : option str :=
  match pairs with
  | [] => None
  | (k', v) :: rest =>
      match last_with_key rest k with
      | Some w => Some w
      | None => if decide (k' = k) then Some v else None
      end
  end.

(** The number of characters of [s] whose encoding lies within the first
    [n] bytes of the encoding of [s]. *)
Fixpoint chars_within (s : ustr) (n : nat) : nat :=
  match s with
  | [] => 0
  | c :: s' =>
      if (utf8_width c <=? n)%nat then S (chars_within s' (n - utf8_width c)) else 0
  end.

(** The scores [_convert_likelihood_to_score] can return. *)
Definition likelihood_scores : list Q := [0; 2 # 10; 4 # 10; 6 # 10; 8 # 10; 1]%Q.

(** Settles the comparisons of a goal by linear arithmetic. *)
Ltac settle_test :=
  match goal with
  | |- context [N.eqb ?a ?b] => destruct (N.eqb_spec a b)
  | |- context [N.ltb ?a ?b] =>
      first [ replace (N.ltb a b) with true by (symmetry; apply N.ltb_lt; lia)
            | replace (N.ltb a b) with false by (symmetry; apply N.ltb_ge; lia) ]
  | |- context [N.leb ?a ?b] =>
      first [ replace (N.leb a b) with true by (symmetry; apply N.leb_le; lia)
            | replace (N.leb a b) with false by (symmetry; apply N.leb_gt; lia) ]
  end.

Ltac settle := repeat (settle_test; cbn [andb]).

(* ===================================================================== *)
(** * The API layer: effects                                              *)
(* ===================================================================== *)

(** What the routers raise: an exception of [mask_sentence] passed on as it
    is, or an [HTTPException] of their own. *)
Inductive ApiExn : Type :=
| Raised (e : exn)
| HTTPError (status_code : Z) (detail : str).

(** [sensu.WARNING] and [sensu.CRITICAL] *)
Inductive SensuStatus : Type := WARNING | CRITICAL.

(** What the API layer does to its collaborators, in order: the events of
    [mask_sentence], error logs, calls to sensu and to statsd, and the log
    line that stands in for a timing when there is no statsd client. *)
Inductive ApiEvent : Type :=
| Core (ev : Event)
| LogError (message : str)
| LogException (message : str)
| LogInfoMetric (stat_name : str) (time_taken_in_ms : Q)
| SensuSendAlert (status : SensuStatus) (message name team_key : str)
| StatsdIncr (stat_name : str)
| StatsdTiming (stat_name : str) (time_taken_in_ms : Q) (rate : Z).

Definition IO (A : Type) : Type := list ApiEvent * (ApiExn + A).

Global Instance IO_ret : MRet IO := fun A a => ([], inr a).

Global Instance IO_bind : MBind IO := fun A B k m =>
  match m with
  | (evs, inl e) => (evs, inl e)
  | (evs, inr a) => let '(evs', r) := k a in (evs ++ evs', r)
  end.

Definition io_raise {A} (e : ApiExn) : IO A := ([], inl e).
Definition io_tell (evs : list ApiEvent) : IO unit := (evs, inr tt).

(** A call into the handler from a router. *)
Definition lift {A} (m : M A) : IO A :=
  (Core <$> m.1,
   match m.2 with
   | inl e => inl (Raised e)
   | inr a => inr a
   end).

(** [try: body / except Exception as e: handler(e)] *)
Definition try_except {A} (body : IO A) (handler : ApiExn -> IO A) : IO A :=
  match body with
  | (evs, inl e) => let '(evs', r) := handler e in (evs ++ evs', r)
  | (evs, inr a) => (evs, inr a)
  end.

(** [try: body / finally: final] *)
Definition try_finally {A} (body : IO A) (final : IO unit) : IO A :=
  match body, final with
  | (evs, r), (evs', inr _) => (evs ++ evs', r)
  | (evs, _), (evs', inl e) => (evs ++ evs', inl e)
  end.

(* ===================================================================== *)
(** * peekguard/utils/alerts.py                                           *)
(* ===================================================================== *)

Definition TEAM_KEY : str := lit "mle".

(** [sensu_status[status]]; [None] stands for [KeyError]. *)
Definition sensu_status (status : str) : option SensuStatus :=
  if decide (status = lit "warning") then Some WARNING
  else if decide (status = lit "critical") then Some CRITICAL
  else None.

Section Alerts.

(** [sensu.send_alert]: whether the call returns ([true]) or raises. *)
Variable sensu_send_alert : SensuStatus -> str -> str -> str -> bool.

(** [send_alert(status, message, name)]: the lookup of the status and the
    call are both inside the [try], so neither exception leaves the
    function. *)
Definition send_alert (status message name : str) : IO unit :=
  let unable := LogException (lit "[peekguard] Unable to send sensu alert") in
  match sensu_status status with
  | None => io_tell [unable]
  | Some s =>
      let text := message ++ lit (String "010"%char EmptyString) in
      if sensu_send_alert s text name TEAM_KEY
      then io_tell [SensuSendAlert s text name TEAM_KEY]
      else io_tell [SensuSendAlert s text name TEAM_KEY; unable]
  end.

End Alerts.

(* ===================================================================== *)
(** * peekguard/utils/metrics.py                                          *)
(* ===================================================================== *)

(** [statsd] tells whether [_statsd_client] has been set. *)

Definition incr (statsd : bool) (stat_name : str) : IO unit :=
  if statsd then io_tell [StatsdIncr stat_name] else mret tt.

Definition _timing (statsd : bool) (stat_name : str) (time_taken_in_ms : Q)
    (rate : Z) : IO unit :=
  if statsd then io_tell [StatsdTiming stat_name time_taken_in_ms rate]
  else io_tell [LogInfoMetric stat_name time_taken_in_ms].

(** The wrapper of [timing_to_statsd_async] around [func]; [start_time] and
    [end_time] are the two readings of the clock. *)
Definition timing_to_statsd_async {A} (statsd : bool) (stat_name : str)
    (start_time end_time : Q) (func : IO A) : IO A :=
  try_finally func
    (_timing statsd stat_name ((end_time - start_time) * 1000)%Q 1).

(** The wrapper of [timing_to_statsd_sync] around [func]. *)
Definition timing_to_statsd_sync {A} (statsd : bool) (stat_name : str)
    (start_time end_time : Q) (func : IO A) : IO A :=
  result ← func;
  _timing statsd stat_name ((end_time - start_time) * 1000)%Q 1 ;;
  mret result.

(* ===================================================================== *)
(** * Request and response models                                         *)
(* ===================================================================== *)

Module MaskRequest.
Record t : Type := mk {
  text_data : str;
  language : str;
  entities : option (list str);
  existing_mappings : option dict
}.
End MaskRequest.

Module MaskResponse.
Record t : Type := mk {
  masked_data : str;
  mappings : dict
}.
End MaskResponse.

Module UnmaskRequest.
Record t : Type := mk {
  masked_data : str;
  mappings : dict
}.
End UnmaskRequest.

Module UnmaskResponse.
Record t : Type := mk {
  unmasked_data : str
}.
End UnmaskResponse.

Module HealthResponse.
Record t : Type := mk {
  status : str;
  message : str
}.
End HealthResponse.

(** [request.app.state]: an attribute may not have been set yet. *)
Record AppState : Type := mkAppState {
  state_analyzer_engine : option (option AnalyzerEngine);
  state_service_initialized_successfully : option bool
}.

(** [getattr(request.app.state, "service_initialized_successfully", False)]
    and [getattr(request.app.state, "analyzer_engine", None)] *)
Definition getattr_initialized (state : AppState) : bool :=
  default false (state_service_initialized_successfully state).

Definition getattr_analyzer (state : AppState) : option AnalyzerEngine :=
  default None (state_analyzer_engine state).

(* ===================================================================== *)
(** * peekguard/api/health/router.py                                      *)
(* ===================================================================== *)

Definition detailed_health_check (state : AppState) : HealthResponse.t :=
  let service_initialized_successfully := getattr_initialized state in
  let analyzer_engine := getattr_analyzer state in
  if service_initialized_successfully && bool_decide (is_Some analyzer_engine) then
    HealthResponse.mk (lit "healthy")
      (lit "Service and AnalyzerEngine are initialized and ready.")
  else if negb service_initialized_successfully then
    HealthResponse.mk (lit "unhealthy")
      (lit "Core service initialization failed. Check logs for errors.")
  else
    HealthResponse.mk (lit "unhealthy")
      (lit "AnalyzerEngine is not initialized. Check logs for errors.").

(* ===================================================================== *)
(** * peekguard/api/masking/router.py, peekguard/api/unmasking/router.py  *)
(* ===================================================================== *)

Section Routers.

Variable pyap_parse : str -> list Address.
Variable sensu_send_alert : SensuStatus -> str -> str -> str -> bool.

(** Whether [_statsd_client] has been set. *)
Variable statsd : bool.

(** [str(e)] for an exception caught by a router. *)
Variable str_of_exception : ApiExn -> str.

Definition get_analyzer_engine_dependency (state : AppState) : IO AnalyzerEngine :=
  if negb (getattr_initialized state) then
    io_tell [LogError (lit "PII API: Core service components are not ready.")] ;;
    send_alert sensu_send_alert (lit "critical")
      (lit "PII API: Core service components are not ready.")
      (lit "peekguard_analyzer_failed") ;;
    io_raise (HTTPError 503
                (lit "Core service components are not ready. Check service logs."))
  else
    match getattr_analyzer state with
    | None =>
        io_tell [LogError
                   (lit "PII API: AnalyzerEngine not available in application state.")] ;;
        send_alert sensu_send_alert (lit "critical")
          (lit "PII API: AnalyzerEngine not available in application state.")
          (lit "peekguard_analyzer_failed") ;;
        io_raise
          (HTTPError 503
             (lit "AnalyzerEngine not available. Service might be initializing or encountered an error during startup."))
    | Some analyzer => mret analyzer
    end.

Definition mask_pii_data (request_data : MaskRequest.t) (analyzer : AnalyzerEngine)
  : IO MaskResponse.t :=
  try_except
    ('(masked_text, mappings) ←
       lift (mask_sentence pyap_parse
               (MaskRequest.text_data request_data)
               (Some analyzer)
               (MaskRequest.language request_data)
               (MaskRequest.entities request_data)
               (MaskRequest.existing_mappings request_data));
     incr statsd (lit "peekguard.api.masking.success") ;;
     mret (MaskResponse.mk masked_text mappings))
    (fun e =>
       io_tell [LogError
                  (lit "Error during mask PII operation, re-raising for generic handler.")] ;;
       incr statsd (lit "peekguard.api.masking.failure") ;;
       send_alert sensu_send_alert (lit "critical")
         (lit "Unexpected error while masking data: " ++ str_of_exception e)
         (lit "peekguard_mask_api_failed") ;;
       io_raise e).

Definition unmask_pii_data (request_data : UnmaskRequest.t) : IO UnmaskResponse.t :=
  try_except
    (let unmasked_data :=
       _unmask_sentence (UnmaskRequest.masked_data request_data)
         (UnmaskRequest.mappings request_data) in
     incr statsd (lit "peekguard.api.unmasking.success") ;;
     mret (UnmaskResponse.mk unmasked_data))
    (fun e =>
       io_tell [LogError
                  (lit "Error during unmask PII operation, re-raising for generic handler.")] ;;
       incr statsd (lit "peekguard.api.unmasking.failure") ;;
       send_alert sensu_send_alert (lit "critical")
         (lit "An error occurred while unmasking the PII data: " ++ str_of_exception e)
         (lit "peekguard_unmask_api_failed") ;;
       io_raise (HTTPError 500 (lit "An error occurred while unmasking the PII data."))).

End Routers.

(** ** Reading a trace *)

Definition is_sensu (ev : ApiEvent) : bool :=
  match ev with SensuSendAlert _ _ _ _ => true | _ => false end.

Definition is_incr (ev : ApiEvent) : bool :=
  match ev with StatsdIncr _ => true | _ => false end.

Definition is_timing (ev : ApiEvent) : bool :=
  match ev with StatsdTiming _ _ _ | LogInfoMetric _ _ => true | _ => false end.

(** A detector was asked. *)
Definition is_api_detection (ev : ApiEvent) : bool :=
  match ev with Core ev' => is_detection ev' | _ => false end.

(** Unfolds the operations on computations of the API layer. *)
Ltac iounfold :=
  unfold mbind, IO_bind, mret, IO_ret, io_tell, io_raise, try_except, try_finally,
    lift in *.

(* ===================================================================== *)
(** * Start-up: effects                                                   *)
(* ===================================================================== *)

(** [class Environment(StrEnum)] *)
Inductive Environment : Type := LOCALHOST | SANDBOX | PRODUCTION.

Global Instance Environment_eq_dec : EqDecision Environment.
Proof. solve_decision. Defined.

(** The value of a member, and [Environment(value)]; [None] stands for
    [ValueError]. *)
Definition Environment_value (environment : Environment) : str :=
  match environment with
  | LOCALHOST => lit "localhost"
  | SANDBOX => lit "sandbox"
  | PRODUCTION => lit "nv_prod"
  end.

Definition Environment_of_value (value : str) : option Environment :=
  if decide (value = lit "localhost") then Some LOCALHOST
  else if decide (value = lit "sandbox") then Some SANDBOX
  else if decide (value = lit "nv_prod") then Some PRODUCTION
  else None.

(** A value of the configuration, as [tomllib] builds it: a table is a
    [dict]; of the other values the code only needs to know that they are
    not tables. *)
#[warnings="-register-all"]
Inductive toml : Type :=
| TTable (items : list (str * toml))
| TString (s : str)
| TInteger (n : Z)
| TOther.

(** What the start-up code raises.  [RuntimeError] carries the exception
    its message is formatted from; [OtherError] is whatever a collaborator
    raised. *)
Inductive InitExn : Type :=
| AssertionError
| KeyError (key : str)
| TypeError
| OtherError
| RuntimeError (cause : InitExn).

(** [vault_client] and [_statsd_client], as far as they are set up. *)
Record VaultClient : Type := mkVaultClient {
  vault_url : toml;
  vault_token : str;
  vault_verify : toml
}.

Record StatsClient : Type := mkStatsClient {
  statsd_host : str;
  statsd_port : Z;
  statsd_prefix : str
}.

(** The module-level variables of [config.py] and [metrics.py]. *)
Record Globals : Type := mkGlobals {
  _config : list (str * toml);
  vault_client : option VaultClient;
  _statsd_client : option StatsClient
}.

(** What the loading of the analyzer does to the semaphore and the logs. *)
Inductive EngineEvent : Type :=
| SemaphoreOpen
| SemaphoreAcquire
| SemaphoreRelease
| SemaphoreClose
| LogErrorEngine (message : str)
| LogCriticalEngine (message : str).

(** What start-up does to its collaborators. *)
Inductive InitEvent : Type :=
| LogErrorInvalidEnvironment (value : str)
| LogExceptionUnknownConfig (key : str)
| LogCriticalVaultAuthentication
| LogCriticalInitService (e : InitExn)
| LogCriticalCoreInitialization (e : InitExn)
| LogCriticalUnexpected (e : InitExn)
| LogWarningVaultUnavailable (e : InitExn)
| VaultReadSecret (keypath mount_point : toml)
| Engine (ev : EngineEvent)
| Api (ev : ApiEvent).

(** A start-up computation reads and writes the module-level variables,
    emits events and yields a value or raises; what it wrote before it
    raised stays written. *)
Definition Init (A : Type) : Type :=
  Globals -> list InitEvent * Globals * (InitExn + A).

Global Instance Init_ret : MRet Init := fun A a g => ([], g, inr a).

Global Instance Init_bind : MBind Init := fun A B k m g =>
  match m g with
  | (evs, g', inl e) => (evs, g', inl e)
  | (evs, g', inr a) => let '(evs', g'', r) := k a g' in (evs ++ evs', g'', r)
  end.

Definition init_raise {A} (e : InitExn) : Init A := fun g => ([], g, inl e).
Definition init_tell (evs : list InitEvent) : Init unit := fun g => (evs, g, inr tt).
Definition get_globals : Init Globals := fun g => ([], g, inr g).
Definition set_globals (g' : Globals) : Init unit := fun _ => ([], g', inr tt).

(** [try: body / except Exception as e: handler(e)] *)
Definition init_try {A} (body : Init A) (handler : InitExn -> Init A) : Init A :=
  fun g =>
    match body g with
    | (evs, g', inl e) => let '(evs', g'', r) := handler e g' in (evs ++ evs', g'', r)
    | (evs, g', inr a) => (evs, g', inr a)
    end.

(* ===================================================================== *)
(** * peekguard/utils/analyzer.py: [initialize_analyzer_engine]           *)
(* ===================================================================== *)

Section Engine.

(** Whether [posix_ipc.Semaphore(...)], [sem.acquire()], [sem.release()]
    and [sem.close()] return ([true]) or raise. *)
Variable semaphore_opens : bool.
Variable semaphore_acquires : bool.
Variable semaphore_releases : bool.
Variable semaphore_closes : bool.

(** Whether [_initialize_nlp_engine_and_registry()] returns an engine and
    a registry ([true]) or [(None, None)]; it does not raise. *)
Variable nlp_engine_and_registry : bool.

(** Whether [get_supported_languages()] returns or raises. *)
Variable supported_languages : option (list str).

(** [AnalyzerEngine.analyze] of the engine [CustomAnalyzer(...)] builds on,
    or [None] when the constructor raises. *)
Variable base_analyze : list str -> option AnalyzerEngine.

(** The [finally] clause, run when the semaphore has been opened: an
    exception raised in it replaces what the function was about to
    return. *)
Definition release_semaphore (result : InitExn + (option AnalyzerEngine * bool))
  : list EngineEvent * (InitExn + (option AnalyzerEngine * bool)) :=
  if semaphore_releases then
    if semaphore_closes then ([SemaphoreRelease; SemaphoreClose], result)
    else ([SemaphoreRelease; SemaphoreClose], inl OtherError)
  else ([SemaphoreRelease], inl OtherError).

(** The critical section. *)
Definition load_model : list EngineEvent * (option AnalyzerEngine * bool) :=
  if nlp_engine_and_registry then
    match supported_languages with
    | Some supported_langs =>
        match base_analyze supported_langs with
        | Some analyze => ([], (Some (CustomAnalyzer analyze), true))
        | None =>
            ([LogCriticalEngine (lit "Critical error during AnalyzerEngine init")],
             (None, false))
        end
    | None =>
        ([LogCriticalEngine (lit "Critical error during AnalyzerEngine init")],
         (None, false))
    end
  else ([LogErrorEngine (lit "NLP Engine or Registry initialization failed.")],
        (None, false)).

Definition initialize_analyzer_engine
  : list EngineEvent * (InitExn + (option AnalyzerEngine * bool)) :=
  if semaphore_opens then
    let '(evs, result) :=
      if semaphore_acquires then
        let '(evs, returned) := load_model in (SemaphoreAcquire :: evs, inr returned)
      else
        ([SemaphoreAcquire;
          LogErrorEngine (lit "An error occurred during semaphore-based model loading")],
         inr (None, false)) in
    let '(evs', result') := release_semaphore result in
    (SemaphoreOpen :: evs ++ evs', result')
  else
    ([SemaphoreOpen;
      LogErrorEngine (lit "An error occurred during semaphore-based model loading")],
     inr (None, false)).

End Engine.

(* ===================================================================== *)
(** * peekguard/utils/config.py                                           *)
(* ===================================================================== *)

(** [s.split(sep)] for a separator of one character. *)
Fixpoint split_on (sep : ascii) (s : str) : list str :=
  match s with
  | [] => [[]]
  | c :: s' =>
      if decide (c = sep) then [] :: split_on sep s'
      else match split_on sep s' with
           | [] => [[c]]
           | word :: words => (c :: word) :: words
           end
  end.

(** [d.get(k)] on the items of a table. *)
Fixpoint table_get (items : list (str * toml)) (k : str) : option toml :=
  match items with
  | [] => None
  | (k', v) :: items' => if decide (k' = k) then Some v else table_get items' k
  end.

(** [result[k]]: [KeyError] for a table without the key, [TypeError] for a
    value that is no table. *)
Definition subscript (result : toml) (k : str) : InitExn + toml :=
  match result with
  | TTable items =>
      match table_get items k with
      | Some v => inr v
      | None => inl (KeyError k)
      end
  | _ => inl TypeError
  end.

(** [for k in keys: result = result[k]] *)
Fixpoint follow (result : toml) (keys : list str) : InitExn + toml :=
  match keys with
  | [] => inr result
  | k :: keys' =>
      match subscript result k with
      | inl e => inl e
      | inr v => follow v keys'
      end
  end.

(** What is passed as [coerce]: something that can be called, or, as in
    [get_config("vault", "endpoint")], a [str], which cannot. *)
Inductive Coerce (T : Type) : Type :=
| Callable (f : toml -> InitExn + T)
| NotCallable.

Arguments Callable {T} f.
Arguments NotCallable {T}.

Section Config.

(** [os.getenv("HSFT_CONF_ENV")] *)
Variable HSFT_CONF_ENV : option str.

(** Reading and parsing the configuration file of an environment; [None]
    stands for an exception. *)
Variable read_config : Environment -> option (list (str * toml)).

Definition current_environment : Init Environment :=
  let hsft_conf_env := default (lit "localhost") HSFT_CONF_ENV in
  match Environment_of_value hsft_conf_env with
  | Some environment => mret environment
  | None =>
      init_tell [LogErrorInvalidEnvironment hsft_conf_env] ;;
      mret LOCALHOST
  end.

Definition _load_config : Init unit :=
  environment ← current_environment;
  match read_config environment with
  | None => init_raise OtherError
  | Some loaded =>
      g ← get_globals;
      set_globals (mkGlobals loaded (vault_client g) (_statsd_client g)) ;;
      if nonempty loaded then mret tt else init_raise AssertionError
  end.

Definition get_config {T} (key : str) (coerce : Coerce T) : Init T :=
  if nonempty key then
    g ← get_globals;
    (if nonempty (_config g) then mret tt else _load_config) ;;
    g ← get_globals;
    match follow (TTable (_config g)) (split_on "."%char key) with
    | inl (KeyError k) =>
        init_tell [LogExceptionUnknownConfig key] ;;
        init_raise (KeyError k)
    | inl e => init_raise e
    | inr result =>
        match coerce with
        | Callable f =>
            match f result with
            | inl e => init_raise e
            | inr value => mret value
            end
        | NotCallable => init_raise TypeError
        end
    end
  else init_raise AssertionError.

(** [os.environ["HS_VAULT_TOKEN"]] *)
Variable HS_VAULT_TOKEN : option str.

(** [vault_client.is_authenticated()], asked twice. *)
Variable is_authenticated : bool.
Variable is_authenticated_again : bool.

Definition init_vault_client : Init unit :=
  url ← get_config (lit "vault") NotCallable;
  token ← match HS_VAULT_TOKEN with
          | Some token => mret token
          | None => init_raise (KeyError (lit "HS_VAULT_TOKEN"))
          end;
  verify ← get_config (lit "vault") NotCallable;
  g ← get_globals;
  set_globals (mkGlobals (_config g) (Some (mkVaultClient url token verify))
                 (_statsd_client g)) ;;
  if is_authenticated then mret tt
  else
    init_tell [LogCriticalVaultAuthentication] ;;
    if is_authenticated_again then mret tt else init_raise AssertionError.

(* ===================================================================== *)
(** * peekguard/utils/metrics.py: [init_statsd]                           *)
(* ===================================================================== *)

(** [str] and [int] as they are applied to a value of the configuration. *)
Variable py_str : toml -> str.
Variable py_int : toml -> InitExn + Z.

(** Whether [StatsClient(host, port, prefix)] returns ([true]) or raises. *)
Variable stats_client_opens : str -> Z -> str -> bool.

Definition init_statsd : Init unit :=
  host ← get_config (lit "statsd.host") (Callable (fun v => inr (py_str v)));
  port ← get_config (lit "statsd.port") (Callable py_int);
  prefix ← get_config (lit "app.type") (Callable (fun v => inr (py_str v)));
  if stats_client_opens host port prefix then
    g ← get_globals;
    set_globals (mkGlobals (_config g) (vault_client g)
                   (Some (mkStatsClient host port prefix)))
  else init_raise OtherError.

(* ===================================================================== *)
(** * peekguard/main.py                                                   *)
(* ===================================================================== *)

(** [init_service]: the [match] statement runs the first case whose
    pattern fits. *)
Definition init_service : Init unit :=
  init_try
    (environment ← current_environment;
     if decide (environment = PRODUCTION) then init_vault_client
     else if decide (environment = PRODUCTION \/ environment = SANDBOX) then init_statsd
     else mret tt)
    (fun e =>
       init_tell [LogCriticalInitService e] ;;
       init_raise (RuntimeError e)).

(** The collaborators of [initialize_analyzer_engine]. *)
Variable semaphore_opens : bool.
Variable semaphore_acquires : bool.
Variable semaphore_releases : bool.
Variable semaphore_closes : bool.
Variable nlp_engine_and_registry : bool.
Variable supported_languages : option (list str).
Variable base_analyze : list str -> option AnalyzerEngine.

Variable sensu_send_alert : SensuStatus -> str -> str -> str -> bool.

(** [str(e)] in the alert of [lifespan]. *)
Variable str_of_init_exception : InitExn -> str.

(** The call of [initialize_analyzer_engine] from [lifespan]. *)
Definition call_initialize_analyzer_engine : Init (option AnalyzerEngine * bool) :=
  let '(evs, result) :=
    initialize_analyzer_engine semaphore_opens semaphore_acquires semaphore_releases
      semaphore_closes nlp_engine_and_registry supported_languages base_analyze in
  init_tell (Engine <$> evs) ;;
  match result with
  | inl e => init_raise e
  | inr returned => mret returned
  end.

(** The start-up half of [lifespan]: the application state it sets. *)
Definition lifespan_startup : Init AppState :=
  '(analyzer_instance, initialization_successful) ←
    init_try
      (init_service ;; call_initialize_analyzer_engine)
      (fun e =>
         match e with
         | RuntimeError _ =>
             init_tell [LogCriticalCoreInitialization e] ;;
             mret (None, false)
         | _ =>
             init_tell [LogCriticalUnexpected e] ;;
             init_tell (Api <$> (send_alert sensu_send_alert (lit "critical")
                                   (lit "Peekguard service initialization failed with error: "
                                      ++ str_of_init_exception e)
                                   (lit "peekguard")).1) ;;
             mret (None, false)
         end);
  mret (mkAppState (Some analyzer_instance) (Some initialization_successful)).

End Config.

(** The shut-down half of [lifespan]. *)
Definition lifespan_shutdown : AppState := mkAppState (Some None) (Some false).

(** Unfolds the operations on start-up computations. *)
Ltac initunfold :=
  unfold mbind, Init_bind, mret, Init_ret, init_tell, init_raise, init_try,
    get_globals, set_globals in *.

Definition is_release (ev : EngineEvent) : bool :=
  match ev with SemaphoreRelease => true | _ => false end.

Definition is_engine (ev : InitEvent) : bool :=
  match ev with Engine _ => true | _ => false end.

Definition is_alert (ev : InitEvent) : bool :=
  match ev with Api _ => true | _ => false end.

(** ** Reading a start-up *)

(** The environment the process runs in, and the log line of an unknown
    name. *)
Definition the_environment (HSFT_CONF_ENV : option str) : Environment :=
  default LOCALHOST (Environment_of_value (default (lit "localhost") HSFT_CONF_ENV)).

Definition environment_events (HSFT_CONF_ENV : option str) : list InitEvent :=
  match Environment_of_value (default (lit "localhost") HSFT_CONF_ENV) with
  | Some _ => []
  | None => [LogErrorInvalidEnvironment (default (lit "localhost") HSFT_CONF_ENV)]
  end.

(** The configuration as [get_config] finds it or loads it. *)
Definition ensure_config (HSFT_CONF_ENV : option str)
    (read_config : Environment -> option (list (str * toml))) (g : Globals)
  : list InitEvent * Globals * (InitExn + unit) :=
  if nonempty (_config g) then ([], g, inr tt)
  else _load_config HSFT_CONF_ENV read_config g.

(* ===================================================================== *)
(** * peekguard/utils/dlp_recognizer.py: [get_gcp_credentials]            *)
(* ===================================================================== *)

Section Credentials.

Variable HSFT_CONF_ENV : option str.
Variable read_config : Environment -> option (list (str * toml)).

(** [os.environ.get("GCP_CREDENTIALS_JSON")] *)
Variable GCP_CREDENTIALS_JSON : option str.

(** [vault_client.secrets.kv.v2.read_secret_version(path, mount_point)]
    followed by the three subscripts: the secret, or [None] when one of
    them raises. *)
Variable read_secret_version : toml -> toml -> option str.

(** [get_secret_from_vault(keypath, key="current", mount_point)] *)
Definition get_secret_from_vault (keypath mount_point : toml) : Init str :=
  init_tell [VaultReadSecret keypath mount_point] ;;
  match read_secret_version keypath mount_point with
  | Some secret => mret secret
  | None => init_raise OtherError
  end.

(** [get_gcp_credentials]: the [try] block returns the secret ([Some]) or
    falls through ([None]) to the environment variable. *)
Definition get_gcp_credentials : Init (option str) :=
  returned ←
    init_try
      (g ← get_globals;
       match vault_client g with
       | Some _ =>
           keypath ← get_config HSFT_CONF_ENV read_config (lit "gcp") NotCallable;
           mount_point ← get_config HSFT_CONF_ENV read_config (lit "vault") NotCallable;
           secret ← get_secret_from_vault keypath mount_point;
           mret (Some secret)
       | None => mret None
       end)
      (fun e =>
         init_tell [LogWarningVaultUnavailable e] ;;
         mret None);
  match returned with
  | Some secret => mret (Some secret)
  | None => mret GCP_CREDENTIALS_JSON
  end.

End Credentials.

Definition is_vault_read (ev : InitEvent) : bool :=
  match ev with VaultReadSecret _ _ => true | _ => false end.

Definition is_vault_warning (ev : InitEvent) : bool :=
  match ev with LogWarningVaultUnavailable _ => true | _ => false end.

(* ===================================================================== *)
(** * Python built-ins: slices                                            *)
(* ===================================================================== *)

Lemma len_nonneg {A} (s : list A) : 0 <= len s.
Proof. unfold len. lia. Qed.

Lemma len_app {A} (s t : list A) : len (s ++ t) = len s + len t.
Proof. unfold len. rewrite length_app. lia. Qed.

Lemma len_nil {A} : len (@nil A) = 0.
Proof. done. Qed.

Lemma len_cons {A} (c : A) (s : list A) : len (c :: s) = 1 + len s.
Proof. unfold len. simpl length. lia. Qed.

Lemma len_zero {A} (s : list A) : len s = 0 -> s = [].
Proof. destruct s; [done|]. rewrite len_cons. pose proof (len_nonneg s). lia. Qed.

Lemma clamp_in_range n i : 0 <= i <= n -> clamp n i = i.
Proof. intros H. unfold clamp. destruct (Z.ltb_spec i 0); lia. Qed.

(** A slice with indices in range, in terms of [take] and [drop]. *)
Lemma slice_in_range {A} (s : list A) lo hi :
  0 <= lo <= len s -> 0 <= hi <= len s ->
  slice s lo hi = take (Z.to_nat (hi - lo)) (drop (Z.to_nat lo) s).
Proof. intros H1 H2. unfold slice. by rewrite !clamp_in_range. Qed.

(** The three slices of a text cut at two offsets. *)
Lemma slice_app3 {A} (x y z : list A) :
  slice_to (x ++ y ++ z) (len x) = x /\
  slice (x ++ y ++ z) (len x) (len x + len y) = y /\
  slice_from (x ++ y ++ z) (len x + len y) = z.
Proof.
  pose proof (len_nonneg x). pose proof (len_nonneg y). pose proof (len_nonneg z).
  unfold slice_to, slice_from. rewrite !slice_in_range by (rewrite !len_app; lia).
  rewrite !len_app. unfold len. split_and!.
  - replace (Z.to_nat (Z.of_nat (length x) - 0)) with (length x) by lia.
    change (Z.to_nat 0) with 0%nat. rewrite drop_0. by rewrite take_app_length.
  - replace (Z.to_nat (Z.of_nat (length x) + Z.of_nat (length y) - Z.of_nat (length x)))
      with (length y) by lia.
    rewrite Nat2Z.id, drop_app_length. by rewrite take_app_length.
  - replace (Z.to_nat (_ - _)) with (length z) by lia.
    replace (Z.to_nat (_ + _)) with (length x + length y)%nat by lia.
    rewrite <- drop_drop, drop_app_length, drop_app_length.
    by rewrite firstn_all.
Qed.

Lemma slice_to_app {A} (x z : list A) : slice_to (x ++ z) (len x) = x.
Proof. apply (slice_app3 x [] z). Qed.

Lemma slice_from_app {A} (x z : list A) : slice_from (x ++ z) (len x) = z.
Proof.
  pose proof (slice_app3 x [] z) as (_ & _ & H).
  by rewrite len_nil, Z.add_0_r in H.
Qed.

(** Cutting a text at two offsets in range gives back the text. *)
Lemma slice_decompose {A} (s : list A) lo hi :
  0 <= lo -> lo <= hi -> hi <= len s ->
  s = slice_to s lo ++ slice s lo hi ++ slice_from s hi /\
  len (slice_to s lo) = lo /\ len (slice s lo hi) = hi - lo.
Proof.
  intros H1 H2 H3. unfold slice_to, slice_from.
  rewrite !slice_in_range by lia. unfold len in *.
  replace (Z.to_nat (lo - 0)) with (Z.to_nat lo) by lia.
  change (Z.to_nat 0) with 0%nat. rewrite drop_0.
  rewrite (firstn_all2 (drop (Z.to_nat hi) s)) by (rewrite length_drop; lia).
  split_and!.
  - replace (drop (Z.to_nat hi) s)
      with (drop (Z.to_nat (hi - lo)) (drop (Z.to_nat lo) s))
      by (rewrite drop_drop; f_equal; lia).
    by rewrite !take_drop.
  - rewrite length_take. lia.
  - rewrite length_take, length_drop. lia.
Qed.

Lemma slice_from_decompose {A} (s : list A) lo :
  0 <= lo <= len s ->
  s = slice_to s lo ++ slice_from s lo /\ len (slice_to s lo) = lo.
Proof.
  intros H. destruct (slice_decompose s lo lo) as (E & L1 & L2); try lia.
  rewrite Z.sub_diag in L2. apply len_zero in L2. rewrite L2 in E. done.
Qed.

Lemma slice_from_len {A} (s : list A) lo :
  0 <= lo <= len s -> len (slice_from s lo) = len s - lo.
Proof.
  intros H. destruct (slice_from_decompose s lo H) as [E L].
  rewrite E at 2. rewrite len_app. lia.
Qed.

(** Slices of a suffix are slices of the text. *)
Lemma slice_of_slice_from {A} (s : list A) pos lo hi :
  0 <= pos -> pos <= lo -> lo <= hi -> hi <= len s ->
  slice_to (slice_from s pos) (lo - pos) = slice s pos lo /\
  slice (slice_from s pos) (lo - pos) (hi - pos) = slice s lo hi /\
  slice_from (slice_from s pos) (hi - pos) = slice_from s hi.
Proof.
  intros H1 H2 H3 H4.
  destruct (slice_decompose s pos lo) as (E1 & L1 & L2); try lia.
  destruct (slice_decompose s lo hi) as (E2 & L3 & L4); try lia.
  destruct (slice_from_decompose s pos) as (E3 & _); try lia.
  set (a := slice_to s pos) in *. set (b := slice s pos lo) in *.
  set (c := slice s lo hi) in *. set (d := slice_from s hi) in *.
  assert (slice_to s lo = a ++ b) as Eab.
  { pose proof (slice_to_app (a ++ b) (slice_from s lo)) as H.
    rewrite <- app_assoc, <- E1, len_app, L1, L2 in H.
    by replace (pos + (lo - pos)) with lo in H by lia. }
  assert (slice_from s lo = c ++ d) as Ecd.
  { rewrite Eab in E2. rewrite E2 at 1.
    pose proof (slice_from_app (a ++ b) (c ++ d)) as H.
    rewrite len_app, L1, L2 in H.
    by replace (pos + (lo - pos)) with lo in H by lia. }
  assert (slice_from s pos = b ++ c ++ d) as Ebcd.
  { rewrite Ecd in E1. rewrite E1 at 1.
    pose proof (slice_from_app a (b ++ c ++ d)) as H. by rewrite L1 in H. }
  rewrite Ebcd.
  replace (lo - pos) with (len b) by lia.
  replace (hi - pos) with (len b + len c) by lia.
  apply slice_app3.
Qed.

(* ===================================================================== *)
(** * Python built-ins: stable sort                                       *)
(* ===================================================================== *)

Lemma Sorted_weaken {A} (R S : A -> A -> Prop) (l : list A) :
  (forall a b, R a b -> S a b) -> Sorted R l -> Sorted S l.
Proof.
  intros HRS. induction 1 as [|x l Hs IH Hx]; constructor; [done|].
  destruct Hx; constructor. by apply HRS.
Qed.

Section SortLemmas.
Context {A : Type} (le : A -> A -> bool).

Lemma insert_sorted_perm x l : Permutation (insert_sorted le x l) (x :: l).
Proof.
  induction l as [|y l IH]; simpl; [done|].
  destruct (le x y); [done|]. rewrite IH. apply perm_swap.
Qed.

Lemma sorted_perm l : Permutation (sorted le l) l.
Proof.
  induction l as [|x l IH]; simpl; [done|].
  by rewrite insert_sorted_perm, IH.
Qed.

Lemma sorted_length l : length (sorted le l) = length l.
Proof. apply Permutation_length, sorted_perm. Qed.

Hypothesis le_total : forall x y, le x y = false -> le y x = true.

Lemma insert_sorted_Sorted x l :
  Sorted (fun a b => le a b = true) l ->
  Sorted (fun a b => le a b = true) (insert_sorted le x l).
Proof using le_total.
  induction 1 as [|y l Hs IH Hy]; simpl.
  - by repeat constructor.
  - destruct (le x y) eqn:E.
    + by repeat constructor.
    + constructor; [done|].
      destruct l as [|z l]; simpl.
      * constructor. by apply le_total.
      * inversion Hy; subst. destruct (le x z); constructor; auto.
Qed.

Lemma sorted_Sorted l : Sorted (fun a b => le a b = true) (sorted le l).
Proof using le_total.
  induction l as [|x l IH]; simpl; [constructor|].
  by apply insert_sorted_Sorted.
Qed.

(** Sorting a list that is in order already changes nothing. *)
Lemma sorted_id l : Sorted (fun a b => le a b = true) l -> sorted le l = l.
Proof.
  induction 1 as [|x l Hs IH Hx]; simpl; [done|].
  rewrite IH. destruct Hx as [|y l Hxy]; simpl; [done|]. by rewrite Hxy.
Qed.
End SortLemmas.

(* ===================================================================== *)
(** * Effects: unfolding a computation                                    *)
(* ===================================================================== *)

Lemma bind_returned {A B} (m : M A) (k : A -> M B) evs a :
  m = (evs, inr a) -> m ≫= k = (evs ++ (k a).1, (k a).2).
Proof. intros ->. munfold. by destruct (k a). Qed.

Lemma bind_raised {A B} (m : M A) (k : A -> M B) evs e :
  m = (evs, inl e) -> m ≫= k = (evs, inl e).
Proof. by intros ->. Qed.

(* ===================================================================== *)
(** * Decimal numerals                                                    *)
(* ===================================================================== *)

Lemma is_digit_digit_of_ascii c :
  is_digit c = true -> is_Some (digit_of_ascii c).
Proof.
  destruct c as [[] [] [] [] [] [] [] []]; vm_compute; intros H;
    first [ discriminate H | eexists; reflexivity ].
Qed.

Lemma digits_uint_of_str ds :
  forallb is_digit ds = true -> is_Some (uint_of_str ds).
Proof.
  induction ds as [|c ds IH]; simpl; [eauto|].
  intros [Hc Hds]%andb_true_iff.
  destruct (is_digit_digit_of_ascii c Hc) as [d ->].
  destruct (IH Hds) as [u ->]. eauto.
Qed.

Lemma digits_int ds :
  nonempty ds = true -> forallb is_digit ds = true -> is_Some (int ds).
Proof.
  intros Hne Hds. destruct ds as [|c ds]; [discriminate|].
  unfold int. destruct (digits_uint_of_str _ Hds) as [u ->]. simpl. eauto.
Qed.

Lemma uint_of_str_of_uint u : uint_of_str (str_of_uint u) = Some u.
Proof. induction u; simpl; rewrite ?IHu; reflexivity. Qed.

Lemma str_of_uint_digits u : forallb is_digit (str_of_uint u) = true.
Proof. induction u; simpl; auto. Qed.

Lemma format_int_digits n : forallb is_digit (format_int n) = true.
Proof. apply str_of_uint_digits. Qed.

Lemma format_int_nonempty n : nonempty (format_int n) = true.
Proof.
  unfold format_int. destruct (N.to_uint n) eqn:E; try reflexivity.
  exfalso. pose proof (DecimalN.Unsigned.of_to n) as H. rewrite E in H.
  subst n. discriminate E.
Qed.

Lemma int_format_int n : int (format_int n) = Some n.
Proof.
  pose proof (format_int_nonempty n) as Hne.
  unfold int. destruct (format_int n) eqn:E; [discriminate|].
  rewrite <- E. unfold format_int. rewrite uint_of_str_of_uint. simpl.
  by rewrite DecimalN.Unsigned.of_to.
Qed.

(* ===================================================================== *)
(** * The canonical pattern                                               *)
(* ===================================================================== *)

Lemma split_last_snoc s c : split_last (s ++ [c]) = Some (s, c).
Proof. induction s as [|d s IH]; simpl; [done|]. by rewrite IH. Qed.

Lemma split_last_Some s i l : split_last s = Some (i, l) -> s = i ++ [l].
Proof.
  revert i l. induction s as [|c s IH]; simpl; [done|]. intros i l.
  destruct (split_last s) as [[i' l']|] eqn:E.
  - intros [= <- <-]. simpl. f_equal. by apply IH.
  - intros [= <- <-]. destruct s as [|d s]; [done|]. simpl in E.
    by destruct (split_last s) as [[? ?]|].
Qed.

Lemma rsplit_underscore_Some s a b :
  rsplit_underscore s = Some (a, b) -> s = a ++ "_"%char :: b.
Proof.
  revert a b. induction s as [|c s IH]; simpl; [done|]. intros a b.
  destruct (rsplit_underscore s) as [[a' b']|] eqn:E.
  - intros [= <- <-]. simpl. f_equal. by apply IH.
  - destruct (decide (c = "_"%char)) as [->|]; [|done]. by intros [= <- <-].
Qed.

Lemma rsplit_underscore_None s :
  Forall (fun c => c <> "_"%char) s -> rsplit_underscore s = None.
Proof.
  induction 1 as [|c s Hc _ IH]; simpl; [done|]. rewrite IH.
  by destruct (decide (c = "_"%char)).
Qed.

Lemma rsplit_underscore_app a b :
  Forall (fun c => c <> "_"%char) b ->
  rsplit_underscore (a ++ "_"%char :: b) = Some (a, b).
Proof.
  intros Hb. induction a as [|c a IH]; simpl.
  - by rewrite rsplit_underscore_None.
  - by rewrite IH.
Qed.

Lemma is_digit_not_underscore c : is_digit c = true -> c <> "_"%char.
Proof. intros H ->. vm_compute in H. discriminate H. Qed.

Lemma digits_no_underscore ds :
  forallb is_digit ds = true -> Forall (fun c => c <> "_"%char) ds.
Proof.
  intros H. apply Forall_forall. intros c Hc%list_elem_of_In.
  apply is_digit_not_underscore. rewrite forallb_forall in H. by apply H.
Qed.

(** Matching a freshly formatted placeholder gives back its two parts. *)
Lemma fullmatch_format entity n :
  placeholder_fullmatch (format_placeholder entity n) =
  if nonempty entity && forallb is_entity_char entity
  then Some (entity, format_int n) else None.
Proof.
  unfold placeholder_fullmatch, format_placeholder.
  replace (entity ++ "_"%char :: format_int n ++ [">"%char])
    with ((entity ++ "_"%char :: format_int n) ++ [">"%char])
    by (by rewrite <- app_assoc).
  rewrite split_last_snoc.
  rewrite rsplit_underscore_app by apply digits_no_underscore, format_int_digits.
  rewrite format_int_nonempty, format_int_digits.
  by destruct (nonempty entity && forallb is_entity_char entity).
Qed.

Lemma parse_format entity n :
  parse_placeholder (format_placeholder entity n) =
  if nonempty entity && forallb is_entity_char entity
  then Some (entity, n) else None.
Proof.
  unfold parse_placeholder. rewrite fullmatch_format.
  destruct (nonempty entity && forallb is_entity_char entity); [|done].
  by rewrite int_format_int.
Qed.

(** A match always has a number: [int] cannot fail in the seeding loop. *)
Lemma fullmatch_int placeholder entity number_s :
  placeholder_fullmatch placeholder = Some (entity, number_s) ->
  is_Some (int number_s).
Proof.
  unfold placeholder_fullmatch. intros H.
  repeat case_match; simplify_eq.
  repeat match goal with H : _ && _ = true |- _ => apply andb_true_iff in H as [? ?] end.
  by apply digits_int.
Qed.

Lemma well_formed_parse placeholder :
  well_formed placeholder = true <-> is_Some (parse_placeholder placeholder).
Proof.
  unfold well_formed, parse_placeholder. rewrite bool_decide_eq_true. split.
  - intros [[e ds] H]. rewrite H. destruct (fullmatch_int _ _ _ H) as [n ->]. eauto.
  - intros [x H]. destruct (placeholder_fullmatch placeholder); [eauto|done].
Qed.

Lemma not_well_formed_parse placeholder :
  well_formed placeholder = false <-> parse_placeholder placeholder = None.
Proof.
  rewrite <- not_true_iff_false, well_formed_parse, <- eq_None_not_Some. done.
Qed.

(* ===================================================================== *)
(** * The registry                                                        *)
(* ===================================================================== *)

Lemma placeholder_for_known pm entity value placeholder :
  _pii_to_placeholder pm !! (entity, value) = Some placeholder ->
  placeholder_for pm entity value = (placeholder, pm).
Proof. unfold placeholder_for. by intros ->. Qed.

Lemma placeholder_for_records pm entity value :
  _pii_to_placeholder (placeholder_for pm entity value).2 !! (entity, value)
  = Some (placeholder_for pm entity value).1.
Proof.
  unfold placeholder_for.
  destruct (_pii_to_placeholder pm !! (entity, value)) eqn:E; simpl; [done|].
  by rewrite lookup_insert_eq.
Qed.

(** [placeholder_for] never rebinds a pair the reverse index already holds. *)
Lemma placeholder_for_keeps pm entity value key placeholder :
  _pii_to_placeholder pm !! key = Some placeholder ->
  _pii_to_placeholder (placeholder_for pm entity value).2 !! key = Some placeholder.
Proof.
  intros H. unfold placeholder_for.
  destruct (_pii_to_placeholder pm !! (entity, value)) eqn:E; simpl; [done|].
  rewrite lookup_insert_ne; [done|]. intros <-. congruence.
Qed.

Lemma placeholders_for_keeps calls pm key placeholder :
  _pii_to_placeholder pm !! key = Some placeholder ->
  _pii_to_placeholder (placeholders_for pm calls).2 !! key = Some placeholder.
Proof.
  revert pm. induction calls as [|[e v] calls IH]; intros pm H; simpl; [done|].
  pose proof (placeholder_for_keeps pm e v key placeholder H) as H1.
  destruct (placeholder_for pm e v) as [p pm1]. simpl in H1.
  specialize (IH pm1 H1). by destruct (placeholders_for pm1 calls).
Qed.

Lemma counter_insert pm entity n e :
  default 0%N (<[entity := n]> (_entity_counters pm) !! e) =
  if decide (entity = e) then n else counter pm e.
Proof.
  unfold counter. rewrite lookup_insert. by destruct (decide (entity = e)).
Qed.

Lemma placeholder_for_counter pm entity value e :
  (counter pm e <= counter (placeholder_for pm entity value).2 e)%N.
Proof.
  unfold placeholder_for.
  destruct (_pii_to_placeholder pm !! (entity, value)); simpl; [lia|].
  unfold counter at 2. simpl. rewrite counter_insert.
  destruct (decide (entity = e)) as [->|]; lia.
Qed.

Lemma placeholders_for_counter calls pm e :
  (counter pm e <= counter (placeholders_for pm calls).2 e)%N.
Proof.
  revert pm. induction calls as [|[en v] calls IH]; intros pm; simpl; [lia|].
  pose proof (placeholder_for_counter pm en v e) as H1.
  destruct (placeholder_for pm en v) as [p pm1]. simpl in H1.
  specialize (IH pm1). destruct (placeholders_for pm1 calls). simpl in *. lia.
Qed.

(** ** Seeding *)

Lemma initialise_item_seed pm item :
  initialise_item pm item =
  ((if well_formed item.1 then [] else [LogWarningMalformed item.1]),
   inr (seed_item pm item)).
Proof.
  destruct item as [placeholder original].
  unfold initialise_item, seed_item, well_formed, parse_placeholder. simpl.
  destruct (placeholder_fullmatch placeholder) as [[entity number_s]|] eqn:E.
  - destruct (fullmatch_int _ _ _ E) as [n ->].
    rewrite bool_decide_eq_true_2 by eauto. done.
  - rewrite bool_decide_eq_false_2 by (by intros [? ?]). done.
Qed.

Lemma initialise_items_seed items pm :
  initialise_items items pm =
  (LogWarningMalformed <$> malformed_keys items, inr (seed_items items pm)).
Proof.
  revert pm. induction items as [|item items IH]; intros pm; [done|].
  cbn [initialise_items].
  erewrite bind_returned by apply initialise_item_seed.
  rewrite IH. cbn [fst snd]. unfold malformed_keys, dict_keys. cbn [map].
  unfold seed_items. simpl. f_equal.
  rewrite filter_cons. destruct (well_formed item.1) eqn:E.
  - by rewrite decide_False by done.
  - by rewrite decide_True by done.
Qed.

Lemma PlaceholderManager_init_seeded existing :
  PlaceholderManager_init existing =
  (LogWarningMalformed <$> malformed_keys (default [] existing),
   inr (seeded existing)).
Proof. apply initialise_items_seed. Qed.

Lemma seed_item_mappings pm item : mappings (seed_item pm item) = mappings pm.
Proof. unfold seed_item. by destruct (parse_placeholder item.1) as [[? ?]|]. Qed.

Lemma seed_items_mappings items pm : mappings (seed_items items pm) = mappings pm.
Proof.
  revert pm. induction items as [|item items IH]; intros pm; [done|].
  unfold seed_items in *. simpl. by rewrite IH, seed_item_mappings.
Qed.

Lemma seeded_mappings existing : mappings (seeded existing) = default [] existing.
Proof. unfold seeded. by rewrite seed_items_mappings. Qed.

Lemma seed_item_counter pm item e :
  (counter pm e <= counter (seed_item pm item) e)%N.
Proof.
  unfold seed_item. destruct (parse_placeholder item.1) as [[entity n]|]; [|lia].
  unfold counter at 2. simpl. rewrite counter_insert.
  destruct (decide (entity = e)) as [->|]; lia.
Qed.

Lemma seed_items_counter items pm e :
  (counter pm e <= counter (seed_items items pm) e)%N.
Proof.
  revert pm. induction items as [|item items IH]; intros pm; [simpl; lia|].
  unfold seed_items in *. simpl.
  pose proof (seed_item_counter pm item e). specialize (IH (seed_item pm item)). lia.
Qed.

(** Every well-formed key raises its entity type's counter to its number. *)
Lemma seed_items_counter_ge items pm placeholder original entity n :
  (placeholder, original) ∈ items ->
  parse_placeholder placeholder = Some (entity, n) ->
  (n <= counter (seed_items items pm) entity)%N.
Proof.
  revert pm. induction items as [|item items IH]; intros pm Hin Hp.
  - by apply elem_of_nil in Hin.
  - apply elem_of_cons in Hin as [<-|Hin].
    + unfold seed_items. simpl.
      pose proof (seed_items_counter items (seed_item pm (placeholder, original)) entity) as H.
      unfold seed_items in H.
      assert ((n <= counter (seed_item pm (placeholder, original)) entity)%N); [|lia].
      unfold seed_item. simpl. rewrite Hp. unfold counter at 1. simpl.
      rewrite counter_insert, decide_True by done. lia.
    + unfold seed_items. simpl. by apply IH.
Qed.

Lemma seed_item_malformed pm item :
  well_formed item.1 = false -> seed_item pm item = pm.
Proof. intros H%not_well_formed_parse. unfold seed_item. by rewrite H. Qed.

(** Malformed entries leave no mark on the reverse index or the counters. *)
Lemma seed_items_well_formed items pm :
  seed_items items pm = seed_items (well_formed_items items) pm.
Proof.
  revert pm. induction items as [|item items IH]; intros pm; [done|].
  unfold well_formed_items. rewrite filter_cons.
  destruct (well_formed item.1) eqn:E.
  - rewrite decide_True by done. unfold seed_items. simpl. apply IH.
  - rewrite decide_False by congruence. unfold seed_items. simpl.
    rewrite seed_item_malformed by done. apply IH.
Qed.

Lemma seed_items_any_mappings items d1 d2 :
  let pm1 := seed_items items (mkPM d1 ∅ ∅) in
  let pm2 := seed_items items (mkPM d2 ∅ ∅) in
  _pii_to_placeholder pm1 = _pii_to_placeholder pm2 /\
  _entity_counters pm1 = _entity_counters pm2.
Proof.
  simpl. generalize (∅ : gmap (str * str) str) (∅ : gmap str N).
  induction items as [|item items IH]; intros i c; [done|].
  unfold seed_items in *. cbn [fold_left].
  assert (forall d, seed_item (mkPM d i c) item =
                    mkPM d (_pii_to_placeholder (seed_item (mkPM [] i c) item))
                         (_entity_counters (seed_item (mkPM [] i c) item))) as E.
  { intros d. unfold seed_item, counter.
    by destruct (parse_placeholder item.1) as [[e n]|]. }
  rewrite (E d1), (E d2). apply IH.
Qed.

(** After seeding, a pair is bound to the last well-formed key carrying it,
    and to what it was bound before if no key carries it. *)
Lemma seed_items_index items pm entity original :
  (exists placeholder n,
      (placeholder, original) ∈ items /\
      parse_placeholder placeholder = Some (entity, n) /\
      _pii_to_placeholder (seed_items items pm) !! (entity, original) = Some placeholder)
  \/ ((forall placeholder n, (placeholder, original) ∈ items ->
         parse_placeholder placeholder <> Some (entity, n)) /\
      _pii_to_placeholder (seed_items items pm) !! (entity, original)
      = _pii_to_placeholder pm !! (entity, original)).
Proof.
  revert pm. induction items as [|[k v] items IH]; intros pm.
  - right. split; [|done]. intros ? ? H. by apply elem_of_nil in H.
  - unfold seed_items. simpl. fold (seed_items items (seed_item pm (k, v))).
    destruct (IH (seed_item pm (k, v))) as [(p & n & Hin & Hp & Hl)|[Hno Hl]].
    + left. exists p, n. split_and!; [by apply elem_of_cons; right|done|done].
    + rewrite Hl. unfold seed_item. simpl.
      destruct (parse_placeholder k) as [[e n]|] eqn:Hk; simpl.
      * destruct (decide ((e, v) = (entity, original))) as [[= -> ->]|Hne].
        -- left. exists k, n. rewrite lookup_insert_eq.
           split_and!; [by apply elem_of_cons; left|done|done].
        -- right. rewrite lookup_insert_ne by done. split; [|done].
           intros p n' [[= -> ->]|Hin]%elem_of_cons; [|by apply Hno].
           rewrite Hk. intros [= -> ->]. done.
      * right. split; [|done].
        intros p n' [[= -> ->]|Hin]%elem_of_cons; [|by apply Hno].
        by rewrite Hk.
Qed.

(** The last well-formed key that carries a pair is the one the pair is
    bound to. *)
Lemma seed_items_last pre placeholder original post pm entity n :
  parse_placeholder placeholder = Some (entity, n) ->
  (forall other m, (other, original) ∈ post ->
     parse_placeholder other <> Some (entity, m)) ->
  _pii_to_placeholder (seed_items (pre ++ (placeholder, original) :: post) pm)
    !! (entity, original) = Some placeholder.
Proof.
  intros Hp Hpost. unfold seed_items. rewrite fold_left_app. simpl.
  fold (seed_items pre pm).
  fold (seed_items post (seed_item (seed_items pre pm) (placeholder, original))).
  destruct (seed_items_index post (seed_item (seed_items pre pm) (placeholder, original))
              entity original) as [(k & m & Hin & Hk & _)|[_ ->]].
  - by destruct (Hpost k m Hin).
  - unfold seed_item. simpl. rewrite Hp. simpl. apply lookup_insert_eq.
Qed.

(** A freshly minted token differs from every well-formed key whose number
    the counter has reached. *)
Lemma minted_not_seeded pm entity placeholder e n :
  parse_placeholder placeholder = Some (e, n) ->
  (n <= counter pm e)%N ->
  format_placeholder entity (counter pm entity + 1) <> placeholder.
Proof.
  intros Hp Hle Heq. rewrite <- Heq, parse_format in Hp.
  destruct (nonempty entity && forallb is_entity_char entity); [|done].
  injection Hp as -> <-. lia.
Qed.




(* ===================================================================== *)
(** * The orchestrator                                                    *)
(* ===================================================================== *)

Lemma nonempty_true {A} (l : list A) : nonempty l = true <-> l <> [].
Proof. by destruct l. Qed.

Lemma validate_valid presidio_entities :
  all_valid presidio_entities -> validate presidio_entities = ([], inr tt).
Proof.
  intros H. unfold validate. destruct (truthy presidio_entities); [|done].
  replace (filter (fun entity => ¬ entity ∈ PRESIDIO_ENTITIES)
             (default [] presidio_entities)) with (@nil str); [done|].
  symmetry. unfold all_valid in H.
  induction H as [|e l He _ IH]; [done|].
  rewrite filter_cons, decide_False by tauto. done.
Qed.

Lemma validate_invalid entities :
  let invalid := filter (fun entity => ¬ entity ∈ PRESIDIO_ENTITIES) entities in
  invalid <> [] ->
  validate (Some entities)
  = ([LogWarningInvalid invalid; SendAlert invalid], inl (HTTPException 422 invalid)).
Proof.
  intros invalid H. unfold validate.
  destruct entities as [|e l]; [done|]. simpl truthy. cbv iota.
  change (filter _ (default [] (Some (e :: l)))) with invalid.
  destruct invalid; [done|]. done.
Qed.

Lemma validate_not_valid presidio_entities :
  ~ all_valid presidio_entities ->
  exists evs e, validate presidio_entities = (evs, inl e).
Proof.
  intros Hnot.
  destruct presidio_entities as [entities|]; [|exfalso; apply Hnot; constructor].
  eexists _, _. apply validate_invalid. intros E. apply Hnot.
  unfold all_valid. apply Forall_forall. intros e He.
  destruct (decide (e ∈ PRESIDIO_ENTITIES)) as [|Hbad]; [done|].
  assert (e ∈ filter (fun entity => ¬ entity ∈ PRESIDIO_ENTITIES) entities) as Hin
    by (by apply list_elem_of_filter).
  rewrite E in Hin. by apply elem_of_nil in Hin.
Qed.

Lemma address_pass_pure pyap_parse pm sentence effective :
  address_pass pyap_parse pm sentence effective
  = ((if contains effective LOCATION then [PyapParse sentence] else []),
     inr (after_address_pass pyap_parse pm sentence effective)).
Proof.
  unfold address_pass, after_address_pass, AddressMasker_mask.
  destruct (contains effective LOCATION); [|done].
  munfold.
  destruct (address_mask pm sentence (pyap_parse sentence)) as [[t sp] pm'].
  by destruct (nonempty sp).
Qed.

Lemma general_pass_pure analyzer language pm current_text address_spans effective :
  general_pass analyzer language pm current_text address_spans effective
  = (general_pass_events analyzer language current_text effective,
     inr (after_general_pass analyzer language
            (current_text, address_spans, pm, effective))).
Proof.
  unfold general_pass, after_general_pass, general_pass_events, PresidioMasker_mask.
  destruct analyzer, effective; done.
Qed.

(** A run with valid types on a non-empty sentence: its events and result. *)
Lemma mask_sentence_pure pyap_parse sentence analyzer language
    presidio_entities existing_mappings :
  all_valid presidio_entities -> sentence <> [] ->
  mask_sentence pyap_parse sentence analyzer language presidio_entities
    existing_mappings
  = ((LogWarningMalformed <$> malformed_keys (default [] existing_mappings))
     ++ (if contains (effective_entities presidio_entities) LOCATION
         then [PyapParse sentence] else [])
     ++ (let '(current_text, _, _, effective) :=
           after_address_pass pyap_parse (seeded existing_mappings) sentence
             (effective_entities presidio_entities) in
         general_pass_events analyzer language current_text effective),
     inr ((pipeline pyap_parse sentence analyzer language presidio_entities
             existing_mappings).1,
          mappings (pipeline pyap_parse sentence analyzer language
                      presidio_entities existing_mappings).2)).
Proof.
  intros Hvalid Hne. unfold mask_sentence, pipeline.
  erewrite bind_returned by (by apply validate_valid).
  destruct sentence as [|c sentence]; [done|]. cbn [fst snd app].
  erewrite bind_returned by apply PlaceholderManager_init_seeded.
  erewrite bind_returned by apply address_pass_pure.
  cbn [fst snd].
  destruct (after_address_pass _ _ _ _) as [[[t sp] pm1] eff1].
  erewrite bind_returned by apply general_pass_pure.
  cbn [fst snd].
  destruct (after_general_pass _ _ _) as [t2 pm2]. munfold. cbn [fst snd].
  by rewrite app_nil_r.
Qed.

(** With valid types, an empty text returns at once. *)
Lemma mask_sentence_empty_text pyap_parse analyzer language presidio_entities
    existing_mappings :
  all_valid presidio_entities ->
  mask_sentence pyap_parse [] analyzer language presidio_entities existing_mappings
  = ([], inr ([], [])).
Proof.
  intros H. unfold mask_sentence.
  erewrite bind_returned by (by apply validate_valid). done.
Qed.

(** C8. Unknown-type rejection: when the requested list holds a type outside
    [PRESIDIO_ENTITIES], [mask_sentence] raises [HTTPException] with status
    422 and the list of the offending types (the requested types outside the
    enumeration, in request order); the run warns, alerts and stops there:
    no detector is asked, whatever the text, the analyzer and the seed, and
    there is no masked text and no mapping. *)
Theorem unknown_types_rejected
    (pyap_parse : str -> list Address) (sentence : str)
    (analyzer : option AnalyzerEngine) (language : str)
    (entities : list str) (existing_mappings : option dict) :
  (exists entity, entity ∈ entities /\ entity ∉ PRESIDIO_ENTITIES) ->
  let invalid := filter (fun entity => ¬ entity ∈ PRESIDIO_ENTITIES) entities in
  let run := mask_sentence pyap_parse sentence analyzer language (Some entities)
               existing_mappings in
  invalid <> []
  /\ (forall entity, entity ∈ invalid <-> entity ∈ entities /\ entity ∉ PRESIDIO_ENTITIES)
  /\ outcome run = inl (HTTPException 422 invalid)
  /\ events run = [LogWarningInvalid invalid; SendAlert invalid]
  /\ Forall (fun ev => is_detection ev = false) (events run).
Proof.
  intros (e & He & Hne) invalid run.
  assert (forall entity, entity ∈ invalid <-> entity ∈ entities /\ entity ∉ PRESIDIO_ENTITIES)
    as Hin by (intros entity; subst invalid; rewrite list_elem_of_filter; tauto).
  assert (invalid <> []) as Hinv.
  { intros E. assert (e ∈ invalid) as H by by apply Hin. rewrite E in H.
    by apply elem_of_nil in H. }
  assert (run = ([LogWarningInvalid invalid; SendAlert invalid],
                 inl (HTTPException 422 invalid))) as Hrun.
  { subst run. unfold mask_sentence.
    erewrite bind_raised; [done|]. by apply validate_invalid. }
  split_and!; try done; rewrite Hrun; try done.
  simpl. by repeat constructor.
Qed.

(** The request of the specification's example 5. *)
Lemma unknown_types_rejected_witness :
  (exists entity, entity ∈ [lit "PERSON"; lit "BOGUS_TYPE"]
                  /\ entity ∉ PRESIDIO_ENTITIES)
  /\ outcome (mask_sentence (fun _ => []) (lit "some text") None (lit "en")
                (Some [lit "PERSON"; lit "BOGUS_TYPE"]) None)
     = inl (HTTPException 422 [lit "BOGUS_TYPE"]).
Proof.
  assert (exists entity, entity ∈ [lit "PERSON"; lit "BOGUS_TYPE"]
                         /\ entity ∉ PRESIDIO_ENTITIES) as H.
  { exists (lit "BOGUS_TYPE"). split.
    - apply elem_of_cons. right. apply elem_of_cons. by left.
    - apply (bool_decide_unpack (lit "BOGUS_TYPE" ∉ PRESIDIO_ENTITIES)).
      vm_compute. exact I. }
  split; [exact H|].
  exact (proj1 (proj2 (proj2
           (unknown_types_rejected (fun _ => []) (lit "some text") None (lit "en")
              [lit "PERSON"; lit "BOGUS_TYPE"] None H)))).
Defined.

(** An empty text with a request for an unknown type, and a seed: the run
    raises; it does not return the empty text and the empty mapping. *)
Lemma empty_text_unknown_type_counterexample :
  outcome (mask_sentence (fun _ => []) [] None (lit "en")
             (Some [lit "BOGUS_TYPE"])
             (Some [(lit "<PERSON_1>", lit "John Doe")]))
  <> inr ([], []).
Proof. vm_compute. discriminate. Qed.

(** C7 (amended). Empty-input fast path: for an empty text, [mask_sentence]
    returns the empty text and the empty mapping, without echoing the seed
    and without any event, for every seed, analyzer and language and for
    every requested list that is omitted, empty or made of enumerated types
    only. *)
Theorem empty_text_fast_path
    (pyap_parse : str -> list Address) (analyzer : option AnalyzerEngine)
    (language : str) (presidio_entities : option (list str))
    (existing_mappings : option dict) :
  all_valid presidio_entities ->
  mask_sentence pyap_parse [] analyzer language presidio_entities existing_mappings
  = ([], inr ([], [])).
Proof. apply mask_sentence_empty_text. Qed.

Lemma empty_text_fast_path_witness :
  all_valid (Some [lit "PERSON"])
  /\ mask_sentence (fun _ => []) [] None (lit "en") (Some [lit "PERSON"])
       (Some [(lit "<PERSON_1>", lit "John Doe")])
     = ([], inr ([], [])).
Proof.
  assert (all_valid (Some [lit "PERSON"])) as H.
  { apply Forall_cons. split; [|constructor].
    apply (bool_decide_unpack (lit "PERSON" ∈ PRESIDIO_ENTITIES)).
    vm_compute. exact I. }
  split; [exact H|].
  exact (empty_text_fast_path (fun _ => []) None (lit "en") (Some [lit "PERSON"])
           (Some [(lit "<PERSON_1>", lit "John Doe")]) H).
Defined.

(* ===================================================================== *)
(** * The offset-tracked rewrite                                          *)
(* ===================================================================== *)

(** Slices of a text that follows an already rewritten prefix. *)
Lemma slice_shift {A} (done_ rest : list A) lo hi :
  0 <= lo -> lo <= hi -> hi <= len rest ->
  slice_to (done_ ++ rest) (len done_ + lo) = done_ ++ slice_to rest lo /\
  slice (done_ ++ rest) (len done_ + lo) (len done_ + hi) = slice rest lo hi /\
  slice_from (done_ ++ rest) (len done_ + hi) = slice_from rest hi.
Proof.
  intros H1 H2 H3.
  destruct (slice_decompose rest lo hi) as (E & L1 & L2); try lia.
  set (x := slice_to rest lo) in *. set (y := slice rest lo hi) in *.
  set (z := slice_from rest hi) in *.
  pose proof (slice_app3 (done_ ++ x) y z) as H.
  rewrite <- app_assoc, <- E, len_app, L1, L2 in H.
  by replace (len done_ + lo + (hi - lo)) with (len done_ + hi) in H by lia.
Qed.

Lemma slice_from_0 {A} (s : list A) : slice_from s 0 = s.
Proof. pose proof (slice_from_app [] s) as H. by rewrite len_nil in H. Qed.

Lemma ordered_disjoint_range pos spans n :
  ordered_disjoint pos spans n -> pos <= n.
Proof.
  revert pos. induction spans as [|[s e] spans IH]; intros pos; simpl; [done|].
  intros (? & ? & H). apply IH in H. lia.
Qed.

(** The spans of the placeholders do not depend on the text. *)
Lemma address_apply_spans reps offset masked spans :
  (address_apply reps offset masked spans).2
  = spans ++ placed_spans offset (rep_triple <$> reps).
Proof.
  revert offset masked spans.
  induction reps as [|rep reps IH]; intros offset masked spans; simpl.
  - by rewrite app_nil_r.
  - rewrite IH, <- app_assoc. done.
Qed.

(** The address pass loop, started after a rewritten prefix [done_] that
    stands for the first [pos] characters of [text]. *)
Lemma address_apply_spliced reps text pos done_ spans :
  0 <= pos ->
  ordered_disjoint pos (span_of_rep <$> reps) (len text) ->
  (address_apply reps (len done_ - pos) (done_ ++ slice_from text pos) spans).1
  = done_ ++ spliced text pos (rep_triple <$> reps).
Proof.
  revert pos done_ spans.
  induction reps as [|rep reps IH]; intros pos done_ spans Hpos Hord; [done|].
  destruct Hord as (Hs & He & Hord). fold (fmap span_of_rep reps) in Hord.
  pose proof (ordered_disjoint_range _ _ _ Hord) as Hn.
  cbn [address_apply fmap list_fmap rep_triple spliced].
  destruct (slice_of_slice_from text pos (rep_start rep) (rep_end rep))
    as (E1 & E2 & E3); try lia.
  destruct (slice_shift done_ (slice_from text pos)
              (rep_start rep - pos) (rep_end rep - pos)) as (S1 & S2 & S3);
    try lia.
  { rewrite slice_from_len by lia. lia. }
  replace (rep_start rep + (len done_ - pos))
    with (len done_ + (rep_start rep - pos)) by lia.
  replace (rep_end rep + (len done_ - pos))
    with (len done_ + (rep_end rep - pos)) by lia.
  rewrite S1, S3, E1, E3.
  set (done' := done_ ++ slice text pos (rep_start rep) ++ rep_placeholder rep).
  replace (len done_ - pos + (len (rep_placeholder rep) - (rep_end rep - rep_start rep)))
    with (len done' - rep_end rep).
  2:{ subst done'. rewrite !len_app.
      destruct (slice_decompose text pos (rep_start rep)) as (_ & _ & L); lia. }
  replace ((done_ ++ slice text pos (rep_start rep)) ++
             rep_placeholder rep ++ slice_from text (rep_end rep))
    with (done' ++ slice_from text (rep_end rep))
    by (subst done'; by rewrite <- !app_assoc).
  rewrite IH by (done || lia). subst done'. by rewrite <- !app_assoc.
Qed.

(** Length of the rewritten text. *)
Lemma spliced_len text pos reps :
  0 <= pos ->
  ordered_disjoint pos (fst <$> reps) (len text) ->
  len (spliced text pos reps) = len text - pos + total_delta reps.
Proof.
  revert pos. induction reps as [|[[s e] ph] reps IH]; intros pos Hpos Hord.
  - simpl in *. rewrite slice_from_len by lia. lia.
  - destruct Hord as (Hs & He & Hord). fold (fmap (@fst (Z * Z) str) reps) in Hord.
    pose proof (ordered_disjoint_range _ _ _ Hord) as Hn.
    cbn [spliced total_delta]. rewrite !len_app, IH by (done || lia).
    destruct (slice_decompose text pos s) as (_ & _ & L); lia.
Qed.

(** The general pass loop, in the same position. *)
Lemma presidio_apply_spliced chosen text pos done_ pm :
  0 <= pos ->
  ordered_disjoint pos (span_of <$> chosen) (len text) ->
  presidio_apply chosen pm (len done_ - pos) (done_ ++ slice_from text pos)
  = (done_ ++ spliced text pos
       (presidio_triples chosen (placeholders_for pm (presidio_calls text chosen)).1),
     (placeholders_for pm (presidio_calls text chosen)).2).
Proof.
  revert pos done_ pm.
  induction chosen as [|res chosen IH]; intros pos done_ pm Hpos Hord; [done|].
  destruct Hord as (Hs & He & Hord). fold (fmap span_of chosen) in Hord.
  pose proof (ordered_disjoint_range _ _ _ Hord) as Hn.
  cbn [presidio_apply presidio_calls map placeholders_for].
  fold (presidio_calls text chosen).
  destruct (slice_of_slice_from text pos (start res) (end_ res))
    as (E1 & E2 & E3); try lia.
  destruct (slice_shift done_ (slice_from text pos)
              (start res - pos) (end_ res - pos)) as (S1 & S2 & S3); try lia.
  { rewrite slice_from_len by lia. lia. }
  replace (start res + (len done_ - pos)) with (len done_ + (start res - pos)) by lia.
  replace (end_ res + (len done_ - pos)) with (len done_ + (end_ res - pos)) by lia.
  rewrite S1, S2, S3, E1, E2, E3.
  destruct (placeholder_for pm (entity_type res) (slice text (start res) (end_ res)))
    as [placeholder pm1].
  set (done' := done_ ++ slice text pos (start res) ++ placeholder).
  replace (len done_ - pos + (len placeholder - len (slice text (start res) (end_ res))))
    with (len done' - end_ res).
  2:{ subst done'. rewrite !len_app.
      destruct (slice_decompose text pos (start res)) as (_ & _ & L); try lia.
      destruct (slice_decompose text (start res) (end_ res)) as (_ & _ & L'); lia. }
  replace ((done_ ++ slice text pos (start res)) ++
             placeholder ++ slice_from text (end_ res))
    with (done' ++ slice_from text (end_ res))
    by (subst done'; by rewrite <- !app_assoc).
  rewrite IH by (done || lia).
  destruct (placeholders_for pm1 (presidio_calls text chosen)) as [phs pm2].
  subst done'. cbn [fst snd presidio_triples combine map spliced].
  by rewrite <- !app_assoc.
Qed.

Lemma address_mask_unfold pm text addrs :
  address_mask pm text addrs
  = (address_apply (address_applied pm addrs) 0 text [],
     (address_replacements pm addrs).2).
Proof.
  unfold address_mask, address_applied.
  by destruct (address_replacements pm addrs).
Qed.

Lemma address_mask_spliced pm text addrs :
  ordered_disjoint 0 (span_of_rep <$> address_applied pm addrs) (len text) ->
  (address_mask pm text addrs).1.1
  = spliced text 0 (rep_triple <$> address_applied pm addrs).
Proof.
  intros H. rewrite address_mask_unfold. cbn [fst].
  pose proof (address_apply_spliced (address_applied pm addrs) text 0 [] []) as E.
  change (len [] - 0) with 0 in E. rewrite slice_from_0 in E.
  by apply E.
Qed.

Lemma presidio_mask_spliced pm text exclude_spans results :
  let chosen := presidio_chosen pm text exclude_spans results in
  ordered_disjoint 0 (span_of <$> chosen) (len text) ->
  presidio_mask pm text exclude_spans results
  = (spliced text 0
       (presidio_triples chosen (placeholders_for pm (presidio_calls text chosen)).1),
     (placeholders_for pm (presidio_calls text chosen)).2).
Proof.
  intros chosen H. unfold presidio_mask. fold chosen.
  pose proof (presidio_apply_spliced chosen text 0 [] pm) as E.
  change (len [] - 0) with 0 in E. rewrite slice_from_0 in E.
  by apply E.
Qed.

Lemma placeholders_for_length pm calls :
  length (placeholders_for pm calls).1 = length calls.
Proof.
  revert pm. induction calls as [|[e v] calls IH]; intros pm; [done|].
  simpl. destruct (placeholder_for pm e v) as [p pm1].
  specialize (IH pm1). destruct (placeholders_for pm1 calls). simpl in *. lia.
Qed.

Lemma presidio_triples_spans chosen placeholders :
  length placeholders = length chosen ->
  fst <$> presidio_triples chosen placeholders = span_of <$> chosen.
Proof.
  revert placeholders. induction chosen as [|res chosen IH]; intros [|p ps] H;
    try done. simpl in *. f_equal. apply IH. lia.
Qed.

Lemma rep_triple_spans (reps : list Replacement) :
  fst <$> (rep_triple <$> reps) = span_of_rep <$> reps.
Proof. induction reps as [|r reps IH]; [done|]. simpl. by f_equal. Qed.



(* ===================================================================== *)
(** * The merge of spans                                                  *)
(* ===================================================================== *)

Lemma Qopp_le_iff (a b : Q) : (- a <= - b)%Q <-> (b <= a)%Q.
Proof. unfold Qle. simpl. lia. Qed.

Lemma key_le_order a b : key_le a b = true <-> candidate_order a b.
Proof.
  unfold key_le, key_lt, sort_key, candidate_order.
  destruct (Z.eqb_spec (start b) (start a)) as [E1|E1]; simpl.
  - destruct (Z.eqb_spec (- (end_ b - start b)) (- (end_ a - start a))) as [E2|E2]; simpl.
    + rewrite negb_involutive, Qle_bool_iff.
      rewrite Qopp_le_iff. split; [intros H; right; split; [lia|right; split; [lia|done]]|].
      intros [?|[_ [?|[_ ?]]]]; [lia|lia|done].
    + rewrite negb_true_iff, Z.ltb_ge. split.
      * intros H. right. split; [lia|]. left. lia.
      * intros [?|[_ [?|[? _]]]]; lia.
  - rewrite negb_true_iff, Z.ltb_ge. split.
    + intros H. left. lia.
    + intros [?|[? _]]; lia.
Qed.

Lemma key_le_total a b : key_le a b = false -> key_le b a = true.
Proof.
  intros H. apply key_le_order.
  assert (~ candidate_order a b) as N by (rewrite <- key_le_order; congruence).
  unfold candidate_order in *.
  destruct (Z.lt_trichotomy (start a) (start b)) as [?|[E|?]]; [tauto| |by left].
  right. split; [done|].
  destruct (Z.lt_trichotomy (end_ a - start a) (end_ b - start b)) as [?|[E'|?]];
    [by left| |tauto].
  right. split; [done|].
  destruct (Qlt_le_dec (score b) (score a)) as [Hlt|Hle]; [|done].
  apply Qlt_le_weak in Hlt. tauto.
Qed.

Lemma candidate_order_start a b : candidate_order a b -> start a <= start b.
Proof. unfold candidate_order. lia. Qed.

(** The candidates, as the general pass considers them: a rearrangement of
    the analyzer's results, in the tie-break order, hence by start. *)
Lemma candidates_sorted results :
  Permutation (sorted key_le results) results /\
  Sorted candidate_order (sorted key_le results) /\
  StronglySorted (fun a b => start a <= start b) (sorted key_le results).
Proof.
  split; [apply sorted_perm|].
  assert (Sorted candidate_order (sorted key_le results)) as H.
  { eapply Sorted_weaken; [|apply (sorted_Sorted key_le key_le_total)].
    intros a b. apply key_le_order. }
  split; [done|].
  apply Sorted_StronglySorted; [intros a b c; lia|].
  eapply Sorted_weaken; [|exact H]. apply candidate_order_start.
Qed.

Section Select.
Variables (text : str) (keys : list str) (exclude_spans : list (Z * Z)).

Local Abbreviation sel := (select text keys exclude_spans).
Local Abbreviation ok := (passes_guards text keys exclude_spans).

(** One round of the selection loop. *)
Lemma select_cons res results last_end :
  sel (res :: results) last_end =
  if ok res && (last_end <=? start res)
  then res :: sel results (end_ res)
  else sel results last_end.
Proof.
  unfold passes_guards, matched_text. simpl.
  destruct (_overlaps_any _ _ _); [done|].
  destruct (contains keys _); [done|]. simpl.
  by destruct (last_end <=? start res).
Qed.

(** The loop over a list cut in two: the second part starts from the end
    offset of the last span accepted in the first. *)
Lemma select_app pre post last_end :
  sel (pre ++ post) last_end =
  sel pre last_end ++ sel post (last_end_of last_end (sel pre last_end)).
Proof.
  revert last_end. induction pre as [|res pre IH]; intros last_end; [done|].
  rewrite <- app_comm_cons, !select_cons.
  destruct (ok res && (last_end <=? start res)); simpl; by rewrite IH.
Qed.

Lemma select_sublist results last_end : sublist (sel results last_end) results.
Proof.
  revert last_end. induction results as [|res results IH]; intros last_end.
  - constructor.
  - rewrite select_cons. destruct (ok res && (last_end <=? start res)).
    + by apply sublist_skip.
    + by apply sublist_cons.
Qed.

Lemma select_guards results last_end res :
  res ∈ sel results last_end -> ok res = true.
Proof.
  revert last_end. induction results as [|r results IH]; intros last_end.
  - intros H. by apply elem_of_nil in H.
  - rewrite select_cons. destruct (ok r && (last_end <=? start r)) eqn:E.
    + intros [->|H]%elem_of_cons; [|by eapply IH].
      by apply andb_true_iff in E as [? _].
    + apply IH.
Qed.

Lemma select_chained results last_end : chained last_end (sel results last_end).
Proof.
  revert last_end. induction results as [|res results IH]; intros last_end; [done|].
  rewrite select_cons. destruct (ok res && (last_end <=? start res)) eqn:E; [|done].
  apply andb_true_iff in E as [_ E%Z.leb_le]. by split.
Qed.

(** In a list sorted by start, spans chained in this way are pairwise
    apart: each ends before every later one starts. *)
Lemma chained_ends_before accepted last_end :
  chained last_end accepted ->
  StronglySorted (fun a b => start a <= start b) accepted ->
  StronglySorted ends_before accepted /\
  Forall (fun b => last_end <= start b) accepted.
Proof.
  revert last_end.
  induction accepted as [|a accepted IH]; intros last_end Hc Hs.
  - split; constructor.
  - destruct Hc as [Ha Hc]. apply StronglySorted_inv in Hs as [Hs Hall].
    destruct (IH _ Hc Hs) as [IH1 IH2]. split.
    + constructor; [done|].
      destruct accepted as [|b accepted]; [constructor|].
      destruct Hc as [Hb _]. apply Forall_cons. split; [exact Hb|].
      apply Forall_cons in Hall as [Hab _].
      apply StronglySorted_inv in Hs as [_ Hbs].
      eapply Forall_impl; [exact Hbs|]. unfold ends_before. simpl. intros c ?. lia.
    + apply Forall_cons. split; [done|].
      eapply Forall_impl; [exact Hall|]. simpl. intros; lia.
Qed.

Lemma StronglySorted_sublist {A} (R : A -> A -> Prop) (l1 l2 : list A) :
  sublist l1 l2 -> StronglySorted R l2 -> StronglySorted R l1.
Proof.
  induction 1 as [|x l1 l2 Hsub IH|x l1 l2 Hsub IH]; intros Hs; [done| |].
  - apply StronglySorted_inv in Hs as [Hs Hall]. constructor; [by apply IH|].
    eapply Forall_forall. intros y Hy. eapply Forall_forall in Hall; [done|].
    by eapply elem_of_sublist.
  - apply StronglySorted_inv in Hs as [Hs _]. by apply IH.
Qed.

(** A candidate whose start lies before the end of an accepted span that
    precedes it starts before the end of the last accepted span. *)
Lemma starts_inside_last pre last_end a c :
  StronglySorted (fun a b => start a <= start b) (pre ++ [c]) ->
  a ∈ sel pre last_end ->
  start c < end_ a ->
  start c < last_end_of last_end (sel pre last_end).
Proof.
  intros Hs Ha Hc.
  assert (StronglySorted (fun a b => start a <= start b) (sel pre last_end ++ [c]))
    as Hs'.
  { eapply StronglySorted_sublist; [|exact Hs].
    apply sublist_app; [apply select_sublist|done]. }
  pose proof (select_chained pre last_end) as Hch.
  revert Hs' Hch Ha. generalize (sel pre last_end) as acc. clear Hs.
  intros acc. revert last_end.
  induction acc as [|b acc IH]; intros last_end Hs Hch Ha.
  - by apply elem_of_nil in Ha.
  - destruct Hch as [Hb Hch]. simpl in Hs. apply StronglySorted_inv in Hs as [Hs Hall].
    simpl. apply elem_of_cons in Ha as [->|Ha]; [|by apply IH].
    destruct acc as [|d acc]; [done|].
    exfalso. destruct Hch as [Hd _].
    apply StronglySorted_inv in Hs as [_ Hdc].
    rewrite Forall_app, Forall_singleton in Hdc. simpl in Hdc. lia.
Qed.

(** A candidate that fails a guard, or starts before the end of the last
    accepted span, leaves the selection as if it had not been there. *)
Lemma select_dropped pre c post last_end :
  ok c = false \/ start c < last_end_of last_end (sel pre last_end) ->
  sel (pre ++ c :: post) last_end = sel (pre ++ post) last_end.
Proof.
  intros H. rewrite !select_app, select_cons.
  destruct H as [->|H]; [done|].
  rewrite (proj2 (Z.leb_gt _ _) H). by rewrite andb_false_r.
Qed.

Lemma select_accepted pre c post last_end :
  ok c = true -> last_end_of last_end (sel pre last_end) <= start c ->
  sel (pre ++ c :: post) last_end
  = sel pre last_end ++ c :: sel post (end_ c).
Proof.
  intros H1 H2. rewrite select_app, select_cons, H1.
  by rewrite (proj2 (Z.leb_le _ _) H2).
Qed.
End Select.

Lemma ends_before_no_overlap a b :
  ends_before a b -> ~ overlap (start a) (end_ a) (start b) (end_ b).
Proof. unfold ends_before, overlap. lia. Qed.

Lemma StronglySorted_weaken {A} (R S : A -> A -> Prop) (l : list A) :
  (forall a b, R a b -> S a b) -> StronglySorted R l -> StronglySorted S l.
Proof.
  intros HRS. induction 1 as [|x l Hs IH Hx]; constructor; [done|].
  eapply Forall_impl; [exact Hx|]. apply HRS.
Qed.

Lemma StronglySorted_app_l {A} (R : A -> A -> Prop) (l1 l2 : list A) :
  StronglySorted R (l1 ++ l2) -> StronglySorted R l1.
Proof.
  induction l1 as [|x l1 IH]; simpl; [constructor|].
  intros [Hs Hall]%StronglySorted_inv. constructor; [by apply IH|].
  by apply Forall_app in Hall as [? _].
Qed.

(** The spans the general pass keeps are sorted by start and pairwise apart. *)
Lemma presidio_chosen_sorted pm text exclude_spans results :
  let chosen := presidio_chosen pm text exclude_spans results in
  StronglySorted (fun a b => start a <= start b) chosen /\
  StronglySorted ends_before chosen /\
  chained (-1) chosen.
Proof.
  simpl. unfold presidio_chosen.
  destruct (candidates_sorted results) as (_ & _ & Hs).
  assert (StronglySorted (fun a b => start a <= start b)
            (select text (dict_keys (mappings pm)) exclude_spans
               (sorted key_le results) (-1))) as Hs'.
  { eapply StronglySorted_sublist; [apply select_sublist|exact Hs]. }
  split; [done|]. split; [|apply select_chained].
  eapply chained_ends_before; [apply select_chained|done].
Qed.

(** C3. No-overlap merge invariant: whatever the analyzer's results, the
    excluded regions and the known placeholders, the general pass considers
    the results in the order (start ascending, length descending, score
    descending), accepts a candidate that passes the two guards iff its start
    is at or after the end of the last accepted span, and ends with a list of
    spans sorted by start and pairwise disjoint; a candidate that starts
    inside an accepted span is dropped for good: the selection is the one
    made without it. *)
Theorem general_pass_spans_sorted_disjoint
    (pm : PlaceholderManager) (text : str) (exclude_spans : list (Z * Z))
    (results : list RecognizerResult) :
  let keys := dict_keys (mappings pm) in
  let candidates := sorted key_le results in
  let chosen := presidio_chosen pm text exclude_spans results in
  (Permutation candidates results /\ Sorted candidate_order candidates)
  /\ sublist chosen candidates
  /\ (forall pre c post,
        candidates = pre ++ c :: post ->
        let accepted := select text keys exclude_spans pre (-1) in
        chosen =
          if passes_guards text keys exclude_spans c
             && (last_end_of (-1) accepted <=? start c)
          then accepted ++ c :: select text keys exclude_spans post (end_ c)
          else select text keys exclude_spans (pre ++ post) (-1))
  /\ StronglySorted (fun a b => start a <= start b) chosen
  /\ StronglySorted
       (fun a b => end_ a <= start b /\
                   ~ overlap (start a) (end_ a) (start b) (end_ b)) chosen
  /\ (forall pre c post a,
        candidates = pre ++ c :: post ->
        a ∈ select text keys exclude_spans pre (-1) ->
        start c < end_ a ->
        chosen = select text keys exclude_spans (pre ++ post) (-1)).
Proof.
  intros keys candidates chosen.
  destruct (candidates_sorted results) as (Hperm & Hsorted & Hstart).
  destruct (presidio_chosen_sorted pm text exclude_spans results) as (Hs & Hd & _).
  split_and!; try done.
  - apply select_sublist.
  - intros pre c post E accepted. subst chosen. unfold presidio_chosen.
    fold candidates keys. rewrite E.
    destruct (passes_guards text keys exclude_spans c) eqn:Hok; simpl.
    + destruct (Z.leb_spec (last_end_of (-1) accepted) (start c)).
      * by apply select_accepted.
      * apply select_dropped. by right.
    + apply select_dropped. by left.
  - eapply StronglySorted_weaken; [|exact Hd].
    intros a b H. split; [exact H|by apply ends_before_no_overlap].
  - intros pre c post a E Ha Hc. subst chosen. unfold presidio_chosen.
    fold candidates keys. rewrite E. apply select_dropped. right.
    eapply starts_inside_last; [|exact Ha|exact Hc].
    fold candidates in Hstart. rewrite E in Hstart.
    replace (pre ++ c :: post) with ((pre ++ [c]) ++ post) in Hstart
      by (by rewrite <- app_assoc).
    by apply StronglySorted_app_l in Hstart.
Qed.

Lemma passes_guards_placeholder text keys exclude_spans c :
  matched_text text c ∈ keys -> passes_guards text keys exclude_spans c = false.
Proof.
  intros H. unfold passes_guards, contains.
  rewrite (bool_decide_eq_true_2 _ H). apply andb_false_r.
Qed.

(** C4. Idempotency guard of the general pass: a candidate whose matched
    text, [text[start:end]], is a key of the registry's placeholder map is
    never among the spans kept, and the pass runs as if the candidate had not
    been reported, so it is not replaced.  The guard reads the keys only: a
    registry with the same keys keeps the same spans, and a candidate that
    overlaps no excluded span, whose text is no key and that starts at or
    after the end of the last accepted span is kept, also when its text is
    an original value the registry already holds; such a value then gets
    its existing placeholder back, as for the seed
    [{"<PERSON_1>": "John Doe"}] and the text ["John Doe"]. *)
Theorem placeholder_text_discarded
    (pm : PlaceholderManager) (text : str) (exclude_spans : list (Z * Z))
    (results : list RecognizerResult) :
  let keys := dict_keys (mappings pm) in
  let candidates := sorted key_le results in
  let chosen := presidio_chosen pm text exclude_spans results in
  (forall c, c ∈ chosen -> matched_text text c ∉ keys)
  /\ (forall pre c post,
        candidates = pre ++ c :: post ->
        matched_text text c ∈ keys ->
        chosen = select text keys exclude_spans (pre ++ post) (-1)
        /\ presidio_mask pm text exclude_spans results
           = presidio_apply (select text keys exclude_spans (pre ++ post) (-1))
               pm 0 text)
  /\ (forall pm',
        dict_keys (mappings pm') = keys ->
        presidio_chosen pm' text exclude_spans results = chosen)
  /\ (forall pre c post,
        candidates = pre ++ c :: post ->
        _overlaps_any (start c) (end_ c) exclude_spans = false ->
        matched_text text c ∉ keys ->
        last_end_of (-1) (select text keys exclude_spans pre (-1)) <= start c ->
        chosen = select text keys exclude_spans pre (-1)
                   ++ c :: select text keys exclude_spans post (end_ c))
  /\ (let pm0 := seeded (Some [(lit "<PERSON_1>", lit "John Doe")]) in
      let john := mkResult (lit "PERSON") 0 8 (9 # 10) in
      dict_get (mappings pm0) (lit "<PERSON_1>") = Some (matched_text (lit "John Doe") john)
      /\ presidio_chosen pm0 (lit "John Doe") [] [john] = [john]
      /\ presidio_mask pm0 (lit "John Doe") [] [john] = (lit "<PERSON_1>", pm0)).
Proof.
  intros keys candidates chosen. split_and!.
  - intros c Hc Hin. apply select_guards in Hc.
    by rewrite passes_guards_placeholder in Hc.
  - intros pre c post E Hin.
    assert (chosen = select text keys exclude_spans (pre ++ post) (-1)) as Hch.
    { subst chosen. unfold presidio_chosen. fold candidates keys. rewrite E.
      apply select_dropped. left. by apply passes_guards_placeholder. }
    split; [done|]. unfold presidio_mask. fold chosen. by rewrite Hch.
  - intros pm' E. unfold chosen, presidio_chosen. by rewrite E.
  - intros pre c post E Hov Hnk Hle. subst chosen. unfold presidio_chosen.
    fold candidates keys. rewrite E. apply select_accepted; [|done].
    unfold passes_guards, contains. rewrite Hov.
    by rewrite (bool_decide_eq_false_2 _ Hnk).
  - vm_compute. done.
Qed.

(* ===================================================================== *)
(** * The default entity set                                              *)
(* ===================================================================== *)

Lemma placed_spans_length offset reps :
  length (placed_spans offset reps) = length reps.
Proof.
  revert offset. induction reps as [|[[s e] p] reps IH]; intros offset; [done|].
  simpl. by rewrite IH.
Qed.

Lemma address_replacements_length pm addrs :
  length (address_replacements pm addrs).1 = length addrs.
Proof.
  revert pm. induction addrs as [|a addrs IH]; intros pm; [done|]. simpl.
  destruct (placeholder_for pm LOCATION (full_address a)) as [p pm1].
  specialize (IH pm1). destruct (address_replacements pm1 addrs). simpl in *. lia.
Qed.

(** The address pass places one placeholder per match. *)
Lemma address_mask_spans_length pm text addrs :
  length (address_mask pm text addrs).1.2 = length addrs.
Proof.
  rewrite address_mask_unfold. cbn [fst]. rewrite address_apply_spans.
  simpl. rewrite placed_spans_length, length_fmap. unfold address_applied.
  by rewrite sorted_length, address_replacements_length.
Qed.

Lemma nonempty_length {A B} (l : list A) (k : list B) :
  length l = length k -> nonempty l = nonempty k.
Proof. by destruct l, k. Qed.


(* ===================================================================== *)
(** * [str.replace]                                                       *)
(* ===================================================================== *)

Lemma startswith_prefix s old : startswith s old = true <-> old `prefix_of` s.
Proof.
  revert s. induction old as [|c old IH]; intros s.
  - split; [intros _; apply prefix_nil|]. intros _. by destruct s.
  - destruct s as [|d s]; cbn [startswith].
    + split; [done|]. intros [k Hk]. discriminate Hk.
    + case_decide as Hcd.
      * subst d. rewrite IH. split; [apply prefix_cons|apply prefix_cons_inv_2].
      * split; [done|]. intros H. by apply prefix_cons_inv_1 in H.
Qed.

Lemma replace_from_skip old new x r :
  replace_from old new (length x) (x ++ r) = replace_from old new 0 r.
Proof.
  induction x as [|c x IH]; simpl; [|done].
  by destruct r.
Qed.

Lemma replace_nil old new : old <> [] -> replace [] old new = [].
Proof. by destruct old. Qed.

(** At a match, [new] is written and the scan resumes after the match. *)
Lemma replace_match old new r :
  old <> [] -> replace (old ++ r) old new = new ++ replace r old new.
Proof.
  intros Hne. destruct old as [|c old]; [done|]. unfold replace.
  cbn [app replace_from].
  assert (startswith (c :: old ++ r) (c :: old) = true) as ->.
  { apply startswith_prefix. by exists r. }
  f_equal. replace (length (c :: old) - 1)%nat with (length old) by (simpl; lia).
  apply replace_from_skip.
Qed.

(** Where nothing matches, the character is copied. *)
Lemma replace_no_match old new c s :
  old <> [] -> ~ old `prefix_of` (c :: s) ->
  replace (c :: s) old new = c :: replace s old new.
Proof.
  intros Hne Hp. destruct old as [|d old]; [done|]. unfold replace.
  cbn [replace_from].
  destruct (startswith (c :: s) (d :: old)) eqn:E; [|done].
  by apply startswith_prefix in E.
Qed.

Lemma occurs_prefix old s : old `prefix_of` s -> occurs old s.
Proof. intros [r ->]. by exists [], r. Qed.

Lemma occurs_cons old c s : occurs old s -> occurs old (c :: s).
Proof. intros (pre & post & ->). by exists (c :: pre), post. Qed.

Lemma replace_absent s old new :
  old <> [] -> ~ occurs old s -> replace s old new = s.
Proof.
  intros Hne. induction s as [|c s IH]; intros Hno; [by apply replace_nil|].
  rewrite replace_no_match; [|done|].
  - f_equal. apply IH. intros H. by apply Hno, occurs_cons.
  - intros H. by apply Hno, occurs_prefix.
Qed.

Lemma prefix_of_shorter {A} (x y z : list A) :
  x `prefix_of` (y ++ z) -> (length x <= length y)%nat -> x `prefix_of` y.
Proof.
  intros [k Hk] Hlen.
  apply app_eq_app in Hk as [l [[-> ->]|[-> ->]]].
  - by exists l.
  - assert (l = []) as ->
      by (destruct l; [done|]; rewrite length_app in Hlen; simpl in Hlen; lia).
    by rewrite app_nil_r.
Qed.

(** The first occurrence is replaced and the scan resumes after it. *)
Lemma replace_first_occurrence old new pre post :
  old <> [] -> ~ occurs old (pre ++ removelast old) ->
  replace (pre ++ old ++ post) old new = pre ++ new ++ replace post old new.
Proof.
  intros Hne. induction pre as [|c pre IH]; intros Hno.
  - simpl. by apply replace_match.
  - cbn [app]. rewrite replace_no_match; [|done|].
    + f_equal. apply IH. intros H. by apply Hno, occurs_cons.
    + intros [k Hk]. apply Hno, occurs_prefix.
      pose proof (app_removelast_last "000"%char Hne) as E.
      remember (removelast old) as rl eqn:Hrl.
      remember (List.last old "000"%char) as la eqn:Hla.
      apply (prefix_of_shorter _ _ ([la] ++ post)).
      * exists k. rewrite <- Hk, <- app_assoc, (app_assoc rl), <- E. done.
      * rewrite E at 1. rewrite !length_app. simpl. lia.
Qed.

(* ===================================================================== *)
(** * Tokens in angle brackets                                            *)
(* ===================================================================== *)

Lemma is_token_shape t :
  is_token t = true ->
  exists body, t = "<"%char :: body ++ [">"%char] /\ forallb no_angle body = true.
Proof.
  destruct t as [|c rest]; [done|].
  destruct (decide (c = "<"%char)) as [->|Hc].
  - cbn [is_token]. destruct (split_last rest) as [[body l]|] eqn:E; [|done].
    apply split_last_Some in E as ->.
    destruct (decide (l = ">"%char)) as [->|Hl]; [by eauto|].
    destruct l as [[] [] [] [] [] [] [] []]; done.
  - destruct c as [[] [] [] [] [] [] [] []]; done.
Qed.

Lemma is_token_intro body :
  forallb no_angle body = true -> is_token ("<"%char :: body ++ [">"%char]) = true.
Proof. intros H. cbn [is_token]. by rewrite split_last_snoc. Qed.

Lemma is_token_nonempty t : is_token t = true -> t <> [].
Proof. by destruct t. Qed.

Lemma is_token_len t : is_token t = true -> 0 < len t.
Proof. destruct t; [done|]. rewrite len_cons. pose proof (len_nonneg t). lia. Qed.

Lemma no_angle_no_lt c : no_angle c = true -> no_lt c = true.
Proof. unfold no_angle, no_lt. by intros [? _]%andb_true_iff. Qed.

Lemma no_lt_spec c : no_lt c = true <-> c <> "<"%char.
Proof.
  unfold no_lt. rewrite negb_true_iff, bool_decide_eq_false. done.
Qed.

Lemma no_angle_spec c : no_angle c = true <-> c <> "<"%char /\ c <> ">"%char.
Proof.
  unfold no_angle. rewrite andb_true_iff, !negb_true_iff, !bool_decide_eq_false.
  done.
Qed.

(** A token does not start at a character other than ["<"]. *)
Lemma token_not_prefix_char k c s :
  is_token k = true -> no_lt c = true -> ~ k `prefix_of` (c :: s).
Proof.
  intros (body & -> & _)%is_token_shape Hc%no_lt_spec [r Hr].
  injection Hr as -> _. done.
Qed.

(** Two strings without [x] followed by [x]: the strings are the same. *)
Lemma first_mark_unique (x : ascii) (a b r r' : str) :
  Forall (fun c => c <> x) a -> Forall (fun c => c <> x) b ->
  a ++ x :: r = b ++ x :: r' -> a = b.
Proof.
  intros Ha. revert b. induction Ha as [|c a Hc Ha IH]; intros b Hb E.
  - destruct Hb as [|d b Hd Hb]; [done|]. simpl in E. injection E as -> _. done.
  - destruct Hb as [|d b Hd Hb]; simpl in E.
    + injection E as -> _. done.
    + injection E as -> E. f_equal. by apply IH.
Qed.

Lemma no_angle_not_gt body :
  forallb no_angle body = true -> Forall (fun c => c <> ">"%char) body.
Proof.
  intros H. apply Forall_forall. intros c Hc%list_elem_of_In.
  rewrite forallb_forall in H. apply H in Hc. by apply no_angle_spec in Hc as [_ ?].
Qed.

Lemma no_angle_not_lt body :
  forallb no_angle body = true -> Forall (fun c => c <> "<"%char) body.
Proof.
  intros H. apply Forall_forall. intros c Hc%list_elem_of_In.
  rewrite forallb_forall in H. apply H in Hc. by apply no_angle_spec in Hc as [? _].
Qed.

(** A token that starts where another token starts is that token. *)
Lemma token_prefix_token k t r :
  is_token k = true -> is_token t = true -> k `prefix_of` (t ++ r) -> k = t.
Proof.
  intros (kb & -> & Hk)%is_token_shape (tb & -> & Ht)%is_token_shape [r' E].
  simpl in E. injection E as E. rewrite <- !app_assoc in E. simpl in E.
  f_equal. f_equal.
  symmetry. eapply (first_mark_unique ">"%char); [| |exact E];
    by apply no_angle_not_gt.
Qed.

(** Text without ["<"] is copied. *)
Lemma replace_literal k v x r :
  is_token k = true -> forallb no_lt x = true ->
  replace (x ++ r) k v = x ++ replace r k v.
Proof.
  intros Hk. induction x as [|c x IH]; [done|]. simpl.
  intros [Hc Hx]%andb_true_iff.
  rewrite replace_no_match;
    [|by apply is_token_nonempty|by apply token_not_prefix_char].
  f_equal. by apply IH.
Qed.

(** Another token is copied. *)
Lemma replace_other_token k v t r :
  is_token k = true -> is_token t = true -> t <> k ->
  replace (t ++ r) k v = t ++ replace r k v.
Proof.
  intros Hk Ht Hne.
  assert (~ k `prefix_of` (t ++ r)) as Hp.
  { intros H. apply Hne. symmetry. by eapply token_prefix_token. }
  destruct (is_token_shape t Ht) as (tb & -> & Htb).
  cbn [app] in *. rewrite replace_no_match; [|by apply is_token_nonempty|done].
  f_equal. rewrite <- app_assoc. rewrite replace_literal; [|done|].
  - rewrite (replace_literal k v [">"%char] r Hk eq_refl).
    by rewrite <- app_assoc.
  - rewrite forallb_forall in *. intros c Hc. by apply no_angle_no_lt, Htb.
Qed.

(** A token at the start of [t ++ B] is within [A] when it starts in [A]. *)
Lemma token_prefix_within k A t B :
  is_token k = true -> is_token t = true -> A <> [] ->
  k `prefix_of` (A ++ t ++ B) -> k `prefix_of` A.
Proof.
  intros Hk Ht HA [r E].
  apply app_eq_app in E as [l [[-> ->]|[-> E]]]; [by exists l|].
  destruct l as [|c l]; [exists []; by rewrite !app_nil_r|]. exfalso.
  destruct (is_token_shape _ Ht) as (tb & -> & _).
  simpl in E. injection E as <- _.
  destruct (is_token_shape _ Hk) as (kb & Ek & Hkb).
  destruct A as [|a A]; [done|]. simpl in Ek. injection Ek as -> Ek.
  assert (Forall (fun c => c <> "<"%char) (kb ++ [">"%char])) as Hall.
  { apply Forall_app. split; [by apply no_angle_not_lt|]. by repeat constructor. }
  rewrite <- Ek in Hall. apply Forall_app in Hall as [_ Hall].
  apply Forall_cons in Hall as [? _]. done.
Qed.

(** Replacing a token in a text cut before a token: the part before the cut
    and the part from the cut on are rewritten on their own. *)
Lemma replace_before_token k v A t B :
  is_token k = true -> is_token t = true ->
  replace (A ++ t ++ B) k v = replace A k v ++ replace (t ++ B) k v.
Proof.
  intros Hk Ht. pose proof (is_token_nonempty k Hk) as Hne.
  remember (length A) as n eqn:Hn. revert A Hn.
  induction n as [n IH] using lt_wf_ind. intros A Hn.
  destruct A as [|c A]; [by rewrite replace_nil|].
  destruct (startswith ((c :: A) ++ t ++ B) k) eqn:E.
  - apply startswith_prefix in E.
    apply token_prefix_within in E as [A' E]; [|done|done|done].
    rewrite E, <- app_assoc, !replace_match by done.
    rewrite <- app_assoc. f_equal.
    eapply IH; [|reflexivity]. subst n. rewrite E, length_app.
    destruct k; [done|]. simpl. lia.
  - assert (~ k `prefix_of` ((c :: A) ++ t ++ B)) as Hp
      by (rewrite <- startswith_prefix; congruence).
    cbn [app] in *. rewrite !replace_no_match; [|done| |done|done].
    + cbn [app]. f_equal. eapply IH; [|reflexivity]. subst n. simpl. lia.
    + intros [r Hr]. apply Hp. exists (r ++ t ++ B).
      change (c :: A ++ t ++ B) with ((c :: A) ++ t ++ B).
      by rewrite Hr, <- app_assoc.
Qed.

(* ===================================================================== *)
(** * The restorer                                                        *)
(* ===================================================================== *)

Lemma unmask_loop_replace_all mappings keys text :
  unmask_loop mappings keys text = replace_all mappings keys text.
Proof.
  revert text. induction keys as [|k keys IH]; intros text; [done|].
  simpl. apply IH.
Qed.

Lemma keys_longest_first_sorted mappings :
  Permutation (keys_longest_first mappings) (dict_keys mappings) /\
  StronglySorted (fun a b : str => len b <= len a) (keys_longest_first mappings).
Proof.
  split; [apply sorted_perm|].
  apply Sorted_StronglySorted; [intros a b c; lia|].
  eapply Sorted_weaken; [|apply sorted_Sorted].
  - intros a b H. apply Z.leb_le in H. exact H.
  - intros a b H. apply Z.leb_gt in H. apply Z.leb_le. lia.
Qed.

Lemma unmask_sentence_unfold masked_data mappings :
  _unmask_sentence masked_data mappings =
  if nonempty masked_data && nonempty mappings
  then replace_all mappings (keys_longest_first mappings) masked_data
  else masked_data.
Proof.
  unfold _unmask_sentence. destruct masked_data, mappings; try done.
  simpl. apply unmask_loop_replace_all.
Qed.

Lemma replace_all_nil mappings keys :
  Forall (fun k => is_token k = true) keys -> replace_all mappings keys [] = [].
Proof.
  induction 1 as [|k keys Hk _ IH]; [done|].
  simpl. rewrite replace_nil by by apply is_token_nonempty. apply IH.
Qed.

Lemma replace_all_unmapped mappings keys before placeholder after :
  Forall (fun k => is_token k = true) keys ->
  is_token placeholder = true -> placeholder ∉ keys ->
  replace_all mappings keys (before ++ placeholder ++ after)
  = replace_all mappings keys before ++ placeholder
      ++ replace_all mappings keys after.
Proof.
  intros Hkeys Hp. revert before after.
  induction Hkeys as [|k keys Hk _ IH]; intros before after Hnin; [done|].
  apply not_elem_of_cons in Hnin as [Hne Hnin]. simpl.
  rewrite replace_before_token, replace_other_token by done.
  by apply IH.
Qed.

Lemma unmask_sentence_tokens masked_data mappings :
  Forall (fun k => is_token k = true) (dict_keys mappings) ->
  _unmask_sentence masked_data mappings
  = replace_all mappings (keys_longest_first mappings) masked_data.
Proof.
  intros H. rewrite unmask_sentence_unfold.
  destruct masked_data as [|c s].
  - simpl. rewrite replace_all_nil; [done|].
    eapply Permutation_Forall; [|exact H].
    symmetry. apply keys_longest_first_sorted.
  - destruct mappings; done.
Qed.

(** The mapping on which a placeholder without an entry is rewritten: the
    key [PERSON] is part of the text of [<PERSON_2>]. *)
Lemma unmapped_placeholder_counterexample :
  ~ unmapped_placeholders_untouched [(lit "PERSON", lit "x")].
Proof.
  intros H. specialize (H [] (lit "<PERSON_2>") []).
  assert (_unmask_sentence ([] ++ lit "<PERSON_2>" ++ []) [(lit "PERSON", lit "x")]
          = lit "<x_2>") as E by (vm_compute; reflexivity).
  rewrite E in H.
  assert (lit "<x_2>" = lit "<PERSON_2>") as E'.
  { apply H; [vm_compute; reflexivity|].
    apply (bool_decide_unpack (lit "<PERSON_2>" ∉ dict_keys [(lit "PERSON", lit "x")])).
    vm_compute. exact I. }
  vm_compute in E'. discriminate E'.
Qed.

(** C6 (amended). Restorer contract: [_unmask_sentence] returns the text
    unchanged when the text or the mapping is empty; otherwise it takes the
    keys of the mapping longest first and, key after key, replaces every
    literal occurrence of the key in the current text (leftmost first, not
    overlapping) by the key's value.  When every key of the mapping is a
    token in angle brackets, a token in angle brackets that appears in the
    text and has no entry in the mapping is left where it is, verbatim, and
    the text on either side of it is restored on its own. *)
Theorem restorer_contract (masked_data : str) (mappings : dict) :
  let keys := keys_longest_first mappings in
  (Permutation keys (dict_keys mappings)
   /\ StronglySorted (fun a b : str => len b <= len a) keys)
  /\ _unmask_sentence masked_data mappings
     = (if nonempty masked_data && nonempty mappings
        then replace_all mappings keys masked_data
        else masked_data)
  /\ (forall s old new,
        old <> [] ->
        (~ occurs old s -> replace s old new = s)
        /\ (forall pre post,
              s = pre ++ old ++ post ->
              ~ occurs old (pre ++ removelast old) ->
              replace s old new = pre ++ new ++ replace post old new))
  /\ (Forall (fun k => is_token k = true) (dict_keys mappings) ->
      unmapped_placeholders_untouched mappings).
Proof.
  intros keys. split_and!.
  - apply keys_longest_first_sorted.
  - apply keys_longest_first_sorted.
  - apply unmask_sentence_unfold.
  - intros s old new Hne. split; [by apply replace_absent|].
    intros pre post -> Hno. by apply replace_first_occurrence.
  - intros Hkeys before placeholder after Hp Hnin.
    rewrite !unmask_sentence_tokens by done.
    apply replace_all_unmapped; [|done|].
    + eapply Permutation_Forall; [|exact Hkeys].
      symmetry. apply keys_longest_first_sorted.
    + intros Hin. apply Hnin.
      eapply elem_of_Permutation_proper; [|exact Hin].
      symmetry. apply keys_longest_first_sorted.
Qed.

(** The restorer on the specification's example 3 and on the repository's
    test of a placeholder that is not in the mapping. *)
Example restore_examples :
  _unmask_sentence (lit "User: <PERSON_1>, Email: <EMAIL_ADDRESS_1>")
    [(lit "<PERSON_1>", lit "John Doe");
     (lit "<EMAIL_ADDRESS_1>", lit "john.doe@example.com")]
  = lit "User: John Doe, Email: john.doe@example.com"
  /\ _unmask_sentence (lit "Hello <UNKNOWN>") [(lit "<NAME>", lit "Test")]
     = lit "Hello <UNKNOWN>".
Proof. split; vm_compute; reflexivity. Qed.

(* ===================================================================== *)
(** * Masked texts                                                        *)
(* ===================================================================== *)

Section Masked.
Variable tok : str -> str -> Prop.

Lemma Masked_pos p q m spans o : p = q -> Masked tok p m spans o -> Masked tok q m spans o.
Proof. by intros ->. Qed.

Lemma Masked_app_literal p x m spans o :
  forallb no_lt x = true ->
  Masked tok (p + len x) m spans o ->
  Masked tok p (x ++ m) spans (x ++ o).
Proof.
  revert p. induction x as [|c x IH]; intros p Hx H.
  - eapply Masked_pos; [|exact H]. rewrite len_nil. lia.
  - simpl in Hx. apply andb_true_iff in Hx as [Hc Hx].
    simpl. apply Masked_char; [done|]. apply IH; [done|].
    eapply Masked_pos; [|exact H]. rewrite len_cons. lia.
Qed.

Lemma Masked_literal p x : forallb no_lt x = true -> Masked tok p x [] x.
Proof.
  intros Hx. rewrite <- (app_nil_r x). apply Masked_app_literal; [done|].
  constructor.
Qed.

Lemma Masked_app p m1 spans1 o1 m2 spans2 o2 :
  Masked tok p m1 spans1 o1 ->
  Masked tok (p + len m1) m2 spans2 o2 ->
  Masked tok p (m1 ++ m2) (spans1 ++ spans2) (o1 ++ o2).
Proof.
  induction 1 as [p|p c m spans o Hc H IH|p t v m spans o Ht H IH]; intros H2.
  - eapply Masked_pos; [|exact H2]. rewrite len_nil. lia.
  - simpl. apply Masked_char; [done|]. apply IH.
    eapply Masked_pos; [|exact H2]. rewrite len_cons. lia.
  - rewrite <- !app_assoc. simpl. apply Masked_token; [done|]. apply IH.
    eapply Masked_pos; [|exact H2]. rewrite len_app. lia.
Qed.

(** The same text read at another offset. *)
Lemma Masked_shift p m spans o q :
  Masked tok p m spans o -> exists spans', Masked tok q m spans' o.
Proof.
  intros H. revert q.
  induction H as [p|p c m spans o Hc H IH|p t v m spans o Ht H IH]; intros q.
  - exists []. constructor.
  - destruct (IH (q + 1)) as [spans' H']. exists spans'. by constructor.
  - destruct (IH (q + len t)) as [spans' H']. eexists. by constructor.
Qed.

(** Without tokens, the text is its own original and holds no ["<"]. *)
Lemma Masked_no_spans p m o :
  Masked tok p m [] o -> m = o /\ forallb no_lt m = true.
Proof.
  remember [] as spans eqn:E.
  induction 1 as [p|p c m spans o Hc H IH|p t v m spans o Ht H IH]; [done| |done].
  destruct (IH E) as [-> Hm]. split; [done|]. simpl. by rewrite Hc.
Qed.

Hypothesis tok_nonempty : forall t v, tok t v -> 0 < len t.

(** Every token span is a non-empty stretch of the text. *)
Lemma Masked_spans_within p m spans o :
  Masked tok p m spans o ->
  Forall (fun span => p <= span.1 /\ span.1 < span.2 /\ span.2 <= p + len m) spans.
Proof using tok_nonempty.
  induction 1 as [p|p c m spans o Hc H IH|p t v m spans o Ht H IH].
  - constructor.
  - eapply Forall_impl; [exact IH|]. intros [a b]. simpl. rewrite len_cons. lia.
  - pose proof (tok_nonempty _ _ Ht). pose proof (len_nonneg m).
    constructor; [simpl; rewrite len_app; lia|].
    eapply Forall_impl; [exact IH|]. intros [a b]. simpl. rewrite len_app. lia.
Qed.

(** A masked text cut at an offset that is not inside a token. *)
Lemma Masked_split p m spans o k :
  Masked tok p m spans o ->
  0 <= k <= len m ->
  (forall a b, (a, b) ∈ spans -> ~ (a < p + k < b)) ->
  exists m1 m2 spans1 spans2 o1 o2,
    m = m1 ++ m2 /\ len m1 = k /\ spans = spans1 ++ spans2 /\ o = o1 ++ o2 /\
    Masked tok p m1 spans1 o1 /\ Masked tok (p + k) m2 spans2 o2.
Proof using tok_nonempty.
  intros H. revert k.
  induction H as [p|p c m spans o Hc H IH|p t v m spans o Ht H IH]; intros k Hk Hin.
  - change (len []) with 0 in Hk. exists [], [], [], [], [], [].
    split_and!; try done; [unfold len; simpl; lia|constructor|constructor].
  - destruct (decide (k = 0)) as [->|Hk0].
    + exists [], (c :: m), [], spans, [], (c :: o).
      split_and!; try done; [constructor|].
      eapply Masked_pos; [|by apply Masked_char]. lia.
    + rewrite len_cons in Hk.
      destruct (IH (k - 1)) as (m1 & m2 & s1 & s2 & o1 & o2 & -> & L & -> & -> & H1 & H2).
      { lia. }
      { intros a b Hab. specialize (Hin a b Hab). lia. }
      exists (c :: m1), m2, s1, s2, (c :: o1), o2.
      split_and!; try done.
      * rewrite len_cons. lia.
      * by apply Masked_char.
      * eapply Masked_pos; [|exact H2]. lia.
  - destruct (decide (k = 0)) as [->|Hk0].
    + exists [], (t ++ m), [], ((p, p + len t) :: spans), [], (v ++ o).
      split_and!; try done; [constructor|].
      eapply Masked_pos; [|by apply Masked_token]. lia.
    + rewrite len_app in Hk. pose proof (tok_nonempty _ _ Ht) as Hlen.
      assert (len t <= k) as Hge.
      { specialize (Hin p (p + len t)). 
        assert ((p, p + len t) ∈ (p, p + len t) :: spans) as Hel by (apply elem_of_cons; by left).
        specialize (Hin Hel). lia. }
      destruct (IH (k - len t)) as (m1 & m2 & s1 & s2 & o1 & o2 & -> & L & -> & -> & H1 & H2).
      { lia. }
      { intros a b Hab. 
        assert ((a, b) ∈ (p, p + len t) :: spans) as Hel by (apply elem_of_cons; by right).
        specialize (Hin a b Hel). lia. }
      exists (t ++ m1), m2, ((p, p + len t) :: s1), s2, (v ++ o1), o2.
      split_and!; try done.
      * by rewrite app_assoc.
      * rewrite len_app. lia.
      * by rewrite app_assoc.
      * by apply Masked_token.
      * eapply Masked_pos; [|exact H2]. lia.
Qed.
End Masked.

Lemma Masked_mono (tok tok' : str -> str -> Prop) p m spans o :
  (forall t v, tok t v -> tok' t v) ->
  Masked tok p m spans o -> Masked tok' p m spans o.
Proof.
  intros Hsub. induction 1; constructor; auto.
Qed.

Lemma no_lt_slice (text : str) lo hi :
  forallb no_lt text = true -> forallb no_lt (slice text lo hi) = true.
Proof.
  intros H. apply forallb_forall. intros c Hc. rewrite forallb_forall in H.
  apply H. unfold slice in Hc.
  apply list_elem_of_In in Hc. apply list_elem_of_In.
  eapply elem_of_sublist; [exact Hc|].
  etrans; [apply sublist_take|apply sublist_drop].
Qed.

Lemma slice_from_split {A} (s : list A) pos lo hi :
  0 <= pos -> pos <= lo -> lo <= hi -> hi <= len s ->
  slice_from s pos = slice s pos lo ++ slice s lo hi ++ slice_from s hi.
Proof.
  intros H1 H2 H3 H4.
  destruct (slice_of_slice_from s pos lo hi) as (E1 & E2 & E3); try lia.
  destruct (slice_decompose (slice_from s pos) (lo - pos) (hi - pos)) as (E & _);
    try lia.
  { rewrite slice_from_len by lia. lia. }
  by rewrite E1, E2, E3 in E.
Qed.

(** A cut of a suffix of the text is made of slices of the text. *)
Lemma slice_from_cut {A} (s : list A) pos lo (x y : list A) :
  0 <= pos -> pos <= lo -> lo <= len s ->
  slice_from s pos = x ++ y -> len x = lo - pos ->
  x = slice s pos lo /\ y = slice_from s lo.
Proof.
  intros H1 H2 H3 E L.
  destruct (slice_of_slice_from s pos lo lo) as (E1 & _ & E3); try lia.
  rewrite E in E1, E3. rewrite <- L in E1, E3.
  rewrite slice_to_app in E1. rewrite slice_from_app in E3. done.
Qed.

(** The address pass: a text without ["<"] whose spans are replaced by tokens
    standing for the text they cover. *)
Lemma Masked_spliced tok text pos off triples :
  0 <= pos ->
  forallb no_lt text = true ->
  ordered_disjoint pos (fst <$> triples) (len text) ->
  Forall (fun '(s, e, placeholder) => tok placeholder (slice text s e)) triples ->
  Masked tok (pos + off) (spliced text pos triples) (placed_spans off triples)
    (slice_from text pos).
Proof.
  intros Hpos Htext. revert pos off Hpos.
  induction triples as [|[[s e] ph] triples IH]; intros pos off Hpos Hord Htok.
  - simpl. apply Masked_literal. by apply no_lt_slice.
  - destruct Hord as (Hs & He & Hord). fold (fmap (@fst (Z * Z) str) triples) in Hord.
    pose proof (ordered_disjoint_range _ _ _ Hord) as Hn.
    apply Forall_cons in Htok as [Hph Htok].
    rewrite (slice_from_split text pos s e) by lia.
    cbn [spliced placed_spans].
    destruct (slice_decompose text pos s) as (_ & _ & L); try lia.
    apply Masked_app_literal; [by apply no_lt_slice|].
    eapply Masked_pos; [|apply Masked_token; [exact Hph|]].
    { rewrite L. lia. }
    replace (pos + off + len (slice text pos s)) with (s + off) by lia.
    eapply Masked_pos; [|apply (IH e (off + (len ph - (e - s)))); try done; lia].
    lia.
Qed.

(** The general pass: spans of a masked text that overlap no token are
    replaced by tokens standing for the text they cover. *)
Lemma Masked_respliced tok text triples :
  (forall t v, tok t v -> 0 < len t) ->
  forall pos spans o q,
    0 <= pos ->
    Masked tok pos (slice_from text pos) spans o ->
    ordered_disjoint pos (fst <$> triples) (len text) ->
    Forall (fun '(s, e, placeholder) =>
              s < e /\
              (forall a b, (a, b) ∈ spans -> ~ overlap s e a b) /\
              (forallb no_lt (slice text s e) = true ->
               tok placeholder (slice text s e))) triples ->
    exists spans', Masked tok q (spliced text pos triples) spans' o.
Proof.
  intros Hne.
  induction triples as [|[[s e] ph] triples IH]; intros pos spans o q Hpos HM Hord Htok.
  - simpl. by eapply Masked_shift.
  - destruct Hord as (Hs & He & Hord). fold (fmap (@fst (Z * Z) str) triples) in Hord.
    pose proof (ordered_disjoint_range _ _ _ Hord) as Hn.
    apply Forall_cons in Htok as [(Hse & Hno & Hph) Htok].
    (* cut at [s] *)
    destruct (Masked_split tok Hne pos _ spans o (s - pos) HM)
      as (m1 & m2 & sp1 & sp2 & o1 & o2 & E & L & -> & -> & H1 & H2).
    { rewrite slice_from_len by lia. lia. }
    { intros a b Hab Hin. apply (Hno a b Hab). unfold overlap. lia. }
    destruct (slice_from_cut text pos s m1 m2) as [-> ->]; try done; try lia.
    replace (pos + (s - pos)) with s in H2 by lia.
    (* cut at [e] *)
    destruct (Masked_split tok Hne s _ sp2 o2 (e - s) H2)
      as (m3 & m4 & sp3 & sp4 & o3 & o4 & E' & L' & -> & -> & H3 & H4).
    { rewrite slice_from_len by lia. lia. }
    { intros a b Hab Hin. apply (Hno a b).
      - apply elem_of_app. by right.
      - unfold overlap. lia. }
    destruct (slice_from_cut text s e m3 m4) as [-> ->]; try done; try lia.
    replace (s + (e - s)) with e in H4 by lia.
    (* no token between [s] and [e] *)
    assert (sp3 = []) as ->.
    { pose proof (Masked_spans_within tok Hne _ _ _ _ H3) as Hw.
      destruct sp3 as [|[a b] sp3]; [done|]. exfalso.
      apply Forall_cons in Hw as [Hw _]. simpl in Hw.
      apply (Hno a b).
      - apply elem_of_app. right. apply elem_of_app. left. apply elem_of_cons. by left.
      - unfold overlap. rewrite L' in Hw. lia. }
    apply Masked_no_spans in H3 as [<- Hlit].
    specialize (Hph Hlit).
    (* the rest *)
    destruct (IH e sp4 o4 (q + len (slice text pos s) + len ph)) as [sp' H'];
      try done; try lia.
    { eapply Forall_impl; [exact Htok|]. intros [[s' e'] ph'] (? & Hno' & ?).
      split_and!; try done. intros a b Hab. apply Hno'.
      apply elem_of_app. right. apply elem_of_app. by right. }
    destruct (Masked_shift tok _ _ _ _ q H1) as [sp1' H1'].
    eexists. cbn [spliced].
    eapply Masked_app; [exact H1'|].
    apply Masked_token; [exact Hph|]. exact H'.
Qed.

(* ===================================================================== *)
(** * Restoring a masked text                                             *)
(* ===================================================================== *)

Lemma replace_Masked (tok : str -> str -> Prop) k v :
  is_token k = true ->
  (forall t v', tok t v' -> is_token t = true) ->
  (forall v', tok k v' -> v' = v /\ forallb no_lt v = true) ->
  forall p m spans o,
    Masked tok p m spans o ->
    forall q, exists spans',
      Masked (fun t v' => tok t v' /\ t <> k) q (replace m k v) spans' o.
Proof.
  intros Hk Htok Hfun p m spans o H.
  induction H as [p|p c m spans o Hc H IH|p t v0 m spans o Ht H IH]; intros q.
  - exists []. rewrite replace_nil by by apply is_token_nonempty. constructor.
  - destruct (IH (q + 1)) as [spans' H'].
    exists spans'. change (c :: m) with ([c] ++ m).
    rewrite replace_literal; [|done|by simpl; rewrite Hc].
    by apply Masked_char.
  - destruct (decide (t = k)) as [->|Hne].
    + destruct (Hfun _ Ht) as [-> Hv].
      destruct (IH (q + len v)) as [spans' H'].
      exists spans'. rewrite replace_match by by apply is_token_nonempty.
      by apply Masked_app_literal.
    + destruct (IH (q + len t)) as [spans' H'].
      eexists. rewrite replace_other_token; [|done|by eapply Htok|done].
      by apply Masked_token.
Qed.

Lemma Masked_no_tokens (tok : str -> str -> Prop) p m spans o :
  (forall t v, ~ tok t v) -> Masked tok p m spans o -> m = o.
Proof.
  intros Hno. induction 1 as [p|p c m spans o Hc H IH|p t v m spans o Ht H IH];
    [done|by f_equal|]. by destruct (Hno _ _ Ht).
Qed.

Lemma dict_get_key d k v : dict_get d k = Some v -> k ∈ dict_keys d.
Proof.
  induction d as [|[k' v'] d IH]; [done|]. simpl.
  case_decide as E.
  - intros _. apply elem_of_cons. by left.
  - intros H. apply elem_of_cons. right. by apply IH.
Qed.

(** Replacing the keys one after the other removes their tokens. *)
Lemma replace_all_Masked d keys :
  Forall (fun k => is_token k = true) keys ->
  forall removed p m spans o,
    Masked (token_without d removed) p m spans o ->
    exists spans', Masked (token_without d (removed ++ keys)) p
                     (replace_all d keys m) spans' o.
Proof.
  induction 1 as [|k keys Hk _ IH]; intros removed p m spans o H.
  - exists spans. simpl. by rewrite app_nil_r.
  - change (replace_all d (k :: keys) m)
      with (replace_all d keys (replace m k (default [] (dict_get d k)))).
    destruct (replace_Masked (token_without d removed) k
                (default [] (dict_get d k)) Hk) with (p := p) (m := m)
                (spans := spans) (o := o) (q := p) as [spans1 H1]; try done.
    + by intros t v' [(? & _) _].
    + intros v' [(_ & Hget & Hv) _]. rewrite Hget. done.
    + destruct (IH (removed ++ [k]) p (replace m k (default [] (dict_get d k)))
                  spans1 o) as [spans2 H2].
      * eapply Masked_mono; [|exact H1]. intros t v' [[Ht Hnin] Hne].
        split; [done|]. rewrite elem_of_app, list_elem_of_singleton. tauto.
      * exists spans2. by rewrite <- app_assoc in H2.
Qed.

(** The restorer gives back the original of a masked text whose tokens are
    keys of the mapping, when every key of the mapping is a token. *)
Lemma unmask_Masked d p m spans o :
  Forall (fun k => is_token k = true) (dict_keys d) ->
  Masked (token_of d) p m spans o ->
  _unmask_sentence m d = o.
Proof.
  intros Hkeys H. rewrite unmask_sentence_tokens by done.
  destruct (keys_longest_first_sorted d) as [Hperm _].
  destruct (replace_all_Masked d (keys_longest_first d)) with
    (removed := @nil str) (p := p) (m := m) (spans := spans) (o := o)
    as [spans' H'].
  - eapply Permutation_Forall; [|exact Hkeys]. by symmetry.
  - eapply Masked_mono; [|exact H]. intros t v Ht. split; [done|].
    apply not_elem_of_nil.
  - eapply Masked_no_tokens; [|exact H'].
    intros t v [(_ & Hget & _) Hnin]. apply Hnin. simpl.
    rewrite Hperm. by eapply dict_get_key.
Qed.

(* ===================================================================== *)
(** * The dictionary                                                      *)
(* ===================================================================== *)

Lemma dict_get_set_eq d k v : dict_get (dict_set d k v) k = Some v.
Proof.
  induction d as [|[k' v'] d IH]; simpl.
  - by rewrite decide_True.
  - case_decide as E; simpl; [by rewrite decide_True|by rewrite decide_False].
Qed.

Lemma dict_get_set_ne d k v k' :
  k' <> k -> dict_get (dict_set d k v) k' = dict_get d k'.
Proof.
  intros Hne. induction d as [|[k0 v0] d IH]; simpl.
  - by rewrite decide_False.
  - case_decide as E; simpl.
    + subst k0. by rewrite !decide_False.
    + case_decide; [done|apply IH].
Qed.

Lemma dict_keys_set d k v x :
  x ∈ dict_keys (dict_set d k v) <-> x = k \/ x ∈ dict_keys d.
Proof.
  induction d as [|[k0 v0] d IH]; simpl.
  - rewrite list_elem_of_singleton, elem_of_nil. tauto.
  - case_decide as E; simpl.
    + subst k0. rewrite !elem_of_cons. tauto.
    + rewrite !elem_of_cons, IH. tauto.
Qed.

Lemma dict_get_None d k : k ∉ dict_keys d -> dict_get d k = None.
Proof.
  intros H. destruct (dict_get d k) eqn:E; [|done].
  by apply dict_get_key in E.
Qed.

Lemma dict_get_in d k v : dict_wf d -> (k, v) ∈ d -> dict_get d k = Some v.
Proof.
  unfold dict_wf, dict_keys. induction d as [|[k0 v0] d IH]; simpl.
  - intros _ H. by apply elem_of_nil in H.
  - intros [Hnin Hnd]%NoDup_cons [[= -> ->]|Hin]%elem_of_cons.
    + by rewrite decide_True.
    + rewrite decide_False; [by apply IH|].
      intros ->. apply Hnin. apply list_elem_of_fmap. by exists (k, v).
Qed.

(* ===================================================================== *)
(** * Placeholders are tokens                                             *)
(* ===================================================================== *)

Lemma is_digit_no_angle c : is_digit c = true -> no_angle c = true.
Proof. destruct c as [[] [] [] [] [] [] [] []]; vm_compute; congruence. Qed.

Lemma is_entity_char_no_angle c : is_entity_char c = true -> no_angle c = true.
Proof. destruct c as [[] [] [] [] [] [] [] []]; vm_compute; congruence. Qed.

Lemma forallb_impl {A} (f g : A -> bool) (l : list A) :
  (forall x, f x = true -> g x = true) -> forallb f l = true -> forallb g l = true.
Proof.
  intros H. rewrite !forallb_forall. intros Hf x Hx. by apply H, Hf.
Qed.

Lemma format_placeholder_token entity n :
  plain_entity entity -> is_token (format_placeholder entity n) = true.
Proof.
  intros He. unfold format_placeholder.
  replace (entity ++ "_"%char :: format_int n ++ [">"%char])
    with ((entity ++ "_"%char :: format_int n) ++ [">"%char])
    by (by rewrite <- app_assoc).
  apply is_token_intro. rewrite forallb_app, He. simpl.
  apply (forallb_impl is_digit); [apply is_digit_no_angle|apply format_int_digits].
Qed.

Lemma well_formed_token k : well_formed k = true -> is_token k = true.
Proof.
  unfold well_formed. rewrite bool_decide_eq_true. intros [[e ds] H].
  unfold placeholder_fullmatch in H.
  destruct k as [|c rest]; [done|].
  destruct (decide (c = "<"%char)) as [->|Hc];
    [|destruct c as [[] [] [] [] [] [] [] []]; done].
  destruct (split_last rest) as [[inner l]|] eqn:E; [|done].
  apply split_last_Some in E as ->.
  destruct (decide (l = ">"%char)) as [->|Hl];
    [|destruct l as [[] [] [] [] [] [] [] []]; done].
  destruct (rsplit_underscore inner) as [[e' ds']|] eqn:E'; [|done].
  apply rsplit_underscore_Some in E' as ->.
  destruct (nonempty e' && forallb is_entity_char e' && nonempty ds'
            && forallb is_digit ds') eqn:C; [|done].
  repeat (apply andb_true_iff in C as [C ?]).
  apply is_token_intro. rewrite forallb_app. simpl.
  rewrite (forallb_impl is_entity_char no_angle e' is_entity_char_no_angle) by done.
  by rewrite (forallb_impl is_digit no_angle ds' is_digit_no_angle).
Qed.

Lemma format_placeholder_inj e n e' n' :
  format_placeholder e n = format_placeholder e' n' -> e = e' /\ n = n'.
Proof.
  unfold format_placeholder. intros [= E].
  assert (Forall (fun c => c <> "_"%char) (format_int n ++ [">"%char])) as H1.
  { apply Forall_app. split; [apply digits_no_underscore, format_int_digits|].
    by repeat constructor. }
  assert (Forall (fun c => c <> "_"%char) (format_int n' ++ [">"%char])) as H2.
  { apply Forall_app. split; [apply digits_no_underscore, format_int_digits|].
    by repeat constructor. }
  pose proof (rsplit_underscore_app e _ H1) as R1.
  pose proof (rsplit_underscore_app e' _ H2) as R2.
  rewrite E, R2 in R1. injection R1 as -> R1.
  apply app_inv_tail in R1.
  split; [done|].
  pose proof (int_format_int n) as I1. rewrite <- R1, int_format_int in I1.
  by injection I1.
Qed.

(* ===================================================================== *)
(** * The invariant of the registry                                       *)
(* ===================================================================== *)

Lemma registry_extends_refl pm : registry_extends pm pm.
Proof. by intros k v. Qed.

Lemma registry_extends_trans pm1 pm2 pm3 :
  registry_extends pm1 pm2 -> registry_extends pm2 pm3 -> registry_extends pm1 pm3.
Proof. intros H1 H2 k v H. by apply H2, H1. Qed.

Lemma counter_after_insert d i pm entity n e :
  counter (mkPM d i (<[entity := n]> (_entity_counters pm))) e
  = if decide (entity = e) then n else counter pm e.
Proof. apply counter_insert. Qed.

(** One call keeps the invariant and answers a token bound to the value. *)
Lemma placeholder_for_ok pm entity value :
  registry_ok pm -> plain_entity entity ->
  let r := placeholder_for pm entity value in
  registry_ok r.2 /\ registry_extends pm r.2 /\
  is_token r.1 = true /\ dict_get (_placeholder_to_pii r.2) r.1 = Some value.
Proof.
  intros [Hk Hi Hc] He. unfold placeholder_for.
  destruct (_pii_to_placeholder pm !! (entity, value)) as [p|] eqn:E; simpl.
  - split_and!; [done|apply registry_extends_refl| |by eapply Hi].
    pose proof (Hi _ _ _ E) as Hg. apply dict_get_key in Hg.
    rewrite Forall_forall in Hk. by apply Hk.
  - set (p := format_placeholder entity (counter pm entity + 1)).
    assert (p ∉ dict_keys (_placeholder_to_pii pm)) as Hfresh.
    { intros Hin. apply Hc in Hin. lia. }
    assert (is_token p = true) as Hp by by apply format_placeholder_token.
    split_and!; [split; simpl| | |].
    + apply Forall_forall. intros k [->|Hin]%dict_keys_set; [done|].
      rewrite Forall_forall in Hk. by apply Hk.
    + intros e v q. rewrite lookup_insert. case_decide as Eq.
      * injection Eq as <- <-. intros [= <-]. apply dict_get_set_eq.
      * intros Hq. pose proof (Hi _ _ _ Hq) as Hg.
        rewrite dict_get_set_ne; [done|]. intros ->.
        by apply dict_get_key in Hg.
    + intros e n [Heq|Hin]%dict_keys_set.
      * apply format_placeholder_inj in Heq as [-> ->].
        rewrite counter_after_insert, decide_True by done. lia.
      * apply Hc in Hin. rewrite counter_after_insert.
        case_decide; [subst; lia|done].
    + intros k v Hg. simpl. rewrite dict_get_set_ne; [done|]. intros ->.
      by apply dict_get_key in Hg.
    + done.
    + apply dict_get_set_eq.
Qed.

(** So does a sequence of calls. *)
Lemma placeholders_for_ok pm calls :
  registry_ok pm -> Forall (fun call => plain_entity call.1) calls ->
  let r := placeholders_for pm calls in
  registry_ok r.2 /\ registry_extends pm r.2 /\
  Forall2 (fun placeholder call =>
             is_token placeholder = true /\
             dict_get (_placeholder_to_pii r.2) placeholder = Some call.2)
          r.1 calls.
Proof.
  revert pm. induction calls as [|[e v] calls IH]; intros pm Hok Hcalls.
  - simpl. split_and!; [done|apply registry_extends_refl|constructor].
  - apply Forall_cons in Hcalls as [He Hcalls]. simpl in He.
    destruct (placeholder_for_ok pm e v Hok He) as (Hok1 & Hext1 & Htok & Hget).
    cbn [placeholders_for].
    destruct (placeholder_for pm e v) as [p pm1]. simpl in *.
    destruct (IH pm1 Hok1 Hcalls) as (Hok2 & Hext2 & Hall).
    destruct (placeholders_for pm1 calls) as [ps pm2]. simpl in *.
    split_and!; [done|by eapply registry_extends_trans|].
    constructor; [|done]. split; [done|]. by apply Hext2.
Qed.

(** A registry seeded from a dictionary of well-formed keys. *)
Lemma seeded_ok existing :
  dict_wf (default [] existing) ->
  Forall (fun k => well_formed k = true) (dict_keys (default [] existing)) ->
  registry_ok (seeded existing).
Proof.
  intros Hwf Hkeys. split.
  - change (_placeholder_to_pii (seeded existing)) with (mappings (seeded existing)).
    rewrite seeded_mappings. eapply Forall_impl; [exact Hkeys|].
    intros k. apply well_formed_token.
  - intros e v p Hl.
    change (_placeholder_to_pii (seeded existing)) with (mappings (seeded existing)).
    rewrite seeded_mappings. unfold seeded in Hl.
    destruct (seed_items_index (default [] existing) (empty_registry existing) e v)
      as [(k & n & Hin & _ & Hl')|[_ Hl']]; rewrite Hl' in Hl.
    + injection Hl as <-. by apply dict_get_in.
    + simpl in Hl. by rewrite lookup_empty in Hl.
  - intros e n Hin.
    change (_placeholder_to_pii (seeded existing)) with (mappings (seeded existing)) in Hin.
    rewrite seeded_mappings in Hin.
    assert (well_formed (format_placeholder e n) = true) as Hw
      by (rewrite Forall_forall in Hkeys; by apply Hkeys).
    apply well_formed_parse in Hw as [[e' n'] Hp].
    pose proof Hp as Hp'. rewrite parse_format in Hp'.
    destruct (nonempty e && forallb is_entity_char e); [|done].
    injection Hp' as <- <-.
    unfold dict_keys in Hin. apply list_elem_of_fmap in Hin as [[k v] [Hk Hin]].
    simpl in Hk. subst k. unfold seeded. by eapply seed_items_counter_ge.
Qed.

(* ===================================================================== *)
(** * The two passes keep the text restorable                             *)
(* ===================================================================== *)

Lemma token_of_nonempty d t v : token_of d t v -> 0 < len t.
Proof. intros (Ht & _). by apply is_token_len. Qed.

Lemma token_of_extends pm pm' t v :
  registry_extends pm pm' ->
  token_of (_placeholder_to_pii pm) t v -> token_of (_placeholder_to_pii pm') t v.
Proof. intros Hext (? & ? & ?). split_and!; try done. by apply Hext. Qed.

(** The replacements of the address pass, from the registry's answers. *)
Lemma address_replacements_calls pm addrs :
  let r := placeholders_for pm (address_calls addrs) in
  (address_replacements pm addrs).2 = r.2 /\
  rep_triple <$> (address_replacements pm addrs).1 = address_triples addrs r.1 /\
  span_of_rep <$> (address_replacements pm addrs).1 = span_of_address <$> addrs.
Proof.
  revert pm. induction addrs as [|a addrs IH]; intros pm; [done|].
  cbn [address_replacements address_calls map placeholders_for].
  fold (address_calls addrs).
  destruct (placeholder_for pm LOCATION (full_address a)) as [p pm1].
  specialize (IH pm1). simpl in IH. destruct IH as (IH1 & IH2 & IH3).
  destruct (address_replacements pm1 addrs) as [reps pm2].
  destruct (placeholders_for pm1 (address_calls addrs)) as [ps pm2'].
  simpl in *. split_and!; [done| |].
  - unfold address_triples. simpl. fold (address_triples addrs ps).
    by rewrite <- IH2.
  - f_equal. exact IH3.
Qed.

Lemma ordered_disjoint_Sorted reps pos n :
  ordered_disjoint pos (span_of_rep <$> reps) n ->
  Sorted (fun a b => (rep_start a <=? rep_start b) = true) reps.
Proof.
  revert pos. induction reps as [|a reps IH]; intros pos H; [constructor|].
  destruct H as (Hs & He & H). fold (fmap span_of_rep reps) in H.
  constructor; [by eapply IH|].
  destruct reps as [|b reps]; constructor.
  destruct H as (Hb & _). apply Z.leb_le. lia.
Qed.

Lemma address_triples_tokens (tok : str -> str -> Prop) text addrs placeholders :
  forallb no_lt text = true ->
  Forall2 (fun placeholder call =>
             forallb no_lt call.2 = true -> tok placeholder call.2)
          placeholders (address_calls addrs) ->
  Forall (fun a => full_address a = slice text (match_start a) (match_end a)) addrs ->
  Forall (fun '(s, e, placeholder) => tok placeholder (slice text s e))
         (address_triples addrs placeholders).
Proof.
  intros Htext. revert placeholders.
  induction addrs as [|a addrs IH]; intros phs H2 Ha.
  - destruct phs; constructor.
  - destruct phs as [|p phs]; [by apply Forall2_nil_cons_inv in H2|].
    apply Forall2_cons in H2 as [Hp H2]. apply Forall_cons in Ha as [Hfa Ha].
    simpl in Hp. rewrite Hfa in Hp.
    cbn [address_triples combine map]. constructor; [|by apply IH].
    apply Hp. by apply no_lt_slice.
Qed.

Lemma address_triples_spans addrs placeholders :
  length placeholders = length addrs ->
  fst <$> address_triples addrs placeholders = span_of_address <$> addrs.
Proof.
  revert placeholders. induction addrs as [|a addrs IH]; intros [|p ps] H;
    try done. simpl in *. f_equal. apply IH. lia.
Qed.

(** After the address pass the text is a masked text of the sentence. *)
Lemma address_mask_Masked pm sentence addrs :
  registry_ok pm ->
  forallb no_lt sentence = true ->
  ordered_disjoint 0 (span_of_address <$> addrs) (len sentence) ->
  Forall (fun a => full_address a = slice sentence (match_start a) (match_end a))
         addrs ->
  let r := address_mask pm sentence addrs in
  registry_ok r.2 /\
  Masked (token_of (_placeholder_to_pii r.2)) 0 r.1.1 r.1.2 sentence.
Proof.
  intros Hok Htext Hord Hfull.
  destruct (address_replacements_calls pm addrs) as (E2 & E1 & E3).
  destruct (placeholders_for_ok pm (address_calls addrs) Hok) as (Hok' & Hext & Hall).
  { unfold address_calls. apply Forall_forall. intros call Hc.
    apply list_elem_of_In, in_map_iff in Hc as (a & <- & _). simpl. by vm_compute. }
  pose proof (placeholders_for_length pm (address_calls addrs)) as Hlen.
  unfold address_calls in Hlen at 2. rewrite length_map in Hlen.
  assert (address_applied pm addrs = (address_replacements pm addrs).1) as Happ.
  { unfold address_applied. apply sorted_id.
    eapply (ordered_disjoint_Sorted _ 0). rewrite E3. exact Hord. }
  simpl. rewrite address_mask_unfold. cbn [fst snd]. rewrite E2.
  split; [done|].
  assert (ordered_disjoint 0 (span_of_rep <$> address_applied pm addrs) (len sentence))
    as Hord' by (by rewrite Happ, E3).
  pose proof (address_apply_spliced (address_applied pm addrs) sentence 0 [] [] 
                ltac:(lia) Hord') as Etext.
  change (len [] - 0) with 0 in Etext. rewrite slice_from_0 in Etext.
  simpl in Etext.
  rewrite (surjective_pairing (address_apply (address_applied pm addrs) 0 sentence [])).
  rewrite Etext, address_apply_spans. simpl.
  rewrite Happ, E1.
  pose proof (Masked_spliced
                (token_of (_placeholder_to_pii (placeholders_for pm (address_calls addrs)).2))
                sentence 0 0
                (address_triples addrs (placeholders_for pm (address_calls addrs)).1))
    as HM.
  rewrite slice_from_0 in HM. apply HM; try done.
  - by rewrite address_triples_spans.
  - apply address_triples_tokens; [done| |done].
    eapply Forall2_impl; [exact Hall|]. by intros p call [Hp Hg] Hv.
Qed.

Lemma overlaps_any_false s e spans :
  _overlaps_any s e spans = false ->
  forall a b, (a, b) ∈ spans -> ~ overlap s e a b.
Proof.
  unfold _overlaps_any, overlap. intros H a b Hin Hov.
  assert (existsb (fun '(ss, ee) => Z.max s ss <? Z.min e ee) spans = true) as H';
    [|congruence].
  apply existsb_exists. exists (a, b). split; [by apply list_elem_of_In|].
  by apply Z.ltb_lt.
Qed.

(** Spans chained one after the other, each within the text, are ordered
    and disjoint. *)
Lemma chained_ordered_disjoint text chosen last_end pos :
  chained last_end chosen ->
  Forall (fun c => span_invariant text (span_of c)) chosen ->
  0 <= pos <= len text -> (pos <= 0 \/ pos <= last_end) ->
  ordered_disjoint pos (span_of <$> chosen) (len text).
Proof.
  revert last_end pos.
  induction chosen as [|c chosen IH]; intros last_end pos Hch Hinv Hpos Hle.
  - simpl. lia.
  - destruct Hch as [Hc Hch]. apply Forall_cons in Hinv as [(H0 & Hlt & Hlen) Hinv].
    unfold span_of in *. simpl in *. split_and!; [lia|lia|].
    apply (IH (end_ c)); [done|done|lia|lia].
Qed.

Lemma presidio_triples_tokens (P : Z * Z * str -> Prop) chosen placeholders :
  Forall2 (fun placeholder c => P (start c, end_ c, placeholder)) placeholders chosen ->
  Forall P (presidio_triples chosen placeholders).
Proof.
  revert placeholders. induction chosen as [|c chosen IH]; intros phs H.
  - destruct phs; constructor.
  - destruct phs as [|p phs]; [by apply Forall2_nil_cons_inv in H|].
    apply Forall2_cons in H as [Hp H].
    unfold presidio_triples. simpl. constructor; [done|by apply IH].
Qed.

Lemma Forall2_with_Forall {A B} (P R : A -> B -> Prop) (Q : B -> Prop) l k :
  (forall a b, P a b -> Q b -> R a b) ->
  Forall2 P l k -> Forall Q k -> Forall2 R l k.
Proof.
  intros H. induction 1 as [|a b l k Hab _ IH]; intros Hk; [constructor|].
  apply Forall_cons in Hk as [Hb Hk]. constructor; [by apply H|by apply IH].
Qed.

(** After the general pass the text still is a masked text of the sentence. *)
Lemma presidio_mask_Masked pm text spans sentence results :
  registry_ok pm ->
  Masked (token_of (_placeholder_to_pii pm)) 0 text spans sentence ->
  Forall (fun r => span_invariant text (span_of r) /\ plain_entity (entity_type r))
         results ->
  let r := presidio_mask pm text spans results in
  registry_ok r.2 /\
  exists spans', Masked (token_of (_placeholder_to_pii r.2)) 0 r.1 spans' sentence.
Proof.
  intros Hok HM Hres.
  set (chosen := presidio_chosen pm text spans results).
  assert (Forall (fun c => (span_invariant text (span_of c) /\ plain_entity (entity_type c))
                           /\ _overlaps_any (start c) (end_ c) spans = false) chosen)
    as Hchosen.
  { apply Forall_forall. intros c Hc. split.
    - rewrite Forall_forall in Hres. apply Hres.
      eapply elem_of_Permutation_proper; [symmetry; apply (sorted_perm key_le)|].
      eapply elem_of_sublist; [exact Hc|]. apply select_sublist.
    - apply select_guards in Hc. unfold passes_guards in Hc.
      apply andb_true_iff in Hc as [Hc _]. by apply negb_true_iff in Hc. }
  assert (ordered_disjoint 0 (span_of <$> chosen) (len text)) as Hord.
  { apply (chained_ordered_disjoint text chosen (-1)).
    - apply presidio_chosen_sorted.
    - eapply Forall_impl; [exact Hchosen|]. by intros c [[? _] _].
    - pose proof (len_nonneg text). lia.
    - by left. }
  simpl. rewrite presidio_mask_spliced by done. fold chosen. cbn [fst snd].
  destruct (placeholders_for_ok pm (presidio_calls text chosen) Hok)
    as (Hok' & Hext & Hall).
  { unfold presidio_calls. apply Forall_forall. intros call Hc.
    apply list_elem_of_In, in_map_iff in Hc as (c & <- & Hc). simpl.
    rewrite Forall_forall in Hchosen. apply list_elem_of_In in Hc.
    by destruct (Hchosen c Hc) as [[_ ?] _]. }
  split; [done|].
  set (pm' := (placeholders_for pm (presidio_calls text chosen)).2) in *.
  apply (Masked_respliced (token_of (_placeholder_to_pii pm')) text _
           (token_of_nonempty _) 0 spans sentence 0); [lia| | |].
  - rewrite slice_from_0. eapply Masked_mono; [|exact HM].
    intros t v. by apply token_of_extends.
  - rewrite presidio_triples_spans; [done|].
    rewrite placeholders_for_length. unfold presidio_calls. by rewrite length_map.
  - apply presidio_triples_tokens.
    unfold presidio_calls in Hall. apply Forall2_fmap_r in Hall.
    eapply Forall2_with_Forall; [|exact Hall|exact Hchosen].
    intros p c [Hp Hg] [[(H0 & Hlt & Hlen) _] Hov].
    unfold span_of in *. simpl in *. split_and!; [done| |].
    + by apply overlaps_any_false.
    + intros Hv. split_and!; done.
Qed.

(* ===================================================================== *)
(** * The round trip                                                      *)
(* ===================================================================== *)

Lemma presidio_entities_plain entity :
  entity ∈ PRESIDIO_ENTITIES -> plain_entity entity.
Proof.
  assert (forallb (forallb no_angle) PRESIDIO_ENTITIES = true) as H
    by (vm_compute; reflexivity).
  rewrite forallb_forall in H. intros Hin. by apply H, list_elem_of_In.
Qed.

Lemma effective_entities_valid presidio_entities entity :
  all_valid presidio_entities ->
  entity ∈ effective_entities presidio_entities -> entity ∈ PRESIDIO_ENTITIES.
Proof.
  unfold all_valid, effective_entities. intros H.
  destruct (truthy presidio_entities); [|done].
  rewrite Forall_forall in H. apply H.
Qed.

Lemma remove_first_subset x l y : y ∈ remove_first x l -> y ∈ l.
Proof.
  induction l as [|z l IH]; simpl; [done|]. case_decide.
  - intros Hy. apply elem_of_cons. by right.
  - intros [->|Hy]%elem_of_cons; apply elem_of_cons; [by left|right; by apply IH].
Qed.


(** A run with valid types returns, and the restorer gives the text back. *)
Lemma round_trip_valid
    (pyap_parse : str -> list Address) (sentence : str)
    (analyzer : option AnalyzerEngine) (language : str)
    (presidio_entities : option (list str)) (existing_mappings : option dict) :
  all_valid presidio_entities ->
  forallb no_lt sentence = true ->
  dict_wf (default [] existing_mappings) ->
  Forall (fun k => well_formed k = true) (dict_keys (default [] existing_mappings)) ->
  ordered_disjoint 0 (span_of_address <$> pyap_parse sentence) (len sentence) ->
  Forall (fun a => full_address a = slice sentence (match_start a) (match_end a))
         (pyap_parse sentence) ->
  (forall a text entities,
      analyzer = Some a ->
      Forall (fun r => span_invariant text (span_of r) /\ entity_type r ∈ entities)
             (a text language entities MIN_THRESHOLD)) ->
  exists masked mapping,
    outcome (mask_sentence pyap_parse sentence analyzer language presidio_entities
               existing_mappings) = inr (masked, mapping)
    /\ _unmask_sentence masked mapping = sentence.
Proof.
  intros Hvalid Htext Hwf Hkeys Hord Hfull Han.
  destruct sentence as [|c0 s0] eqn:Es.
  { exists [], []. by rewrite mask_sentence_empty_text. }
  rewrite <- Es in *. assert (sentence <> []) as Hne by (by rewrite Es).
  clear Es c0 s0.
  rewrite mask_sentence_pure by done. unfold outcome. cbn [snd].
  eexists _, _. split; [reflexivity|].
  pose proof (seeded_ok existing_mappings Hwf Hkeys) as Hok0.
  unfold pipeline.
  (* the address pass *)
  assert (exists text1 spans1 pm1 eff1,
             after_address_pass pyap_parse (seeded existing_mappings) sentence
               (effective_entities presidio_entities) = (text1, spans1, pm1, eff1)
             /\ registry_ok pm1
             /\ Masked (token_of (_placeholder_to_pii pm1)) 0 text1 spans1 sentence
             /\ (forall e, e ∈ eff1 -> e ∈ PRESIDIO_ENTITIES)) as H1.
  { unfold after_address_pass.
    destruct (contains (effective_entities presidio_entities) LOCATION).
    - destruct (address_mask_Masked (seeded existing_mappings) sentence
                  (pyap_parse sentence) Hok0 Htext Hord Hfull) as [Hok1 HM1].
      destruct (address_mask (seeded existing_mappings) sentence (pyap_parse sentence))
        as [[text1 spans1] pm1]. simpl in *.
      eexists _, _, _, _. split_and!; [reflexivity|done|done|].
      intros e He. apply (effective_entities_valid presidio_entities); [done|].
      destruct (nonempty spans1); [by eapply remove_first_subset|done].
    - eexists _, _, _, _. split_and!; [reflexivity|done| |].
      + by apply Masked_literal.
      + intros e. by apply effective_entities_valid. }
  destruct H1 as (text1 & spans1 & pm1 & eff1 & -> & Hok1 & HM1 & Heff).
  (* the general pass *)
  unfold after_general_pass.
  destruct analyzer as [a|]; [destruct eff1 as [|e1 eff1]|].
  - cbn [fst snd]. by eapply unmask_Masked; [apply Hok1|].
  - destruct (presidio_mask_Masked pm1 text1 spans1 sentence
                (a text1 language (e1 :: eff1) MIN_THRESHOLD) Hok1 HM1)
      as [Hok2 [spans2 HM2]].
    { eapply Forall_impl; [by apply Han|]. intros r [Hr He].
      split; [done|]. by apply presidio_entities_plain, Heff. }
    by eapply unmask_Masked; [apply Hok2|].
  - cbn [fst snd]. by eapply unmask_Masked; [apply Hok1|].
Qed.




(** What the sample run returns. *)
Example sample_run :
  outcome (mask_sentence sample_pyap sample_sentence (Some sample_analyzer)
             (lit "en") (Some [lit "PERSON"; lit "LOCATION"])
             (Some [(lit "<PERSON_1>", lit "Jane Roe")]))
  = inr (lit "My name is <PERSON_2> and I live at <LOCATION_1>.",
         [(lit "<PERSON_1>", lit "Jane Roe");
          (lit "<LOCATION_1>", lit "123 Main St, Anytown, USA");
          (lit "<PERSON_2>", lit "John Doe")]).
Proof. vm_compute. reflexivity. Qed.

(* ===================================================================== *)
(** * The registry over its lifetime                                      *)
(* ===================================================================== *)

Lemma dict_wf_functional (d : dict) k v v' :
  dict_wf d -> (k, v) ∈ d -> (k, v') ∈ d -> v = v'.
Proof.
  unfold dict_wf, dict_keys. induction d as [|[k0 v0] d IH]; intros Hnd H1 H2.
  - by apply elem_of_nil in H1.
  - simpl in Hnd. apply NoDup_cons in Hnd as [Hfresh Hnd].
    assert (forall w, (k0, w) ∈ d -> False) as Hno.
    { intros w Hw. apply Hfresh. apply list_elem_of_In, in_map_iff.
      exists (k0, w). split; [done|by apply list_elem_of_In]. }
    apply elem_of_cons in H1 as [E1|H1]; apply elem_of_cons in H2 as [E2|H2].
    + congruence.
    + injection E1 as -> ->. by destruct (Hno v').
    + injection E2 as -> ->. by destruct (Hno v).
    + by apply IH.
Qed.

Lemma token_number_fresh pm entity e t n :
  token_number e t n -> (n <= counter pm e)%N ->
  format_placeholder entity (counter pm entity + 1) <> t.
Proof.
  intros [Hp| ->] Hle.
  - by eapply minted_not_seeded.
  - intros [-> E]%format_placeholder_inj. lia.
Qed.

Lemma seeded_index_ok existing :
  dict_wf (default [] existing) -> index_ok (seeded existing).
Proof.
  intros Hwf.
  assert (forall e v t,
            _pii_to_placeholder (seeded existing) !! (e, v) = Some t ->
            (t, v) ∈ default [] existing /\
            exists n, parse_placeholder t = Some (e, n)) as Hsrc.
  { intros e v t Hl. unfold seeded in Hl.
    destruct (seed_items_index (default [] existing) (empty_registry existing) e v)
      as [(p & n & Hin & Hp & Hl')|[_ Hl']]; rewrite Hl' in Hl.
    - injection Hl as <-. eauto.
    - simpl in Hl. by rewrite lookup_empty in Hl. }
  split.
  - intros e v t Hl. destruct (Hsrc e v t Hl) as [Hin [n Hp]].
    exists n. split; [by left|]. by eapply seed_items_counter_ge.
  - intros [e v] [e' v'] t H1 H2.
    destruct (Hsrc e v t H1) as [Hin [n Hp]].
    destruct (Hsrc e' v' t H2) as [Hin' [n' Hp']].
    rewrite Hp in Hp'. injection Hp' as <- <-.
    by rewrite (dict_wf_functional _ t v v' Hwf Hin Hin').
Qed.

Lemma placeholder_for_index_ok pm entity value :
  index_ok pm -> index_ok (placeholder_for pm entity value).2.
Proof.
  intros [Hn Hi]. unfold placeholder_for.
  destruct (_pii_to_placeholder pm !! (entity, value)) as [p|] eqn:E; simpl; [done|].
  set (c := counter pm entity).
  assert (forall e, (counter pm e <= default 0%N
                       (<[entity := (c + 1)%N]> (_entity_counters pm) !! e))%N) as Hc.
  { intros e. rewrite counter_insert. destruct (decide (entity = e)) as [<-|]; lia. }
  split; simpl.
  - intros e v t Hl. unfold counter. simpl.
    destruct (decide ((entity, value) = (e, v))) as [[= <- <-]|Hne].
    + rewrite lookup_insert_eq in Hl. injection Hl as <-.
      exists (c + 1)%N. split; [by right|].
      rewrite counter_insert, decide_True by done. lia.
    + rewrite lookup_insert_ne in Hl by done.
      destruct (Hn e v t Hl) as (n & Ht & Hle). exists n. split; [done|].
      specialize (Hc e). lia.
  - intros [e v] [e' v'] t H1 H2.
    destruct (decide ((entity, value) = (e, v))) as [E1|N1];
      destruct (decide ((entity, value) = (e', v'))) as [E2|N2].
    + congruence.
    + rewrite <- E1, lookup_insert_eq in H1. injection H1 as <-.
      rewrite lookup_insert_ne in H2 by done.
      destruct (Hn e' v' _ H2) as (n & Ht & Hle).
      by destruct (token_number_fresh pm entity e' _ n Ht Hle).
    + rewrite <- E2, lookup_insert_eq in H2. injection H2 as <-.
      rewrite lookup_insert_ne in H1 by done.
      destruct (Hn e v _ H1) as (n & Ht & Hle).
      by destruct (token_number_fresh pm entity e _ n Ht Hle).
    + rewrite lookup_insert_ne in H1, H2 by done. by eapply Hi.
Qed.

Lemma placeholders_for_index_ok calls pm :
  index_ok pm -> index_ok (placeholders_for pm calls).2.
Proof.
  revert pm. induction calls as [|[e v] calls IH]; intros pm Hok; [done|].
  simpl. pose proof (placeholder_for_index_ok pm e v Hok) as H1.
  destruct (placeholder_for pm e v) as [p pm1]. simpl in H1.
  specialize (IH pm1 H1). by destruct (placeholders_for pm1 calls).
Qed.

(** Every call of a sequence leaves its pair bound to the token it returned. *)
Lemma placeholders_for_recorded calls pm i call t :
  calls !! i = Some call ->
  (placeholders_for pm calls).1 !! i = Some t ->
  _pii_to_placeholder (placeholders_for pm calls).2 !! call = Some t.
Proof.
  revert pm i. induction calls as [|[e v] calls IH]; intros pm i Hc Ht; [done|].
  simpl in Ht |- *.
  pose proof (placeholder_for_records pm e v) as Hrec.
  destruct (placeholder_for pm e v) as [p pm1] eqn:E1. simpl in Hrec.
  pose proof (placeholders_for_keeps calls pm1 (e, v) p Hrec) as Hkeep.
  specialize (IH pm1).
  destruct (placeholders_for pm1 calls) as [ps pm2] eqn:E2. simpl in *.
  destruct i as [|i]; simpl in *.
  - injection Hc as <-. injection Ht as <-. done.
  - by apply (IH i).
Qed.



(** ** Numbering *)

Lemma seed_items_counter_max items pm e :
  counter (seed_items items pm) e = N.max (counter pm e) (highest_seeded e items).
Proof.
  revert pm. induction items as [|[k v] items IH]; intros pm.
  - unfold highest_seeded. simpl. lia.
  - unfold seed_items. simpl. fold (seed_items items (seed_item pm (k, v))).
    rewrite IH. unfold highest_seeded, seed_numbers, seed_item. simpl.
    destruct (parse_placeholder k) as [[e' n]|]; simpl; [|done].
    unfold counter at 1. simpl. rewrite counter_insert.
    destruct (decide (e' = e)) as [->|]; simpl; [|done].
    symmetry. apply N.max_assoc.
Qed.

Lemma counter_empty_registry existing e : counter (empty_registry existing) e = 0%N.
Proof. unfold counter, empty_registry. simpl. by rewrite lookup_empty. Qed.



(** ** Numbering from an empty registry *)

Lemma position_None v l : position v l = None <-> v ∉ l.
Proof.
  induction l as [|x l IH]; simpl.
  - split; [intros _; apply not_elem_of_nil|done].
  - destruct (decide (x = v)) as [->|Hne].
    + split; [done|]. intros H. destruct H. by left.
    + rewrite not_elem_of_cons. destruct (position v l); simpl.
      * split; [done|]. intros [_ H]. by apply IH in H.
      * split; [|done]. intros _. split; [done|]. by apply IH.
Qed.

Lemma position_app_l v l k n : position v l = Some n -> position v (l ++ k) = Some n.
Proof.
  revert n. induction l as [|x l IH]; intros n; simpl; [done|].
  destruct (decide (x = v)); [done|].
  destruct (position v l) as [m|]; simpl; [|done].
  intros [= <-]. by rewrite (IH m).
Qed.

Lemma position_snoc v l :
  v ∉ l -> position v (l ++ [v]) = Some (N.of_nat (length l) + 1)%N.
Proof.
  induction l as [|x l IH]; intros Hn; simpl.
  - by rewrite decide_True.
  - apply not_elem_of_cons in Hn as [Hne Hn].
    rewrite decide_False by done. rewrite (IH Hn). simpl. f_equal. lia.
Qed.

Lemma position_snoc_other v w l : w <> v -> position w (l ++ [v]) = position w l.
Proof.
  intros Hne. induction l as [|x l IH]; simpl.
  - by rewrite decide_False.
  - destruct (decide (x = w)); [done|]. by rewrite IH.
Qed.

Lemma first_seen_keeps entity calls seen v n :
  position v seen = Some n -> position v (first_seen entity seen calls) = Some n.
Proof.
  revert seen. induction calls as [|[e w] calls IH]; intros seen H; simpl; [done|].
  apply IH. destruct (decide (e = entity)); [|done].
  destruct (decide (w ∈ seen)); [done|]. by apply position_app_l.
Qed.

(** What a registry holds when [seen e] lists, in order, the values of each
    entity type [e] it has minted tokens for. *)
Lemma placeholders_for_numbered calls pm (seen : str -> list str) i entity value :
  (forall e, counter pm e = N.of_nat (length (seen e))) ->
  (forall e v, _pii_to_placeholder pm !! (e, v)
               = format_placeholder e <$> position v (seen e)) ->
  calls !! i = Some (entity, value) ->
  exists n,
    position value (first_seen entity (seen entity) calls) = Some n /\
    (placeholders_for pm calls).1 !! i = Some (format_placeholder entity n).
Proof.
  revert pm seen i. induction calls as [|[e v] calls IH]; intros pm seen i Hc Hi Hcall;
    [done|].
  set (seen' := fun e' => if decide (e' = e)
                          then (if decide (v ∈ seen e) then seen e else seen e ++ [v])
                          else seen e').
  assert (forall e', first_seen e' (seen e') ((e, v) :: calls)
                     = first_seen e' (seen' e') calls) as Hfs.
  { intros e'. simpl. unfold seen'.
    destruct (decide (e = e')) as [<-|Hne].
    - by destruct (decide (e = e)).
    - by destruct (decide (e' = e)) as [->|]. }
  rewrite Hfs. simpl.
  destruct (placeholder_for pm e v) as [p pm1] eqn:E1.
  assert (p = format_placeholder e (default 0%N (position v (seen' e)))
          /\ is_Some (position v (seen' e))
          /\ (forall e', counter pm1 e' = N.of_nat (length (seen' e')))
          /\ (forall e' v', _pii_to_placeholder pm1 !! (e', v')
                            = format_placeholder e' <$> position v' (seen' e'))) as
    (Hp & Hpos & Hc1 & Hi1).
  { unfold placeholder_for in E1. rewrite Hi in E1. unfold seen'.
    rewrite decide_True by done.
    destruct (position v (seen e)) as [n|] eqn:Hpv; simpl in E1.
    - injection E1 as <- <-.
      assert (v ∈ seen e) as Hin.
      { destruct (decide (v ∈ seen e)) as [|Hn]; [done|].
        apply position_None in Hn. congruence. }
      destruct (decide (v ∈ seen e)) as [_|]; [|done].
      rewrite Hpv. simpl. split_and!; try done.
      + intros e'. rewrite Hc. by destruct (decide (e' = e)) as [->|].
      + intros e' v'. rewrite Hi. by destruct (decide (e' = e)) as [->|].
    - apply position_None in Hpv as Hnin.
      destruct (decide (v ∈ seen e)) as [|_]; [done|].
      rewrite position_snoc by done.
      injection E1 as <- <-. simpl. rewrite Hc. split_and!; try done.
      + intros e'. unfold counter. simpl. rewrite counter_insert.
        destruct (decide (e = e')) as [<-|Hne].
        * rewrite decide_True by done. rewrite length_app. simpl. lia.
        * rewrite decide_False by done. apply Hc.
      + intros e' v'.
        destruct (decide ((e, v) = (e', v'))) as [[= <- <-]|Hne].
        * rewrite lookup_insert_eq, decide_True by done.
          by rewrite position_snoc.
        * rewrite lookup_insert_ne by done. rewrite Hi.
          destruct (decide (e' = e)) as [->|]; [|done].
          rewrite position_snoc_other; [done|]. congruence. }
  destruct Hpos as [n Hn]. rewrite Hn in Hp. simpl in Hp.
  specialize (IH pm1 seen').
  destruct (placeholders_for pm1 calls) as [ps pm2] eqn:E2. simpl in *.
  destruct i as [|i]; simpl in *.
  - injection Hcall as <- <-. exists n. split; [|by rewrite Hp].
    by apply first_seen_keeps.
  - by apply (IH i).
Qed.

(** Without a seed the tokens of an entity type are numbered 1, 2, 3, ...
    in the order in which its values first appear: the call for a value
    returns the token whose number is the position of that value among the
    distinct values of its type. *)
Theorem unseeded_numbering_by_first_appearance
    (calls : list (str * str)) (i : nat) (entity value : str) :
  calls !! i = Some (entity, value) ->
  exists pm0 n,
    outcome (PlaceholderManager_init None) = inr pm0 /\
    position value (first_seen entity [] calls) = Some n /\
    (placeholders_for pm0 calls).1 !! i = Some (format_placeholder entity n).
Proof.
  intros Hcall. exists (seeded None).
  destruct (placeholders_for_numbered calls (seeded None) (fun _ => []) i entity value)
    as (n & Hn & Ht); try done.
  exists n. split_and!; done.
Qed.

Lemma unseeded_numbering_by_first_appearance_witness :
  let calls := [(lit "PERSON", lit "Ann"); (lit "URL", lit "a.io");
                (lit "PERSON", lit "Bob"); (lit "PERSON", lit "Ann")] in
  exists pm0 n,
    outcome (PlaceholderManager_init None) = inr pm0 /\
    position (lit "Bob") (first_seen (lit "PERSON") [] calls) = Some n /\
    (placeholders_for pm0 calls).1 !! 2%nat = Some (format_placeholder (lit "PERSON") n).
Proof.
  exact (unseeded_numbering_by_first_appearance
           [(lit "PERSON", lit "Ann"); (lit "URL", lit "a.io");
            (lit "PERSON", lit "Bob"); (lit "PERSON", lit "Ann")]
           2%nat (lit "PERSON") (lit "Bob") eq_refl).
Defined.

(* ===================================================================== *)
(** * Excluded regions                                                    *)
(* ===================================================================== *)

(** [_overlaps_any] answers whether the half-open interval [s, e) shares an
    offset with one of the listed spans.  Spans that only touch, and empty
    intervals, share none. *)
Theorem overlaps_any_shares_offset (s e : Z) (spans : list (Z * Z)) :
  (_overlaps_any s e spans = true <->
   exists ss ee, (ss, ee) ∈ spans /\ share_offset s e ss ee)
  /\ ((forall ss ee, (ss, ee) ∈ spans -> e <= ss \/ ee <= s) ->
      _overlaps_any s e spans = false)
  /\ (e <= s -> _overlaps_any s e spans = false)
  /\ _overlaps_any s e [] = false.
Proof.
  assert (_overlaps_any s e spans = true <->
          exists ss ee, (ss, ee) ∈ spans /\ share_offset s e ss ee) as Hiff.
  { unfold _overlaps_any, share_offset. rewrite existsb_exists. split.
    - intros [[ss ee] [Hin Hlt]]. apply Z.ltb_lt in Hlt.
      exists ss, ee. split; [by apply list_elem_of_In|].
      exists (Z.max s ss). lia.
    - intros (ss & ee & Hin & i & H1 & H2). exists (ss, ee).
      split; [by apply list_elem_of_In|]. apply Z.ltb_lt. lia. }
  split_and!; [exact Hiff| | |done].
  - intros Hsep. apply not_true_iff_false. rewrite Hiff.
    intros (ss & ee & Hin & i & H1 & H2). destruct (Hsep ss ee Hin); lia.
  - intros Hempty. apply not_true_iff_false. rewrite Hiff.
    intros (ss & ee & Hin & i & H1 & H2). lia.
Qed.

(* ===================================================================== *)
(** * Continuous masking: the mapping a run returns                       *)
(* ===================================================================== *)

Lemma dict_set_fresh d k v : k ∉ dict_keys d -> dict_set d k v = d ++ [(k, v)].
Proof.
  induction d as [|[k0 v0] d IH]; simpl; [done|].
  intros [Hne Hnin]%not_elem_of_cons.
  destruct (decide (k0 = k)) as [->|]; [done|]. by rewrite IH.
Qed.

Lemma grows_refl pm : grows pm pm.
Proof.
  exists []. rewrite app_nil_r. split_and!; [done|constructor|constructor].
Qed.

Lemma grows_trans pm1 pm2 pm3 : grows pm1 pm2 -> grows pm2 pm3 -> grows pm1 pm3.
Proof.
  intros (n1 & E1 & F1 & D1) (n2 & E2 & F2 & D2).
  exists (n1 ++ n2). rewrite E2, E1, <- app_assoc. split; [done|].
  unfold dict_keys in *. rewrite map_app.
  rewrite E1, map_app in F2. split.
  - apply Forall_app. split; [done|].
    eapply Forall_impl; [exact F2|]. intros k [Hw Hn]. split; [done|].
    intros Hk. apply Hn. apply elem_of_app. by left.
  - apply NoDup_app. split_and!; [done| |done].
    intros k Hk1 Hk2. rewrite Forall_forall in F2.
    destruct (F2 k Hk2) as [_ Hn]. apply Hn. apply elem_of_app. by right.
Qed.

Lemma canonical_entity_parse entity n :
  canonical_entity entity = true ->
  parse_placeholder (format_placeholder entity n) = Some (entity, n).
Proof. intros H. rewrite parse_format. unfold canonical_entity in H. by rewrite H. Qed.

(** A call for a canonical entity type appends at most one entry, under a
    key that matches the canonical pattern and was no key before. *)
Lemma placeholder_for_grows pm entity value :
  canonical_entity entity = true -> counters_cover pm ->
  counters_cover (placeholder_for pm entity value).2 /\
  grows pm (placeholder_for pm entity value).2.
Proof.
  intros He Hcov. unfold placeholder_for.
  destruct (_pii_to_placeholder pm !! (entity, value)) as [p|] eqn:E; simpl.
  { split; [done|apply grows_refl]. }
  set (c := counter pm entity).
  set (p := format_placeholder entity (c + 1)).
  assert (parse_placeholder p = Some (entity, (c + 1)%N)) as Hp
    by (by apply canonical_entity_parse).
  assert (p ∉ dict_keys (_placeholder_to_pii pm)) as Hfresh.
  { intros Hin. pose proof (Hcov p entity _ Hin Hp). lia. }
  split.
  - intros key e n Hin Hk. simpl in Hin. apply dict_keys_set in Hin.
    unfold counter. simpl. rewrite counter_insert.
    destruct Hin as [->|Hin].
    + rewrite Hp in Hk. injection Hk as <- <-. by rewrite decide_True.
    + pose proof (Hcov key e n Hin Hk) as Hle.
      destruct (decide (entity = e)) as [<-|]; [|done]. fold c in Hle. lia.
  - exists [(p, value)]. simpl. split_and!.
    + by apply dict_set_fresh.
    + constructor; [|constructor]. split; [|done].
      apply well_formed_parse. by rewrite Hp.
    + apply NoDup_singleton.
Qed.

Lemma seeded_counters_cover existing : counters_cover (seeded existing).
Proof.
  intros key e n Hin Hp.
  change (_placeholder_to_pii (seeded existing)) with (mappings (seeded existing)) in Hin.
  rewrite seeded_mappings in Hin. unfold dict_keys in Hin.
  apply list_elem_of_fmap in Hin as [[k v] [-> Hin]]. simpl in Hp.
  unfold seeded. by eapply seed_items_counter_ge.
Qed.

Lemma LOCATION_canonical : canonical_entity LOCATION = true.
Proof. by vm_compute. Qed.

Lemma address_replacements_grows pm addrs :
  counters_cover pm ->
  counters_cover (address_replacements pm addrs).2 /\
  grows pm (address_replacements pm addrs).2.
Proof.
  revert pm. induction addrs as [|a addrs IH]; intros pm Hcov; simpl.
  { split; [done|apply grows_refl]. }
  destruct (placeholder_for_grows pm LOCATION (full_address a) LOCATION_canonical Hcov)
    as [Hcov1 Hg1].
  destruct (placeholder_for pm LOCATION (full_address a)) as [p pm1]. simpl in *.
  destruct (IH pm1 Hcov1) as [Hcov2 Hg2].
  destruct (address_replacements pm1 addrs) as [reps pm2]. simpl in *.
  split; [done|]. by eapply grows_trans.
Qed.

Lemma presidio_apply_grows chosen pm offset masked :
  Forall (fun res => canonical_entity (entity_type res) = true) chosen ->
  counters_cover pm ->
  counters_cover (presidio_apply chosen pm offset masked).2 /\
  grows pm (presidio_apply chosen pm offset masked).2.
Proof.
  revert pm offset masked.
  induction chosen as [|res chosen IH]; intros pm offset masked Hc Hcov; simpl.
  { split; [done|apply grows_refl]. }
  apply Forall_cons in Hc as [Hres Hc].
  set (v := slice masked (start res + offset) (end_ res + offset)).
  destruct (placeholder_for_grows pm (entity_type res) v Hres Hcov) as [Hcov1 Hg1].
  destruct (placeholder_for pm (entity_type res) v) as [p pm1]. simpl in *.
  destruct (IH pm1 (offset + (len p - len v))
              (slice_to masked (start res + offset) ++ p
                 ++ slice_from masked (end_ res + offset)) Hc Hcov1) as [Hcov2 Hg2].
  split; [done|]. by eapply grows_trans.
Qed.

Lemma presidio_chosen_reported pm text exclude_spans results res :
  res ∈ presidio_chosen pm text exclude_spans results -> res ∈ results.
Proof.
  intros Hin. unfold presidio_chosen in Hin.
  eapply elem_of_sublist in Hin; [|apply select_sublist].
  apply list_elem_of_In. eapply Permutation_in; [apply sorted_perm|].
  by apply list_elem_of_In.
Qed.

(** A run that returns was given valid types. *)
Lemma mask_sentence_returned_valid pyap_parse sentence analyzer language
    presidio_entities existing_mappings result :
  outcome (mask_sentence pyap_parse sentence analyzer language presidio_entities
             existing_mappings) = inr result ->
  all_valid presidio_entities.
Proof.
  intros Hrun.
  destruct (decide (Forall (fun entity => entity ∈ PRESIDIO_ENTITIES)
                      (default [] presidio_entities))) as [Hv|Hn]; [exact Hv|].
  destruct (validate_not_valid presidio_entities Hn) as (evs & e & Hval).
  unfold mask_sentence in Hrun. erewrite bind_raised in Hrun by exact Hval.
  discriminate Hrun.
Qed.

(** The registry of a run on a non-empty sentence grows from the seed. *)
Lemma pipeline_grows pyap_parse sentence analyzer language presidio_entities
    existing_mappings :
  reports_canonical analyzer ->
  grows (seeded existing_mappings)
    (pipeline pyap_parse sentence analyzer language presidio_entities
       existing_mappings).2.
Proof.
  intros Hcan. unfold pipeline, after_address_pass.
  pose proof (seeded_counters_cover existing_mappings) as Hcov0.
  set (pm0 := seeded existing_mappings) in *.
  assert (exists t sp pm1 eff,
            (if contains (effective_entities presidio_entities) LOCATION
             then let '(current_text, address_spans, pm') :=
                    address_mask pm0 sentence (pyap_parse sentence) in
                  (current_text, address_spans, pm',
                   if nonempty address_spans
                   then remove_first LOCATION (effective_entities presidio_entities)
                   else effective_entities presidio_entities)
             else (sentence, [], pm0, effective_entities presidio_entities))
            = (t, sp, pm1, eff)
            /\ counters_cover pm1 /\ grows pm0 pm1) as (t & sp & pm1 & eff & -> & Hcov1 & Hg1).
  { destruct (contains (effective_entities presidio_entities) LOCATION).
    - rewrite address_mask_unfold.
      destruct (address_replacements_grows pm0 (pyap_parse sentence) Hcov0) as [H1 H2].
      destruct (address_apply _ 0 sentence []) as [t sp]. eauto 10.
    - eexists _, _, _, _. split; [done|]. split; [done|apply grows_refl]. }
  unfold after_general_pass.
  destruct analyzer as [a|]; [|done].
  destruct eff as [|e0 eff]; [done|].
  unfold presidio_mask.
  eapply grows_trans; [exact Hg1|].
  apply presidio_apply_grows; [|done].
  apply Forall_forall. intros res Hres.
  apply presidio_chosen_reported in Hres.
  specialize (Hcan a t language (e0 :: eff) MIN_THRESHOLD eq_refl).
  rewrite Forall_forall in Hcan. by apply Hcan.
Qed.

(** Continuous masking: when the detectors report canonical entity types (as
    the members of [PRESIDIO_ENTITIES] are), the mapping a run on a
    non-empty text returns is the seed mapping, entry for entry and in its
    order, followed by the new entries; every new key matches the canonical
    pattern and is no key of the seed, so no earlier entry is overwritten
    or dropped, and the returned mapping is a dictionary that can seed the
    next run. *)
Theorem mapping_extends_seed
    (pyap_parse : str -> list Address) (sentence : str)
    (analyzer : option AnalyzerEngine) (language : str)
    (presidio_entities : option (list str)) (existing_mappings : option dict)
    (masked : str) (mapping : dict) :
  reports_canonical analyzer ->
  sentence <> [] ->
  outcome (mask_sentence pyap_parse sentence analyzer language presidio_entities
             existing_mappings) = inr (masked, mapping) ->
  exists new,
    mapping = default [] existing_mappings ++ new
    /\ Forall (fun k => well_formed k = true
                        /\ k ∉ dict_keys (default [] existing_mappings))
              (dict_keys new)
    /\ (dict_wf (default [] existing_mappings) -> dict_wf mapping).
Proof.
  intros Hcan Hne Hrun.
  pose proof (mask_sentence_returned_valid _ _ _ _ _ _ _ Hrun) as Hvalid.
  rewrite (mask_sentence_pure pyap_parse sentence analyzer language presidio_entities
             existing_mappings Hvalid Hne) in Hrun.
  unfold outcome in Hrun. cbn [snd] in Hrun. injection Hrun as _ <-.
  destruct (pipeline_grows pyap_parse sentence analyzer language presidio_entities
              existing_mappings Hcan) as (new & E & F & D).
  change (_placeholder_to_pii (seeded existing_mappings))
    with (mappings (seeded existing_mappings)) in E, F.
  rewrite seeded_mappings in E, F.
  exists new. unfold mappings. split_and!; [done|done|].
  intros Hwf. unfold dict_wf, dict_keys in *. rewrite E, map_app.
  apply NoDup_app. split_and!; [done| |done].
  intros k Hk1 Hk2. rewrite Forall_forall in F. by destruct (F k Hk2).
Qed.

Lemma mapping_extends_seed_witness :
  let seed := Some [(lit "<PERSON_1>", lit "Jane Roe")] in
  exists new,
    (lit "<PERSON_1>", lit "Jane Roe")
      :: [(lit "<LOCATION_1>", lit "123 Main St, Anytown, USA");
          (lit "<PERSON_2>", lit "John Doe")]
    = default [] seed ++ new
    /\ Forall (fun k => well_formed k = true /\ k ∉ dict_keys (default [] seed))
              (dict_keys new)
    /\ (dict_wf (default [] seed) ->
        dict_wf ((lit "<PERSON_1>", lit "Jane Roe")
                   :: [(lit "<LOCATION_1>", lit "123 Main St, Anytown, USA");
                       (lit "<PERSON_2>", lit "John Doe")])).
Proof.
  apply (mapping_extends_seed sample_pyap sample_sentence (Some sample_analyzer)
           (lit "en") None (Some [(lit "<PERSON_1>", lit "Jane Roe")])
           (lit "My name is <PERSON_2> and I live at <LOCATION_1>.")).
  - intros a text language entities thr [= <-]. unfold sample_analyzer.
    destruct (_ && _); repeat constructor.
  - discriminate.
  - vm_compute. reflexivity.
Defined.

(* ===================================================================== *)
(** * Runs in which nothing is detected                                   *)
(* ===================================================================== *)

Lemma address_mask_nothing pm text : address_mask pm text [] = ((text, []), pm).
Proof. done. Qed.

Lemma presidio_mask_nothing pm text exclude_spans :
  presidio_mask pm text exclude_spans [] = (text, pm).
Proof. done. Qed.

(** The run on a non-empty sentence in which the address detector finds
    nothing and the analyzer's answer is [results]. *)
Lemma pipeline_no_address pyap_parse sentence analyzer language presidio_entities
    existing_mappings :
  pyap_parse sentence = [] ->
  pipeline pyap_parse sentence analyzer language presidio_entities existing_mappings
  = match analyzer, effective_entities presidio_entities with
    | Some a, _ :: _ =>
        presidio_mask (seeded existing_mappings) sentence []
          (a sentence language (effective_entities presidio_entities) MIN_THRESHOLD)
    | _, _ => (sentence, seeded existing_mappings)
    end.
Proof.
  intros Hno. unfold pipeline, after_address_pass. rewrite Hno, address_mask_nothing.
  simpl nonempty. cbv iota.
  by destruct (contains (effective_entities presidio_entities) LOCATION).
Qed.



(* ===================================================================== *)
(** * Requests for addresses only                                         *)
(* ===================================================================== *)



(* ===================================================================== *)
(** * The restorer on a text without placeholders                         *)
(* ===================================================================== *)

Lemma occurs_empty s : occurs [] s.
Proof. by exists [], s. Qed.

Lemma unmask_loop_absent mappings keys text :
  (forall k, k ∈ keys -> ~ occurs k text) ->
  unmask_loop mappings keys text = text.
Proof.
  induction keys as [|k keys IH]; intros Hno; simpl; [done|].
  assert (~ occurs k text) as Hk by (apply Hno; by left).
  rewrite replace_absent; [|by intros ->; apply Hk, occurs_empty|done].
  apply IH. intros k' Hk'. apply Hno. by right.
Qed.

(** Scanning every offset decides whether [old] occurs. *)
Lemma not_occurs_scan old s :
  forallb (fun i => negb (startswith (skipn i s) old)) (seq 0 (S (length s))) = true ->
  ~ occurs old s.
Proof.
  intros Hscan (pre & post & E). rewrite forallb_forall in Hscan.
  specialize (Hscan (length pre)).
  assert (startswith (skipn (length pre) s) old = true) as Hs.
  { rewrite E, drop_app_length. apply startswith_prefix. by exists post. }
  rewrite Hs in Hscan.
  assert (negb true = true) as F; [|discriminate F].
  apply Hscan. apply in_seq. subst s. rewrite length_app. lia.
Qed.

(** A text in which no key of the mapping occurs is returned unchanged,
    whatever the mapping holds: the restorer only ever touches literal
    occurrences of the keys. *)
Theorem restorer_keeps_text_without_keys (masked_data : str) (mappings : dict) :
  (forall k, k ∈ dict_keys mappings -> ~ occurs k masked_data) ->
  _unmask_sentence masked_data mappings = masked_data.
Proof.
  intros Hno. unfold _unmask_sentence.
  destruct masked_data as [|c text]; [done|].
  destruct mappings as [|item mappings]; [done|].
  apply unmask_loop_absent. intros k Hk. apply Hno.
  unfold keys_longest_first in Hk.
  apply list_elem_of_In. apply list_elem_of_In in Hk.
  eapply Permutation_in; [apply sorted_perm|exact Hk].
Qed.

Lemma restorer_keeps_text_without_keys_witness :
  _unmask_sentence (lit "Hello <UNKNOWN>") [(lit "<NAME>", lit "Test")]
  = lit "Hello <UNKNOWN>".
Proof.
  apply restorer_keeps_text_without_keys.
  intros k Hk. apply list_elem_of_singleton in Hk as ->.
  apply not_occurs_scan. vm_compute. reflexivity.
Defined.

(* ===================================================================== *)
(** * The analyzer's filter of known false positives                      *)
(* ===================================================================== *)

Lemma is_false_positive_spec text res :
  is_false_positive text res = true <-> email_as_person text res.
Proof.
  unfold is_false_positive, email_as_person, _false_positives_map. cbn [sets_get].
  destruct (decide (lit "PERSON" = entity_type res)) as [E|N].
  - rewrite bool_decide_eq_true, list_elem_of_singleton. split; [by intros ->|tauto].
  - split; [done|]. intros [E _]. by destruct N.
Qed.

Lemma filtered_results_filter text results :
  filtered_results text results
  = filter (fun res => ~ email_as_person text res) results.
Proof.
  induction results as [|res results IH]; [done|].
  simpl. rewrite filter_cons.
  destruct (is_false_positive text res) eqn:E.
  - apply is_false_positive_spec in E. by rewrite decide_False by tauto.
  - rewrite decide_True; [by rewrite IH|].
    intros H. apply is_false_positive_spec in H. congruence.
Qed.

Lemma text_to_analyze_keyword args0 text :
  text <> [] \/ args0 = None -> text_to_analyze args0 (Some text) = Some text.
Proof.
  unfold text_to_analyze. intros [H| ->]; destruct text; try done.
Qed.

Lemma CustomAnalyzer_filtered super_analyze text language entities score_threshold :
  CustomAnalyzer super_analyze text language entities score_threshold
  = filtered_results text (super_analyze text language entities score_threshold).
Proof.
  unfold CustomAnalyzer, CustomAnalyzer_analyze.
  by rewrite text_to_analyze_keyword by (by right).
Qed.

(** [CustomAnalyzer.analyze] returns the results of the base class, in their
    order, without those that report as a [PERSON] a text reading "email"
    in any mix of cases; nothing else is dropped, nothing is added or
    changed, and filtering again changes nothing.  With the text passed by
    keyword, as [PresidioMasker.mask] does, the call does not raise. *)
Theorem custom_analyzer_drops_email_persons
    (super_analyze : AnalyzerEngine) (text language : str) (entities : list str)
    (score_threshold : Q) :
  let original_results := super_analyze text language entities score_threshold in
  let kept := CustomAnalyzer super_analyze text language entities score_threshold in
  CustomAnalyzer_analyze original_results None (Some text) = Some kept
  /\ kept = filter (fun res => ~ email_as_person text res) original_results
  /\ sublist kept original_results
  /\ (forall res, res ∈ kept <-> res ∈ original_results /\ ~ email_as_person text res)
  /\ (forall res, res ∈ original_results -> entity_type res <> lit "PERSON" ->
        res ∈ kept)
  /\ filtered_results text kept = kept.
Proof.
  intros original_results kept.
  assert (kept = filter (fun res => ~ email_as_person text res) original_results) as Hk.
  { subst kept. by rewrite CustomAnalyzer_filtered, filtered_results_filter. }
  split_and!.
  - subst kept. unfold CustomAnalyzer, CustomAnalyzer_analyze.
    by rewrite text_to_analyze_keyword by (by right).
  - exact Hk.
  - rewrite Hk. apply sublist_filter.
  - intros res. rewrite Hk, list_elem_of_filter. tauto.
  - intros res Hin Hne. rewrite Hk. apply list_elem_of_filter. split; [|done].
    intros [E _]. done.
  - rewrite filtered_results_filter, Hk. rewrite list_filter_filter.
    apply list_filter_iff. tauto.
Qed.



(** Without the filter the same report is masked. *)
Example email_label_masked_without_filter :
  outcome (mask_sentence (fun _ => []) (lit "Email me")
             (Some (fun text _ _ _ =>
                      if decide (text = lit "Email me")
                      then [mkResult (lit "PERSON") 0 5 (85 # 100)] else []))
             (lit "en") None None)
  = inr (lit "<PERSON_1> me", [(lit "<PERSON_1>", lit "Email")]).
Proof. vm_compute. reflexivity. Qed.

(* ===================================================================== *)
(** * UTF-8: decoding what was encoded                                    *)
(* ===================================================================== *)

Lemma base64_digits (c : N) :
  exists q0 q1 q2 q3 : N,
    (q0 < 64 /\ q1 < 64 /\ q2 < 64)%N /\
    (c = q3 * 262144 + q2 * 4096 + q1 * 64 + q0)%N /\
    (c mod 64 = q0 /\ (c / 64) mod 64 = q1 /\ (c / 4096) mod 64 = q2 /\
     c / 262144 = q3 /\ c / 4096 = q3 * 64 + q2 /\ c / 64 = (q3 * 64 + q2) * 64 + q1)%N.
Proof.
  exists (c mod 64)%N, ((c / 64) mod 64)%N, ((c / 4096) mod 64)%N, (c / 262144)%N.
  assert (c / 4096 = c / 64 / 64)%N as E1 by (by rewrite N.Div0.div_div).
  assert (c / 262144 = c / 4096 / 64)%N as E2 by (by rewrite N.Div0.div_div).
  pose proof (N.Div0.div_mod c 64) as D0.
  pose proof (N.Div0.div_mod (c / 64) 64) as D1.
  pose proof (N.Div0.div_mod (c / 4096) 64) as D2.
  pose proof (N.mod_upper_bound c 64 ltac:(done)).
  pose proof (N.mod_upper_bound (c / 64) 64 ltac:(done)).
  pose proof (N.mod_upper_bound (c / 4096) 64 ltac:(done)).
  rewrite <- E1 in D1. rewrite <- E2 in D2.
  split_and!; try done; lia.
Qed.


Lemma decode_one b rest :
  (b < 0x80)%N -> decode_ignore (b :: rest) = b :: decode_ignore rest.
Proof. intros. cbn [decode_ignore]. unfold decode_from. settle. done. Qed.

Lemma decode_two q1 q0 rest :
  (2 <= q1 < 32)%N -> (q0 < 64)%N ->
  decode_ignore ((0xC0 + q1) :: (0x80 + q0) :: rest)%N
  = (q1 * 64 + q0)%N :: decode_ignore rest.
Proof.
  intros. cbn [decode_ignore]. unfold decode_from, is_continuation. settle. f_equal. lia.
Qed.

Lemma decode_three q2 q1 q0 rest :
  (q2 < 16)%N -> (q1 < 64)%N -> (q0 < 64)%N ->
  (q2 = 0 -> 32 <= q1)%N -> (q2 = 13 -> q1 < 32)%N ->
  decode_ignore ((0xE0 + q2) :: (0x80 + q1) :: (0x80 + q0) :: rest)%N
  = (q2 * 4096 + q1 * 64 + q0)%N :: decode_ignore rest.
Proof.
  intros H2 H1 H0 Hlow Hsur. cbn [decode_ignore]. unfold decode_from.
  unfold second_of_three, is_continuation.
  destruct (N.eq_dec q2 0%N) as [E|N0];
    [specialize (Hlow E); clear Hsur
    |clear Hlow; destruct (N.eq_dec q2 13%N) as [E|N13];
       [specialize (Hsur E)|clear Hsur]].
  - settle; f_equal; lia.
  - settle; f_equal; lia.
  - settle; f_equal; lia.
Qed.

Lemma decode_four q3 q2 q1 q0 rest :
  (q3 <= 4)%N -> (q2 < 64)%N -> (q1 < 64)%N -> (q0 < 64)%N ->
  (q3 = 0 -> 16 <= q2)%N -> (q3 = 4 -> q2 < 16)%N ->
  decode_ignore ((0xF0 + q3) :: (0x80 + q2) :: (0x80 + q1) :: (0x80 + q0) :: rest)%N
  = (q3 * 262144 + q2 * 4096 + q1 * 64 + q0)%N :: decode_ignore rest.
Proof.
  intros H3 H2 H1 H0 Hlow Hhigh. cbn [decode_ignore]. unfold decode_from.
  unfold second_of_four, is_continuation.
  destruct (N.eq_dec q3 0%N) as [E|N0];
    [specialize (Hlow E); clear Hhigh
    |clear Hlow; destruct (N.eq_dec q3 4%N) as [E|N4];
       [specialize (Hhigh E)|clear Hhigh]].
  - settle; f_equal; lia.
  - settle; f_equal; lia.
  - settle; f_equal; lia.
Qed.

Lemma decode_encode_char c bs rest :
  encode_char c = Some bs -> decode_ignore (bs ++ rest) = c :: decode_ignore rest.
Proof.
  destruct (base64_digits c) as (q0 & q1 & q2 & q3 & (B0 & B1 & B2) & Ec &
                                  M0 & M1 & M2 & D3 & D2 & D1).
  unfold encode_char.
  rewrite ?M0, ?M1, ?M2, ?D3, ?D2, ?D1. clear M0 M1 M2 D3 D2 D1.
  destruct (N.ltb_spec c 0x80).
  { intros [= <-]. by apply decode_one. }
  destruct (N.ltb_spec c 0x800).
  { intros [= <-]. assert (q3 = 0 /\ q2 = 0)%N as [-> ->] by lia.
    rewrite Ec. cbn [app]. rewrite !N.mul_0_l, !N.add_0_l.
    apply decode_two; lia. }
  destruct (N.ltb_spec c 0x10000).
  { destruct (is_surrogate c) eqn:Hs; [done|]. intros [= <-].
    assert (q3 = 0)%N as -> by lia.
    rewrite Ec. cbn [app]. rewrite !N.mul_0_l, !N.add_0_l.
    unfold is_surrogate in Hs. apply andb_false_iff in Hs.
    rewrite N.leb_gt, N.leb_gt in Hs.
    apply decode_three; lia. }
  destruct (N.ltb_spec c 0x110000); [|done].
  intros [= <-]. rewrite Ec. cbn [app]. apply decode_four; lia.
Qed.

(** ** Sequences cut short by the end of the input *)

Lemma decode_two_cut q1 :
  (2 <= q1 < 32)%N -> decode_ignore [(0xC0 + q1)%N] = [].
Proof. intros. cbn [decode_ignore]. unfold decode_from. settle. done. Qed.

Lemma decode_three_cut q2 q1 :
  (q2 < 16)%N -> (q1 < 64)%N ->
  (q2 = 0 -> 32 <= q1)%N -> (q2 = 13 -> q1 < 32)%N ->
  decode_ignore [(0xE0 + q2)%N] = [] /\
  decode_ignore [(0xE0 + q2)%N; (0x80 + q1)%N] = [].
Proof.
  intros H2 H1 Hlow Hsur. cbn [decode_ignore]. unfold decode_from.
  unfold second_of_three, is_continuation.
  destruct (N.eq_dec q2 0%N) as [E|N0];
    [specialize (Hlow E); clear Hsur
    |clear Hlow; destruct (N.eq_dec q2 13%N) as [E|N13];
       [specialize (Hsur E)|clear Hsur]];
    settle; try done; lia.
Qed.

Lemma decode_four_cut q3 q2 q1 :
  (q3 <= 4)%N -> (q2 < 64)%N -> (q1 < 64)%N ->
  (q3 = 0 -> 16 <= q2)%N -> (q3 = 4 -> q2 < 16)%N ->
  decode_ignore [(0xF0 + q3)%N] = [] /\
  decode_ignore [(0xF0 + q3)%N; (0x80 + q2)%N] = [] /\
  decode_ignore [(0xF0 + q3)%N; (0x80 + q2)%N; (0x80 + q1)%N] = [].
Proof.
  intros H3 H2 H1 Hlow Hhigh. cbn [decode_ignore]. unfold decode_from.
  unfold second_of_four, is_continuation.
  destruct (N.eq_dec q3 0%N) as [E|N0];
    [specialize (Hlow E); clear Hhigh
    |clear Hlow; destruct (N.eq_dec q3 4%N) as [E|N4];
       [specialize (Hhigh E)|clear Hhigh]];
    settle; try done; lia.
Qed.

Lemma encode_char_length c e : encode_char c = Some e -> length e = utf8_width c.
Proof.
  unfold encode_char, utf8_width.
  destruct (c <? 0x80)%N; [by intros [= <-]|].
  destruct (c <? 0x800)%N; [by intros [= <-]|].
  destruct (c <? 0x10000)%N.
  { destruct (is_surrogate c); [done|]. by intros [= <-]. }
  destruct (c <? 0x110000)%N; [|done]. by intros [= <-].
Qed.

(** What is left of a character's encoding cut before its end decodes to
    nothing. *)
Lemma decode_char_cut c e k :
  encode_char c = Some e -> (k < length e)%nat -> decode_ignore (take k e) = [].
Proof.
  destruct (base64_digits c) as (q0 & q1 & q2 & q3 & (B0 & B1 & B2) & Ec &
                                  M0 & M1 & M2 & D3 & D2 & D1).
  unfold encode_char.
  rewrite ?M0, ?M1, ?M2, ?D3, ?D2, ?D1. clear M0 M1 M2 D3 D2 D1.
  destruct (N.ltb_spec c 0x80).
  { intros [= <-] Hk. simpl in Hk. by replace k with 0%nat by lia. }
  destruct (N.ltb_spec c 0x800).
  { intros [= <-] Hk. assert (q3 = 0 /\ q2 = 0)%N as [-> ->] by lia.
    rewrite !N.mul_0_l, !N.add_0_l. simpl in Hk.
    destruct k as [|[|k]]; [done| |lia]. cbn [take].
    apply decode_two_cut. lia. }
  destruct (N.ltb_spec c 0x10000).
  { destruct (is_surrogate c) eqn:Hs; [done|]. intros [= <-] Hk.
    assert (q3 = 0)%N as -> by lia.
    rewrite !N.mul_0_l, !N.add_0_l.
    unfold is_surrogate in Hs. apply andb_false_iff in Hs.
    rewrite N.leb_gt, N.leb_gt in Hs.
    destruct (decode_three_cut q2 q1) as [C1 C2]; try lia.
    simpl in Hk. destruct k as [|[|[|k]]]; [done|exact C1|exact C2|lia]. }
  destruct (N.ltb_spec c 0x110000); [|done].
  intros [= <-] Hk.
  destruct (decode_four_cut q3 q2 q1) as (C1 & C2 & C3); try lia.
  simpl in Hk. destruct k as [|[|[|[|k]]]]; [done|exact C1|exact C2|exact C3|lia].
Qed.

(** ** Byte offsets and character offsets *)

Lemma encode_cons c s utf8 :
  encode (c :: s) = Some utf8 ->
  exists e rest, encode_char c = Some e /\ encode s = Some rest /\ utf8 = e ++ rest.
Proof.
  simpl. destruct (encode_char c) as [e|]; [|done].
  destruct (encode s) as [rest|]; [|done]. intros [= <-]. eauto.
Qed.

(** Decoding the first [n] bytes of an encoded text gives the characters
    whose encoding lies within those bytes. *)
Lemma decode_take text utf8 n :
  encode text = Some utf8 ->
  decode_ignore (take n utf8) = take (chars_within text n) text.
Proof.
  revert utf8 n. induction text as [|c text IH]; intros utf8 n.
  - intros [= <-]. by destruct n.
  - intros (e & rest & He & Hrest & ->)%encode_cons.
    pose proof (encode_char_length c e He) as Hlen.
    cbn [chars_within]. destruct (Nat.leb_spec (utf8_width c) n) as [Hle|Hlt].
    + rewrite take_app_ge by lia. rewrite (decode_encode_char c e _ He).
      cbn [take]. f_equal. rewrite Hlen. by apply IH.
    + rewrite take_app_le by lia. cbn [take]. apply (decode_char_cut c e n He). lia.
Qed.

Lemma decode_encode text utf8 : encode text = Some utf8 -> decode_ignore utf8 = text.
Proof.
  revert utf8. induction text as [|c text IH]; intros utf8.
  - by intros [= <-].
  - intros (e & rest & He & Hrest & ->)%encode_cons.
    rewrite (decode_encode_char c e _ He). f_equal. by apply IH.
Qed.

Lemma chars_within_le s n : (chars_within s n <= length s)%nat.
Proof.
  revert n. induction s as [|c s IH]; intros n; simpl; [lia|].
  destruct (utf8_width c <=? n)%nat; [|lia]. specialize (IH (n - utf8_width c)%nat). lia.
Qed.

Lemma utf8_width_pos c : (1 <= utf8_width c)%nat.
Proof.
  unfold utf8_width.
  destruct (c <? 0x80)%N; [lia|]. destruct (c <? 0x800)%N; [lia|].
  destruct (c <? 0x10000)%N; lia.
Qed.

Lemma byte_offset_0 s : byte_offset s 0 = 0%nat.
Proof. done. Qed.

Lemma byte_offset_S c s i :
  byte_offset (c :: s) (S i) = (utf8_width c + byte_offset s i)%nat.
Proof. done. Qed.

Lemma byte_offset_lt s i : (i < length s -> byte_offset s i < byte_offset s (S i))%nat.
Proof.
  revert i. induction s as [|c s IH]; intros i Hi; [simpl in Hi; lia|].
  destruct i as [|i].
  - rewrite byte_offset_S, !byte_offset_0. pose proof (utf8_width_pos c). lia.
  - rewrite !byte_offset_S. simpl in Hi. specialize (IH i). lia.
Qed.

(** A byte offset from the start of character [i] up to, but not
    including, the start of the next one counts [i] characters. *)
Lemma chars_within_between s i n :
  (i <= length s)%nat ->
  (byte_offset s i <= n)%nat ->
  (i < length s -> n < byte_offset s (S i))%nat ->
  chars_within s n = i.
Proof.
  revert i n. induction s as [|c s IH]; intros i n Hi Hlo Hhi.
  - simpl in Hi. by replace i with 0%nat by lia.
  - cbn [chars_within]. cbn [length] in Hi, Hhi. destruct i as [|i].
    + specialize (Hhi ltac:(lia)). rewrite byte_offset_S, byte_offset_0 in Hhi.
      destruct (Nat.leb_spec (utf8_width c) n); [lia|done].
    + rewrite byte_offset_S in Hlo.
      destruct (Nat.leb_spec (utf8_width c) n); [|lia].
      f_equal. apply IH; [lia|lia|].
      intros Hlt. specialize (Hhi ltac:(lia)). rewrite byte_offset_S in Hhi. lia.
Qed.

Lemma byte_offset_ascii s i :
  Forall (fun c => (c < 0x80)%N) s -> (i <= length s)%nat -> byte_offset s i = i.
Proof.
  intros Hascii. revert i.
  induction Hascii as [|c s Hc _ IH]; intros i Hi;
    [simpl in Hi; by replace i with 0%nat by lia|].
  destruct i as [|i]; [done|]. simpl in Hi. rewrite byte_offset_S, IH by lia.
  unfold utf8_width.
  by replace (c <? 0x80)%N with true by (symmetry; apply N.ltb_lt; lia).
Qed.

Lemma slice_to_take {A} (l : list A) (n : nat) : slice_to l (Z.of_nat n) = take n l.
Proof.
  unfold slice_to, slice, clamp, len. simpl.
  replace (Z.of_nat n <? 0) with false by (symmetry; apply Z.ltb_ge; lia).
  replace (Z.to_nat (Z.min 0 (Z.of_nat (length l)))) with 0%nat by lia.
  rewrite drop_0.
  destruct (Nat.le_gt_cases n (length l)).
  - f_equal. lia.
  - rewrite !take_ge; [done|lia|lia].
Qed.

Lemma slice_to_prefix {A} (l : list A) (hi : Z) :
  exists n, slice_to l hi = take n l.
Proof.
  unfold slice_to, slice, clamp, len. simpl. eexists.
  replace (Z.to_nat (Z.min 0 (Z.of_nat (length l)))) with 0%nat by lia.
  by rewrite drop_0.
Qed.

(** [analyze] turns the byte offsets of DLP into character offsets.  For
    a text that can be encoded: the byte offset at which character [i]
    starts, or the end of the text, is turned into [i]; an offset inside
    the encoding of a character is rounded down to that character; for a
    text of ASCII characters every offset within the text stays as it is;
    whatever the byte offset, the result lies within the text; and the
    decoder restores the text from its encoding. *)
Theorem dlp_byte_offsets_to_character_offsets (text : ustr) (utf8_text : bytes) :
  encode text = Some utf8_text ->
  (forall i, (i <= length text)%nat ->
     char_offset utf8_text (Z.of_nat (byte_offset text i)) = Z.of_nat i)
  /\ (forall i n, (i < length text)%nat ->
        (byte_offset text i <= n < byte_offset text (S i))%nat ->
        char_offset utf8_text (Z.of_nat n) = Z.of_nat i)
  /\ (forall n, (length utf8_text <= n)%nat ->
        char_offset utf8_text (Z.of_nat n) = len text)
  /\ (Forall (fun c => (c < 0x80)%N) text ->
      forall i, (i <= length text)%nat ->
        char_offset utf8_text (Z.of_nat i) = Z.of_nat i)
  /\ (forall byte, 0 <= char_offset utf8_text byte <= len text)
  /\ decode_ignore utf8_text = text.
Proof.
  intros Henc.
  assert (forall n, char_offset utf8_text (Z.of_nat n)
                    = Z.of_nat (chars_within text n)) as Hn.
  { intros n. unfold char_offset. rewrite slice_to_take, (decode_take text) by done.
    unfold len. rewrite length_take. pose proof (chars_within_le text n). lia. }
  assert (forall i, (i <= length text)%nat ->
            char_offset utf8_text (Z.of_nat (byte_offset text i)) = Z.of_nat i) as Hstart.
  { intros i Hi. rewrite Hn. f_equal. apply chars_within_between; [done|lia|].
    intros Hlt. apply byte_offset_lt. lia. }
  split_and!.
  - exact Hstart.
  - intros i n Hi Hb. rewrite Hn. f_equal. apply chars_within_between; lia.
  - intros n Hlen. unfold char_offset.
    rewrite slice_to_take, take_ge by done. by rewrite (decode_encode text).
  - intros Hascii i Hi. rewrite <- (Hstart i Hi) at 2.
    by rewrite byte_offset_ascii.
  - intros byte. unfold char_offset.
    destruct (slice_to_prefix utf8_text byte) as [n ->].
    rewrite (decode_take text) by done. unfold len. rewrite length_take.
    pose proof (chars_within_le text n). lia.
  - by apply decode_encode.
Qed.

Lemma dlp_byte_offsets_to_character_offsets_witness :
  let text := [0x61; 0xE9; 0x20AC; 0x1F600; 0x62]%N in
  let utf8_text := [0x61; 0xC3; 0xA9; 0xE2; 0x82; 0xAC; 0xF0; 0x9F; 0x98; 0x80; 0x62]%N in
  encode text = Some utf8_text /\
  char_offset utf8_text 6 = 3 /\ char_offset utf8_text 8 = 3 /\
  char_offset utf8_text 10 = 4.
Proof.
  assert (encode [0x61; 0xE9; 0x20AC; 0x1F600; 0x62]%N
          = Some [0x61; 0xC3; 0xA9; 0xE2; 0x82; 0xAC; 0xF0; 0x9F; 0x98; 0x80; 0x62]%N)
    as Henc by (vm_compute; reflexivity).
  destruct (dlp_byte_offsets_to_character_offsets _ _ Henc) as (Hstart & Hin & _).
  split; [exact Henc|]. split_and!.
  - exact (Hstart 3%nat ltac:(simpl; lia)).
  - apply (Hin 3%nat 8%nat); [simpl; lia|]. vm_compute. lia.
  - exact (Hstart 4%nat ltac:(simpl; lia)).
Defined.

(* ===================================================================== *)
(** * The tables of the DLP recognizer                                    *)
(* ===================================================================== *)

Lemma dict_get_elem (d : dict) k v : dict_get d k = Some v -> (k, v) ∈ d.
Proof.
  induction d as [|[k0 v0] d IH]; simpl; [done|].
  destruct (decide (k0 = k)) as [->|].
  - intros [= ->]. by left.
  - intros H. right. by apply IH.
Qed.

(** The dictionary of a comprehension maps a key to the value of the last
    pair generated with that key. *)
Lemma dict_of_pairs_last pairs d k :
  dict_get (fold_left (fun d '(k, v) => dict_set d k v) pairs d) k
  = match last_with_key pairs k with
    | Some w => Some w
    | None => dict_get d k
    end.
Proof.
  revert d. induction pairs as [|[k' v] pairs IH]; intros d; [done|].
  cbn [fold_left last_with_key]. rewrite IH.
  destruct (last_with_key pairs k); [done|].
  destruct (decide (k' = k)) as [->|Hne].
  - apply dict_get_set_eq.
  - apply dict_get_set_ne. congruence.
Qed.

Lemma sets_get_elem m k v : sets_get m k = Some v -> (k, v) ∈ m.
Proof.
  induction m as [|[k0 v0] m IH]; simpl; [done|].
  destruct (decide (k0 = k)) as [->|].
  - intros [= ->]. by left.
  - intros H. right. by apply IH.
Qed.

Lemma sets_get_None m k : k ∉ m.*1 -> sets_get m k = None.
Proof.
  induction m as [|[k0 v0] m IH]; simpl; [done|].
  intros [Hne Hnin]%not_elem_of_cons.
  destruct (decide (k0 = k)); [done|]. by apply IH.
Qed.

Lemma PRESIDIO_TO_DLP_keys : PRESIDIO_TO_DLP.*1 = PRESIDIO_ENTITIES.
Proof. reflexivity. Qed.

(** What the pairs of [DLP_TO_PRESIDIO] have in common. *)
Lemma DLP_TO_PRESIDIO_pairs dlp presidio :
  (dlp, presidio) ∈ DLP_TO_PRESIDIO ->
  presidio ∈ PRESIDIO_ENTITIES
  /\ dlp ∈ default [] (sets_get PRESIDIO_TO_DLP presidio)
  /\ presidio <> lit "US_SSN" /\ presidio <> lit "IP_ADDRESS".
Proof.
  assert (forallb (fun pair : str * str =>
                     bool_decide (pair.2 ∈ PRESIDIO_ENTITIES)
                     && bool_decide (pair.1 ∈ default [] (sets_get PRESIDIO_TO_DLP pair.2))
                     && negb (bool_decide (pair.2 = lit "US_SSN"))
                     && negb (bool_decide (pair.2 = lit "IP_ADDRESS")))
            DLP_TO_PRESIDIO = true) as H by (vm_compute; reflexivity).
  rewrite forallb_forall in H. intros Hin%list_elem_of_In. specialize (H _ Hin).
  simpl in H. rewrite !andb_true_iff, !negb_true_iff in H.
  destruct H as [[[H1 H2] H3] H4].
  apply bool_decide_eq_true_1 in H1. apply bool_decide_eq_true_1 in H2.
  apply bool_decide_eq_false_1 in H3. apply bool_decide_eq_false_1 in H4. done.
Qed.

(** Every requested info type has an entity type to come back to. *)
Lemma dlp_info_types_mapped entities dlp :
  dlp ∈ dlp_info_types entities -> is_Some (dict_get DLP_TO_PRESIDIO dlp).
Proof.
  assert (forallb (fun item : str * list str =>
                     forallb (fun dlp => bool_decide (is_Some (dict_get DLP_TO_PRESIDIO dlp)))
                             item.2)
            PRESIDIO_TO_DLP = true) as H by (vm_compute; reflexivity).
  rewrite forallb_forall in H.
  unfold dlp_info_types. intros Hin%list_elem_of_In.
  apply in_flat_map in Hin as (entity & _ & Hin).
  destruct (sets_get PRESIDIO_TO_DLP entity) as [dlps|] eqn:E; [|done].
  apply sets_get_elem, list_elem_of_In in E. specialize (H _ E). simpl in H, Hin.
  rewrite forallb_forall in H. specialize (H _ Hin).
  by apply bool_decide_eq_true_1 in H.
Qed.

(** The tables of the DLP recognizer agree with the enumeration of entity
    types: [PRESIDIO_TO_DLP] has exactly the members of
    [PRESIDIO_ENTITIES] as keys, in their order; [DLP_TO_PRESIDIO] maps an
    info type to the last entity type that lists it, which is a member of
    the enumeration; every info type that can be requested is mapped; and
    since [GOVERNMENT_ID] and [TECHNICAL_ID] are listed again further down,
    no info type is mapped to [US_SSN] or to [IP_ADDRESS]. *)
Theorem dlp_tables_agree :
  PRESIDIO_TO_DLP.*1 = PRESIDIO_ENTITIES
  /\ (forall dlp,
        dict_get DLP_TO_PRESIDIO dlp
        = last_with_key (comprehension_pairs PRESIDIO_TO_DLP) dlp)
  /\ (forall dlp presidio,
        dict_get DLP_TO_PRESIDIO dlp = Some presidio ->
        presidio ∈ PRESIDIO_ENTITIES
        /\ dlp ∈ default [] (sets_get PRESIDIO_TO_DLP presidio))
  /\ (forall entities dlp,
        dlp ∈ dlp_info_types entities -> is_Some (dict_get DLP_TO_PRESIDIO dlp))
  /\ (forall dlp,
        dict_get DLP_TO_PRESIDIO dlp <> Some (lit "US_SSN")
        /\ dict_get DLP_TO_PRESIDIO dlp <> Some (lit "IP_ADDRESS"))
  /\ dict_get DLP_TO_PRESIDIO (lit "GOVERNMENT_ID") = Some (lit "GOVERNMENT_ID")
  /\ dict_get DLP_TO_PRESIDIO (lit "TECHNICAL_ID") = Some (lit "TECHNICAL_ID").
Proof.
  split_and!.
  - reflexivity.
  - intros dlp. unfold DLP_TO_PRESIDIO, dict_of_pairs.
    rewrite dict_of_pairs_last. by destruct (last_with_key _ dlp).
  - intros dlp p Hget. apply dict_get_elem, DLP_TO_PRESIDIO_pairs in Hget. tauto.
  - apply dlp_info_types_mapped.
  - intros dlp. split; intros Hget;
      apply dict_get_elem, DLP_TO_PRESIDIO_pairs in Hget; tauto.
  - vm_compute. reflexivity.
  - vm_compute. reflexivity.
Qed.

(* ===================================================================== *)
(** * [GoogleDlpRecognizer.analyze]                                       *)
(* ===================================================================== *)

Lemma dlp_info_types_nil entities :
  dlp_info_types entities = [] <-> Forall (fun e => e ∉ PRESIDIO_ENTITIES) entities.
Proof.
  assert (forall e, e ∈ PRESIDIO_ENTITIES ->
                    default [] (sets_get PRESIDIO_TO_DLP e) <> []) as Hsome.
  { assert (forallb (fun e => nonempty (default [] (sets_get PRESIDIO_TO_DLP e)))
              PRESIDIO_ENTITIES = true) as H by (vm_compute; reflexivity).
    rewrite forallb_forall in H. intros e He%list_elem_of_In.
    specialize (H e He). by destruct (default [] _). }
  unfold dlp_info_types. induction entities as [|e entities IH].
  - split; [constructor|done].
  - cbn [flat_map]. rewrite Forall_cons, <- IH. split.
    + intros [H1 H2]%app_eq_nil. split; [|done].
      intros He. by apply (Hsome e He).
    + intros [Hn ->]. rewrite app_nil_r, sets_get_None; [done|].
      by rewrite PRESIDIO_TO_DLP_keys.
Qed.

(** The text goes to the DLP service only when it is not empty and some
    requested entity type has a DLP info type; the request then names the
    info types of the requested entity types, asks for the quotes and for
    findings from likelihood [POSSIBLE] on, and carries the text.  When the
    call fails the recognizer logs the error and answers with no result. *)
Theorem dlp_request_only_when_needed
    (inspect_content : InspectRequest -> option (list Finding))
    (parent : str) (text : ustr) (entities : list str) :
  let run := GoogleDlpRecognizer_analyze inspect_content parent text entities in
  let request := mkInspectRequest parent (dlp_info_types entities) true POSSIBLE text in
  (text = [] -> run = ([], []))
  /\ (text <> [] -> Forall (fun e => e ∉ PRESIDIO_ENTITIES) entities ->
      run = ([LogDebugNoInfoTypes], []))
  /\ (text <> [] -> Exists (fun e => e ∈ PRESIDIO_ENTITIES) entities ->
      filter (fun ev => is_inspect ev = true) run.1 = [InspectContent request]
      /\ (inspect_content request = None ->
          run = ([InspectContent request; LogErrorDlp], [])))
  /\ (filter (fun ev => is_inspect ev = true) run.1 = [] -> run.2 = []).
Proof.
  intros run request. subst run. unfold GoogleDlpRecognizer_analyze.
  destruct text as [|c text]; [done|]. split_and!; try done.
  - intros _ Hnone. apply dlp_info_types_nil in Hnone. by rewrite Hnone.
  - intros _ Hsome.
    destruct (dlp_info_types entities) as [|t ts] eqn:E.
    { apply dlp_info_types_nil in E. apply Exists_exists in Hsome as (e & Hin & He).
      rewrite Forall_forall in E. by destruct (E e Hin). }
    fold request. destruct (inspect_content request) as [findings|]; [|done].
    split; [|done]. by destruct (encode (c :: text)).
  - destruct (dlp_info_types entities) as [|t ts]; [done|].
    destruct (inspect_content _) as [findings|]; [|done].
    by destruct (encode (c :: text)).
Qed.

Lemma finding_result_sound utf8_text text finding res :
  encode text = Some utf8_text ->
  finding_result utf8_text finding = Some res ->
  dict_get DLP_TO_PRESIDIO (info_type_name finding) = Some (entity_type res)
  /\ score res = _convert_likelihood_to_score (finding_likelihood finding)
  /\ start res = char_offset utf8_text (byte_range_start finding)
  /\ end_ res = char_offset utf8_text (byte_range_end finding).
Proof.
  intros Henc. unfold finding_result.
  destruct (dict_get DLP_TO_PRESIDIO (info_type_name finding)) as [p|]; [|done].
  by intros [= <-].
Qed.

Lemma char_offset_within text utf8_text byte :
  encode text = Some utf8_text -> 0 <= char_offset utf8_text byte <= len text.
Proof.
  intros Henc. unfold char_offset.
  destruct (slice_to_prefix utf8_text byte) as [n ->].
  rewrite (decode_take text) by done. unfold len. rewrite length_take.
  pose proof (chars_within_le text n). lia.
Qed.

(** Whatever the DLP service answers, every result of the recognizer
    comes from a finding whose info type [DLP_TO_PRESIDIO] maps to the
    result's entity type; that type is a member of [PRESIDIO_ENTITIES]
    and is never [US_SSN] or [IP_ADDRESS]; the score is one of 0, 0.2, 0.4,
    0.6, 0.8 and 1; and both offsets lie within the text.  The results keep
    the order of the findings. *)
Theorem dlp_results_within_enumeration_and_text
    (inspect_content : InspectRequest -> option (list Finding))
    (parent : str) (text : ustr) (entities : list str) :
  let results := (GoogleDlpRecognizer_analyze inspect_content parent text entities).2 in
  (forall res, res ∈ results ->
     entity_type res ∈ PRESIDIO_ENTITIES
     /\ entity_type res <> lit "US_SSN" /\ entity_type res <> lit "IP_ADDRESS"
     /\ score res ∈ likelihood_scores
     /\ 0 <= start res <= len text /\ 0 <= end_ res <= len text)
  /\ (results = [] \/
      exists request findings utf8_text,
        inspect_content request = Some findings
        /\ encode text = Some utf8_text
        /\ results = omap (finding_result utf8_text) findings).
Proof.
  intros results. subst results. unfold GoogleDlpRecognizer_analyze.
  destruct text as [|c text]; [split; [by intros ? ?%elem_of_nil|by left]|].
  destruct (dlp_info_types entities) as [|t ts];
    [split; [by intros ? ?%elem_of_nil|by left]|].
  set (request := mkInspectRequest _ _ _ _ _).
  destruct (inspect_content request) as [findings|] eqn:Hcall;
    [|split; [by intros ? ?%elem_of_nil|by left]].
  destruct (encode (c :: text)) as [utf8_text|] eqn:Henc;
    [|split; [by intros ? ?%elem_of_nil|by left]].
  cbn [snd]. split; [|right; by exists request, findings, utf8_text].
  intros res Hres. apply list_elem_of_omap in Hres as (finding & _ & Hf).
  destruct (finding_result_sound _ _ _ _ Henc Hf) as (Hent & Hscore & Hs & He).
  apply dict_get_elem, DLP_TO_PRESIDIO_pairs in Hent as (H1 & _ & H3 & H4).
  split_and!; try done.
  - rewrite Hscore. unfold likelihood_scores.
    destruct (finding_likelihood finding); simpl;
      repeat first [by apply list_elem_of_here | apply list_elem_of_further].
  - rewrite Hs. by apply (char_offset_within (c :: text)).
  - rewrite Hs. by apply (char_offset_within (c :: text)).
  - rewrite He. by apply (char_offset_within (c :: text)).
  - rewrite He. by apply (char_offset_within (c :: text)).
Qed.

(* ===================================================================== *)
(** * Alerts and metrics                                                  *)
(* ===================================================================== *)

(** [send_alert] returns whatever sensu does. *)
Lemma send_alert_returns sensu_send_alert status message name :
  (send_alert sensu_send_alert status message name).2 = inr tt.
Proof.
  unfold send_alert. destruct (sensu_status status); [|done].
  by destruct (sensu_send_alert _ _ _ _).
Qed.

Lemma send_alert_critical sensu_send_alert message name :
  let text := message ++ lit (String "010"%char EmptyString) in
  filter (fun ev => is_sensu ev = true)
         (send_alert sensu_send_alert (lit "critical") message name).1
  = [SensuSendAlert CRITICAL text name TEAM_KEY].
Proof.
  unfold send_alert. change (sensu_status (lit "critical")) with (Some CRITICAL).
  cbv beta iota zeta. by destruct (sensu_send_alert _ _ _ _).
Qed.

Lemma io_bind_returned {A B} (m : IO A) (k : A -> IO B) evs a :
  m = (evs, inr a) -> m ≫= k = (evs ++ (k a).1, (k a).2).
Proof. intros ->. iounfold. by destruct (k a). Qed.

Lemma incr_returns statsd stat_name :
  incr statsd stat_name
  = ((if statsd then [StatsdIncr stat_name] else []), inr tt).
Proof. by destruct statsd. Qed.

(** The wrapper for coroutines records one timing after the call whether
    the call returns or raises, and passes the result or the exception on;
    the wrapper for plain functions records a timing only when the call
    returns.  With a statsd client the timing goes to statsd, without one
    it is logged; without a client [incr] does nothing. *)
Theorem timing_wrappers_record {A} (statsd : bool) (stat_name : str)
    (start_time end_time : Q) (func : IO A) :
  let time_taken_in_ms := ((end_time - start_time) * 1000)%Q in
  let timing :=
    if statsd then StatsdTiming stat_name time_taken_in_ms 1
    else LogInfoMetric stat_name time_taken_in_ms in
  timing_to_statsd_async statsd stat_name start_time end_time func
  = (func.1 ++ [timing], func.2)
  /\ timing_to_statsd_sync statsd stat_name start_time end_time func
     = (func.1 ++ (if func.2 is inr _ then [timing] else []), func.2)
  /\ incr false stat_name = ([], inr tt)
  /\ incr true stat_name = ([StatsdIncr stat_name], inr tt).
Proof.
  intros ms timing. subst timing ms.
  unfold timing_to_statsd_async, timing_to_statsd_sync, _timing.
  destruct func as [evs [e|a]]; destruct statsd; iounfold; cbn [fst snd];
    rewrite ?app_nil_r; done.
Qed.

(* ===================================================================== *)
(** * The health check and the dependency of the mask endpoint            *)
(* ===================================================================== *)

Lemma raise_after_alert {A} sensu_send_alert log message name (e : ApiExn) :
  let text := message ++ lit (String "010"%char EmptyString) in
  let run : IO A :=
    io_tell [LogError log] ;;
    send_alert sensu_send_alert (lit "critical") message name ;;
    io_raise e in
  run.2 = inl e
  /\ filter (fun ev => is_sensu ev = true) run.1
     = [SensuSendAlert CRITICAL text name TEAM_KEY].
Proof.
  cbv zeta. unfold send_alert.
  change (sensu_status (lit "critical")) with (Some CRITICAL). cbv beta iota zeta.
  by destruct (sensu_send_alert _ _ _ _).
Qed.

Lemma getattr_ready state :
  getattr_initialized state = true /\ is_Some (getattr_analyzer state)
  <-> state_service_initialized_successfully state = Some true
      /\ exists analyzer, state_analyzer_engine state = Some (Some analyzer).
Proof.
  unfold getattr_initialized, getattr_analyzer.
  destruct state as [[[a|]|] [[|]|]]; simpl; split.
  all: try (intros [[=] _]; fail); try (intros [_ [? [=]]]; fail);
       try (intros [_ [? [=]]]; fail).
  all: try (intros _; split; [done|by eauto]; fail).
Qed.

(** The health check and the dependency that guards the mask endpoint read
    the same two attributes of the application state and agree: the health
    check says "healthy" exactly when the dependency hands an analyzer to
    the endpoint, which is when the service flag is set and an analyzer is
    stored.  Otherwise the health check says "unhealthy" and the
    dependency raises [HTTPException] with status 503 after one critical
    alert named "peekguard_analyzer_failed". *)
Theorem health_agrees_with_mask_dependency
    (sensu_send_alert : SensuStatus -> str -> str -> str -> bool)
    (state : AppState) :
  let health := detailed_health_check state in
  let dependency := get_analyzer_engine_dependency sensu_send_alert state in
  (HealthResponse.status health = lit "healthy"
   <-> exists analyzer, dependency = ([], inr analyzer))
  /\ (HealthResponse.status health = lit "healthy"
      <-> state_service_initialized_successfully state = Some true
          /\ exists analyzer, state_analyzer_engine state = Some (Some analyzer))
  /\ (HealthResponse.status health <> lit "healthy" ->
      HealthResponse.status health = lit "unhealthy"
      /\ exists detail message,
           dependency.2 = inl (HTTPError 503 detail)
           /\ filter (fun ev => is_sensu ev = true) dependency.1
              = [SensuSendAlert CRITICAL message (lit "peekguard_analyzer_failed")
                   TEAM_KEY]).
Proof.
  intros health dependency. subst health dependency.
  rewrite <- getattr_ready.
  unfold detailed_health_check, get_analyzer_engine_dependency.
  destruct (getattr_initialized state); cbn [negb andb];
    [destruct (getattr_analyzer state) as [a|]|].
  - rewrite bool_decide_eq_true_2 by eauto. cbn [HealthResponse.status].
    split_and!.
    + split; [intros _; by exists a|done].
    + split; [intros _; split; [done|by eauto]|done].
    + intros H. by destruct H.
  - rewrite bool_decide_eq_false_2 by (by intros [? ?]). cbn [HealthResponse.status].
    split_and!.
    + split; [intros H; vm_compute in H; discriminate H|].
      intros [x Hx]. apply (f_equal snd) in Hx.
      rewrite (proj1 (raise_after_alert _ _ _ _ _)) in Hx. discriminate Hx.
    + split; [intros H; vm_compute in H; discriminate H|intros [_ [? [=]]]].
    + intros _. split; [done|]. eexists _, _. apply raise_after_alert.
  - cbn [HealthResponse.status]. split_and!.
    + split; [intros H; vm_compute in H; discriminate H|].
      intros [x Hx]. apply (f_equal snd) in Hx.
      rewrite (proj1 (raise_after_alert _ _ _ _ _)) in Hx. discriminate Hx.
    + split; [intros H; vm_compute in H; discriminate H|intros [[=] _]].
    + intros _. split; [done|]. eexists _, _. apply raise_after_alert.
Qed.

(* ===================================================================== *)
(** * The mask endpoint                                                   *)
(* ===================================================================== *)

Lemma mask_sentence_valid_returns pyap_parse sentence analyzer language
    presidio_entities existing_mappings :
  all_valid presidio_entities ->
  exists masked mapping,
    outcome (mask_sentence pyap_parse sentence analyzer language presidio_entities
               existing_mappings) = inr (masked, mapping).
Proof.
  intros Hvalid. destruct sentence as [|c s] eqn:E.
  - exists [], []. by rewrite mask_sentence_empty_text.
  - rewrite mask_sentence_pure by done. eauto.
Qed.

Section MaskEndpoint.

Variable pyap_parse : str -> list Address.
Variable sensu_send_alert : SensuStatus -> str -> str -> str -> bool.
Variable statsd : bool.
Variable str_of_exception : ApiExn -> str.
Variable request_data : MaskRequest.t.
Variable analyzer : AnalyzerEngine.

Local Abbreviation run :=
  (mask_sentence pyap_parse (MaskRequest.text_data request_data) (Some analyzer)
     (MaskRequest.language request_data) (MaskRequest.entities request_data)
     (MaskRequest.existing_mappings request_data)).

Local Abbreviation api :=
  (mask_pii_data pyap_parse sensu_send_alert statsd str_of_exception request_data
     analyzer).

Lemma mask_pii_data_returned masked mapping :
  outcome run = inr (masked, mapping) ->
  api = ((Core <$> events run)
           ++ (if statsd then [StatsdIncr (lit "peekguard.api.masking.success")] else []),
         inr (MaskResponse.mk masked mapping)).
Proof.
  unfold mask_pii_data, incr, outcome, events. destruct run as [evs r]. cbn [fst snd].
  intros ->. destruct statsd; iounfold; cbn [fst snd]; by rewrite ?app_nil_r.
Qed.

Lemma mask_pii_data_raised e :
  outcome run = inl e ->
  api = ((Core <$> events run)
           ++ [LogError
                 (lit "Error during mask PII operation, re-raising for generic handler.")]
           ++ (if statsd then [StatsdIncr (lit "peekguard.api.masking.failure")] else [])
           ++ (send_alert sensu_send_alert (lit "critical")
                 (lit "Unexpected error while masking data: "
                    ++ str_of_exception (Raised e))
                 (lit "peekguard_mask_api_failed")).1,
         inl (Raised e)).
Proof.
  unfold mask_pii_data, incr, outcome, events. destruct run as [evs r]. cbn [fst snd].
  intros ->.
  pose proof (send_alert_returns sensu_send_alert (lit "critical")
                (lit "Unexpected error while masking data: "
                   ++ str_of_exception (Raised e))
                (lit "peekguard_mask_api_failed")) as Hret.
  destruct statsd; iounfold; cbn [fst snd app];
    destruct (send_alert _ _ _ _) as [aevs ar]; cbn [fst snd] in *; subst ar;
    by rewrite ?app_nil_r.
Qed.

End MaskEndpoint.


(* ===================================================================== *)
(** * The two endpoints together                                          *)
(* ===================================================================== *)

Lemma unmask_pii_data_returns sensu_send_alert statsd str_of_exception request_data :
  unmask_pii_data sensu_send_alert statsd str_of_exception request_data
  = ((if statsd then [StatsdIncr (lit "peekguard.api.unmasking.success")] else []),
     inr (UnmaskResponse.mk
            (_unmask_sentence (UnmaskRequest.masked_data request_data)
               (UnmaskRequest.mappings request_data)))).
Proof. unfold unmask_pii_data, incr. by destruct statsd. Qed.



(* ===================================================================== *)
(** * The configuration                                                   *)
(* ===================================================================== *)

Lemma split_on_nonempty sep s : split_on sep s <> [].
Proof.
  induction s as [|c s IH]; simpl; [done|].
  destruct (decide (c = sep)); [done|]. by destruct (split_on sep s).
Qed.

(** Splitting at a separator splits on either side of it. *)
Lemma split_on_app sep p q :
  split_on sep (p ++ sep :: q) = split_on sep p ++ split_on sep q.
Proof.
  induction p as [|c p IH]; simpl.
  - by rewrite decide_True.
  - destruct (decide (c = sep)); [by rewrite IH|].
    rewrite IH. pose proof (split_on_nonempty sep p).
    by destruct (split_on sep p).
Qed.

Lemma follow_app result keys keys' :
  follow result (keys ++ keys')
  = match follow result keys with
    | inl e => inl e
    | inr v => follow v keys'
    end.
Proof.
  revert result. induction keys as [|k keys IH]; intros result; simpl; [done|].
  destruct (subscript result k); [done|]. apply IH.
Qed.

Section ConfigFacts.

Variable HSFT_CONF_ENV : option str.
Variable read_config : Environment -> option (list (str * toml)).

Lemma current_environment_spec g :
  current_environment HSFT_CONF_ENV g = ((environment_events HSFT_CONF_ENV), g, inr (the_environment HSFT_CONF_ENV)).
Proof.
  unfold current_environment, environment_events, the_environment.
  by destruct (Environment_of_value _).
Qed.

Lemma _load_config_spec g :
  _load_config HSFT_CONF_ENV read_config g
  = match read_config (the_environment HSFT_CONF_ENV) with
    | None => ((environment_events HSFT_CONF_ENV), g, inl OtherError)
    | Some loaded =>
        ((environment_events HSFT_CONF_ENV),
         mkGlobals loaded (vault_client g) (_statsd_client g),
         if nonempty loaded then inr tt else inl AssertionError)
    end.
Proof.
  unfold _load_config. initunfold. rewrite current_environment_spec.
  destruct (read_config (the_environment HSFT_CONF_ENV)) as [loaded|]; [|by rewrite app_nil_r].
  destruct (nonempty loaded); by rewrite !app_nil_r.
Qed.

Lemma get_config_spec {T} key (coerce : Coerce T) g :
  get_config HSFT_CONF_ENV read_config key coerce g
  = if nonempty key then
      match ensure_config HSFT_CONF_ENV read_config g with
      | (evs, g', inl e) => (evs, g', inl e)
      | (evs, g', inr _) =>
          match follow (TTable (_config g')) (split_on "."%char key) with
          | inl (KeyError k) =>
              (evs ++ [LogExceptionUnknownConfig key], g', inl (KeyError k))
          | inl e => (evs, g', inl e)
          | inr result =>
              match coerce with
              | Callable f => (evs, g', f result)
              | NotCallable => (evs, g', inl TypeError)
              end
          end
      end
    else ([], g, inl AssertionError).
Proof.
  unfold get_config, ensure_config. destruct (nonempty key); [|done].
  initunfold. cbn [app].
  destruct (nonempty (_config g)).
  - cbn [app].
    destruct (follow (TTable (_config g)) (split_on "."%char key)) as [[]|result];
      rewrite ?app_nil_r; try done.
    destruct coerce as [f|]; [|done]. by destruct (f result).
  - destruct (_load_config HSFT_CONF_ENV read_config g) as [[evs g'] [e|[]]]; [done|].
    cbn [app].
    destruct (follow (TTable (_config g')) (split_on "."%char key)) as [[]|result];
      rewrite ?app_nil_r; try done.
    destruct coerce as [f|]; [|by rewrite app_nil_r].
    destruct (f result); by rewrite app_nil_r.
Qed.

Lemma ensure_config_keeps g :
  vault_client (ensure_config HSFT_CONF_ENV read_config g).1.2 = vault_client g
  /\ _statsd_client (ensure_config HSFT_CONF_ENV read_config g).1.2 = _statsd_client g.
Proof.
  unfold ensure_config. destruct (nonempty (_config g)); [done|].
  rewrite _load_config_spec. by destruct (read_config (the_environment HSFT_CONF_ENV)).
Qed.

(** [get_config] leaves the two clients as they are. *)
Lemma get_config_keeps {T} key (coerce : Coerce T) g :
  vault_client (get_config HSFT_CONF_ENV read_config key coerce g).1.2 = vault_client g
  /\ _statsd_client (get_config HSFT_CONF_ENV read_config key coerce g).1.2
     = _statsd_client g.
Proof.
  rewrite get_config_spec. destruct (nonempty key); [|done].
  pose proof (ensure_config_keeps g) as H.
  destruct (ensure_config HSFT_CONF_ENV read_config g) as [[evs g'] [e|[]]]; [done|]. cbn [fst snd] in H.
  destruct (follow _ _) as [[]|result]; try done.
  by destruct coerce.
Qed.

(** Called with something that cannot be called as [coerce], [get_config]
    raises. *)
Lemma get_config_not_callable {T} key g :
  exists e, (get_config HSFT_CONF_ENV read_config (T := T) key NotCallable g).2 = inl e.
Proof.
  rewrite get_config_spec. destruct (nonempty key); [|by eauto].
  destruct (ensure_config HSFT_CONF_ENV read_config g) as [[evs g'] [e|[]]]; [by eauto|].
  destruct (follow _ _) as [[]|result]; by eauto.
Qed.

(** [get_config] neither touches the semaphore nor sends an alert. *)
Lemma environment_events_quiet :
  Forall (fun ev => is_engine ev = false /\ is_alert ev = false)
         (environment_events HSFT_CONF_ENV).
Proof.
  unfold environment_events. destruct (Environment_of_value _); by repeat constructor.
Qed.

Lemma get_config_events {T} key (coerce : Coerce T) g :
  Forall (fun ev => is_engine ev = false /\ is_alert ev = false)
         (get_config HSFT_CONF_ENV read_config key coerce g).1.1.
Proof.
  rewrite get_config_spec. destruct (nonempty key); [|by constructor].
  assert (Forall (fun ev => is_engine ev = false /\ is_alert ev = false)
                 (ensure_config HSFT_CONF_ENV read_config g).1.1) as H.
  { unfold ensure_config. destruct (nonempty (_config g)); [by constructor|].
    rewrite _load_config_spec.
    destruct (read_config (the_environment HSFT_CONF_ENV));
      apply environment_events_quiet. }
  destruct (ensure_config HSFT_CONF_ENV read_config g) as [[evs g'] [e|[]]]; [done|].
  cbn [fst snd] in H.
  destruct (follow _ _) as [[]|result]; cbn [fst snd]; try done.
  - apply Forall_app. split; [done|]. by repeat constructor.
  - by destruct coerce.
Qed.

End ConfigFacts.

(** [get_config] on a configuration that is loaded follows the dotted key
    from table to table and applies [coerce] to what it finds, leaving the
    module-level variables as they are: a key with a missing part raises
    [KeyError] for that part after one log line, never yielding a default;
    a part looked up in a value that is no table raises [TypeError]; an
    empty key fails the assertion.  A key [p.q] finds what [q] finds in the
    value of [p].  When what is passed as [coerce] cannot be called, as in
    [get_config("vault", "endpoint")], the call raises whatever the
    configuration holds. *)
Theorem get_config_follows_dotted_key {T}
    (HSFT_CONF_ENV : option str)
    (read_config : Environment -> option (list (str * toml)))
    (g : Globals) (key : str) (f : toml -> InitExn + T) :
  let found := follow (TTable (_config g)) (split_on "."%char key) in
  (key <> [] -> _config g <> [] ->
   get_config HSFT_CONF_ENV read_config key (Callable f) g
   = match found with
     | inr result => ([], g, f result)
     | inl (KeyError k) => ([LogExceptionUnknownConfig key], g, inl (KeyError k))
     | inl e => ([], g, inl e)
     end)
  /\ get_config HSFT_CONF_ENV read_config [] (Callable f) g = ([], g, inl AssertionError)
  /\ (forall p q result,
        follow result (split_on "."%char (p ++ "."%char :: q))
        = match follow result (split_on "."%char p) with
          | inl e => inl e
          | inr v => follow v (split_on "."%char q)
          end)
  /\ (forall k items, subscript (TTable items) k
                      = match table_get items k with
                        | Some v => inr v
                        | None => inl (KeyError k)
                        end)
  /\ (exists e, (get_config HSFT_CONF_ENV read_config (T := T) key NotCallable g).2
                = inl e).
Proof.
  intros found. split_and!.
  - intros Hkey Hcfg. rewrite get_config_spec. unfold ensure_config.
    destruct key as [|c key]; [done|]. cbn [nonempty].
    assert (nonempty (_config g) = true) as -> by (by destruct (_config g)).
    subst found. by destruct (follow _ _) as [[]|result].
  - done.
  - intros p q result. by rewrite split_on_app, follow_app.
  - done.
  - apply get_config_not_callable.
Qed.

(* ===================================================================== *)
(** * Loading the analyzer                                                *)
(* ===================================================================== *)

Section EngineFacts.

Variables semaphore_opens semaphore_acquires semaphore_releases semaphore_closes
  nlp_engine_and_registry : bool.
Variable supported_languages : option (list str).
Variable base_analyze : list str -> option AnalyzerEngine.

Local Abbreviation loaded :=
  (load_model nlp_engine_and_registry supported_languages base_analyze).

Lemma load_model_outcomes :
  (loaded.2.2 = true <-> is_Some loaded.2.1)
  /\ (loaded.2.2 = true ->
      nlp_engine_and_registry = true
      /\ exists supported_langs analyze,
           supported_languages = Some supported_langs
           /\ base_analyze supported_langs = Some analyze
           /\ loaded.2.1 = Some (CustomAnalyzer analyze))
  /\ SemaphoreRelease ∉ loaded.1.
Proof.
  unfold load_model.
  destruct nlp_engine_and_registry; [destruct supported_languages as [langs|]|];
    [destruct (base_analyze langs) as [analyze|] eqn:Eb| |]; cbn [fst snd].
  - split_and!; [split; [by eauto|done]| |apply not_elem_of_nil].
    intros _. split; [done|]. by exists langs, analyze.
  - split_and!; [split; [done|by intros [? ?]]|done|].
    intros [H|H%elem_of_nil]%elem_of_cons; [discriminate H|done].
  - split_and!; [split; [done|by intros [? ?]]|done|].
    intros [H|H%elem_of_nil]%elem_of_cons; [discriminate H|done].
  - split_and!; [split; [done|by intros [? ?]]|done|].
    intros [H|H%elem_of_nil]%elem_of_cons; [discriminate H|done].
Qed.

Lemma release_semaphore_outcomes result :
  let released := release_semaphore semaphore_releases semaphore_closes result in
  (exists rest, released.1 = SemaphoreRelease :: rest
                /\ filter (fun ev => is_release ev = true) rest = [])
  /\ (released.2 = result \/ released.2 = inl OtherError)
  /\ (semaphore_releases = true -> semaphore_closes = true -> released.2 = result)
  /\ (semaphore_releases = false \/ semaphore_closes = false ->
      released.2 = inl OtherError).
Proof.
  unfold release_semaphore.
  destruct semaphore_releases, semaphore_closes; cbn [fst snd];
    split_and!; try (by eauto); try done; try (by intros [[=]|[=]]).
Qed.

(** What [initialize_analyzer_engine] returns is an analyzer with [True] or
    [None] with [False]. *)
Lemma initialize_analyzer_engine_returned analyzer_instance initialization_successful :
  (initialize_analyzer_engine semaphore_opens semaphore_acquires semaphore_releases
     semaphore_closes nlp_engine_and_registry supported_languages base_analyze).2
  = inr (analyzer_instance, initialization_successful) ->
  initialization_successful = true <-> is_Some analyzer_instance.
Proof.
  unfold initialize_analyzer_engine.
  pose proof load_model_outcomes as (Hflag & _ & _).
  assert (false = true <-> is_Some (@None AnalyzerEngine)) as Hnone
    by (split; [done|by intros [? ?]]).
  destruct semaphore_opens; [|by intros [= <- <-]].
  destruct semaphore_acquires.
  - destruct loaded as [evs [a ok]]. cbn [fst snd] in Hflag.
    unfold release_semaphore.
    destruct semaphore_releases, semaphore_closes; cbn [fst snd]; try done.
    by intros [= <- <-].
  - unfold release_semaphore.
    destruct semaphore_releases, semaphore_closes; cbn [fst snd]; try done.
    by intros [= <- <-].
Qed.

End EngineFacts.

(** [initialize_analyzer_engine] returns an analyzer and [True] together
    or [None] and [False] together; the analyzer is a [CustomAnalyzer],
    and it is returned only when every step succeeded.  When the
    semaphore was opened it is released once, after the model was loaded
    or the loading failed, and also when acquiring it failed; when it was
    not opened, it is neither acquired nor released.  The function raises
    only when releasing or closing the semaphore does. *)
Theorem analyzer_loading_outcomes
    (semaphore_opens semaphore_acquires semaphore_releases semaphore_closes
       nlp_engine_and_registry : bool)
    (supported_languages : option (list str))
    (base_analyze : list str -> option AnalyzerEngine) :
  let run :=
    initialize_analyzer_engine semaphore_opens semaphore_acquires semaphore_releases
      semaphore_closes nlp_engine_and_registry supported_languages base_analyze in
  (forall analyzer_instance initialization_successful,
     run.2 = inr (analyzer_instance, initialization_successful) ->
     (initialization_successful = true <-> is_Some analyzer_instance)
     /\ (initialization_successful = true ->
         semaphore_acquires = true /\ nlp_engine_and_registry = true
         /\ exists supported_langs analyze,
              supported_languages = Some supported_langs
              /\ base_analyze supported_langs = Some analyze
              /\ analyzer_instance = Some (CustomAnalyzer analyze)))
  /\ ((exists e, run.2 = inl e)
      <-> semaphore_opens = true
          /\ (semaphore_releases = false \/ semaphore_closes = false))
  /\ filter (fun ev => is_release ev = true) run.1
     = (if semaphore_opens then [SemaphoreRelease] else [])
  /\ (semaphore_opens = true ->
      exists loading rest,
        run.1 = SemaphoreOpen :: SemaphoreAcquire :: loading ++ SemaphoreRelease :: rest
        /\ SemaphoreRelease ∉ loading)
  /\ (semaphore_opens = false -> run = ([SemaphoreOpen;
        LogErrorEngine (lit "An error occurred during semaphore-based model loading")],
        inr (None, false))).
Proof.
  intros run. subst run. unfold initialize_analyzer_engine.
  destruct semaphore_opens.
  2:{ split_and!; try done.
      - intros a ok [= <- <-]. split; [split; [done|by intros [? ?]]|done].
      - split; [intros [? [=]]|intros [[=] _]]. }
  destruct (load_model_outcomes nlp_engine_and_registry supported_languages
              base_analyze) as (Hflag & Hgood & Hnorel).
  set (loaded := load_model nlp_engine_and_registry supported_languages base_analyze)
    in *.
  set (evs_result :=
         if semaphore_acquires
         then let '(evs, returned) := loaded in (SemaphoreAcquire :: evs, inr returned)
         else ([SemaphoreAcquire;
                LogErrorEngine
                  (lit "An error occurred during semaphore-based model loading")],
               inr (None, false))).
  assert (exists loading result,
            evs_result = (SemaphoreAcquire :: loading, inr result)
            /\ (SemaphoreRelease ∉ loading)
            /\ (result.2 = true <-> is_Some result.1)
            /\ (result.2 = true ->
                semaphore_acquires = true /\ nlp_engine_and_registry = true
                /\ exists supported_langs analyze,
                     supported_languages = Some supported_langs
                     /\ base_analyze supported_langs = Some analyze
                     /\ result.1 = Some (CustomAnalyzer analyze)))
    as (loading & result & -> & Hloading & Hres1 & Hres2).
  { subst evs_result. destruct semaphore_acquires.
    - destruct loaded as [evs [a ok]] eqn:El. cbn [fst snd] in *.
      exists evs, (a, ok). cbn [fst snd]. split_and!; try done.
      intros Hok. split; [done|]. by apply Hgood.
    - eexists [_], (None, false). cbn [fst snd]. split_and!; [done| | |done].
      + intros [H|H%elem_of_nil]%elem_of_cons; [discriminate H|done].
      + split; [done|by intros [? ?]]. }
  destruct (release_semaphore_outcomes semaphore_releases semaphore_closes
              (inr result)) as ((rest & Hrel & Hrest) & Hor & Hboth & Hfail).
  destruct (release_semaphore semaphore_releases semaphore_closes (inr result))
    as [evs' result'] eqn:Er. cbn [fst snd] in *. subst evs'.
  split_and!.
  - intros a ok Hr. destruct Hor as [->| ->]; [|discriminate Hr].
    injection Hr as ->. cbn [fst snd] in *. done.
  - split.
    + intros [e He].
      split; [done|]. destruct semaphore_releases, semaphore_closes; try by eauto.
      rewrite Hboth in He by done. discriminate He.
    + intros [_ H]. rewrite (Hfail H). by eauto.
  - cbn [app]. rewrite !filter_cons, decide_False by done.
    rewrite decide_False by done. rewrite filter_app, filter_cons, decide_True by done.
    rewrite Hrest.
    replace (filter (fun ev => is_release ev = true) loading) with (@nil EngineEvent);
      [done|].
    symmetry. clear -Hloading. induction loading as [|ev l IH]; [done|].
    apply not_elem_of_cons in Hloading as [Hne Hl].
    rewrite filter_cons, decide_False; [by apply IH|].
    by destruct ev.
  - intros _. by exists loading, rest.
  - intros [=].
Qed.


(* ===================================================================== *)
(** * Start-up of the service                                             *)
(* ===================================================================== *)

Lemma init_bind_raised {A B} (m : Init A) (k : A -> Init B) g evs g' e :
  m g = (evs, g', inl e) -> (m ≫= k) g = (evs, g', inl e).
Proof. intros H. initunfold. by rewrite H. Qed.

Lemma init_bind_returned {A B} (m : Init A) (k : A -> Init B) g evs g' a :
  m g = (evs, g', inr a) ->
  (m ≫= k) g = (evs ++ (k a g').1.1, (k a g').1.2, (k a g').2).
Proof. intros H. initunfold. rewrite H. by destruct (k a g') as [[? ?] ?]. Qed.

Lemma init_try_raised {A} (body : Init A) handler g evs g' e :
  body g = (evs, g', inl e) ->
  init_try body handler g
  = (evs ++ (handler e g').1.1, (handler e g').1.2, (handler e g').2).
Proof. intros H. unfold init_try. rewrite H. by destruct (handler e g') as [[? ?] ?]. Qed.

Lemma init_try_returned {A} (body : Init A) handler g evs g' a :
  body g = (evs, g', inr a) -> init_try body handler g = (evs, g', inr a).
Proof. intros H. unfold init_try. by rewrite H. Qed.

Section StartupFacts.

Variable HSFT_CONF_ENV : option str.
Variable read_config : Environment -> option (list (str * toml)).
Variable HS_VAULT_TOKEN : option str.
Variables is_authenticated is_authenticated_again : bool.
Variable py_str : toml -> str.
Variable py_int : toml -> InitExn + Z.
Variable stats_client_opens : str -> Z -> str -> bool.
Variables semaphore_opens semaphore_acquires semaphore_releases semaphore_closes
  nlp_engine_and_registry : bool.
Variable supported_languages : option (list str).
Variable base_analyze : list str -> option AnalyzerEngine.
Variable sensu_send_alert : SensuStatus -> str -> str -> str -> bool.
Variable str_of_init_exception : InitExn -> str.

Local Abbreviation quiet :=
  (Forall (fun ev => is_engine ev = false /\ is_alert ev = false)).

Local Abbreviation vault :=
  (init_vault_client HSFT_CONF_ENV read_config HS_VAULT_TOKEN is_authenticated
     is_authenticated_again).

Local Abbreviation statsd_init :=
  (init_statsd HSFT_CONF_ENV read_config py_str py_int stats_client_opens).

Local Abbreviation service :=
  (init_service HSFT_CONF_ENV read_config HS_VAULT_TOKEN is_authenticated
     is_authenticated_again py_str py_int stats_client_opens).

Local Abbreviation engine :=
  (initialize_analyzer_engine semaphore_opens semaphore_acquires semaphore_releases
     semaphore_closes nlp_engine_and_registry supported_languages base_analyze).

Local Abbreviation call_engine :=
  (call_initialize_analyzer_engine semaphore_opens semaphore_acquires
     semaphore_releases semaphore_closes nlp_engine_and_registry supported_languages
     base_analyze).

Local Abbreviation startup :=
  (lifespan_startup HSFT_CONF_ENV read_config HS_VAULT_TOKEN is_authenticated
     is_authenticated_again py_str py_int stats_client_opens
     semaphore_opens semaphore_acquires semaphore_releases semaphore_closes
     nlp_engine_and_registry supported_languages base_analyze
     sensu_send_alert str_of_init_exception).

(** [init_vault_client] raises at its first step and sets no client. *)
Lemma init_vault_client_raises g :
  exists evs g' e,
    vault g = (evs, g', inl e)
    /\ vault_client g' = vault_client g
    /\ _statsd_client g' = _statsd_client g
    /\ quiet evs.
Proof.
  destruct (get_config_not_callable HSFT_CONF_ENV read_config (T := toml)
              (lit "vault") g) as [e He].
  destruct (get_config_keeps HSFT_CONF_ENV read_config (T := toml)
              (lit "vault") NotCallable g) as [Hv Hs].
  pose proof (get_config_events HSFT_CONF_ENV read_config (T := toml)
                (lit "vault") NotCallable g) as Hq.
  destruct (get_config HSFT_CONF_ENV read_config (lit "vault") NotCallable g)
    as [[evs g'] r] eqn:E. cbn [fst snd] in *. subst r.
  exists evs, g', e. split; [|done].
  unfold init_vault_client. by erewrite init_bind_raised by exact E.
Qed.

(** [init_statsd] keeps the vault client; it sets the statsd client when it
    returns and leaves it when it raises. *)
Lemma init_statsd_outcomes g :
  exists evs g' r,
    statsd_init g = (evs, g', r)
    /\ vault_client g' = vault_client g
    /\ quiet evs
    /\ match r with
       | inr _ => is_Some (_statsd_client g')
       | inl _ => _statsd_client g' = _statsd_client g
       end.
Proof.
  unfold init_statsd.
  pose proof (get_config_keeps HSFT_CONF_ENV read_config (lit "statsd.host")
                (Callable (fun v => inr (py_str v))) g) as [Hv1 Hs1].
  pose proof (get_config_events HSFT_CONF_ENV read_config (lit "statsd.host")
                (Callable (fun v => inr (py_str v))) g) as Hq1.
  destruct (get_config HSFT_CONF_ENV read_config (lit "statsd.host") _ g)
    as [[evs1 g1] [e1|host]] eqn:E1; cbn [fst snd] in *.
  { eexists _, _, _. split; [by erewrite init_bind_raised by exact E1|]. done. }
  erewrite init_bind_returned by exact E1.
  pose proof (get_config_keeps HSFT_CONF_ENV read_config (lit "statsd.port")
                (Callable py_int) g1) as [Hv2 Hs2].
  pose proof (get_config_events HSFT_CONF_ENV read_config (lit "statsd.port")
                (Callable py_int) g1) as Hq2.
  destruct (get_config HSFT_CONF_ENV read_config (lit "statsd.port") _ g1)
    as [[evs2 g2] [e2|port]] eqn:E2; cbn [fst snd] in *.
  { eexists _, _, _. erewrite init_bind_raised by exact E2. cbn [fst snd].
    split; [reflexivity|]. split_and!; [congruence|by apply Forall_app|congruence]. }
  erewrite init_bind_returned by exact E2.
  pose proof (get_config_keeps HSFT_CONF_ENV read_config (lit "app.type")
                (Callable (fun v => inr (py_str v))) g2) as [Hv3 Hs3].
  pose proof (get_config_events HSFT_CONF_ENV read_config (lit "app.type")
                (Callable (fun v => inr (py_str v))) g2) as Hq3.
  destruct (get_config HSFT_CONF_ENV read_config (lit "app.type") _ g2)
    as [[evs3 g3] [e3|prefix]] eqn:E3; cbn [fst snd] in *.
  { eexists _, _, _. erewrite init_bind_raised by exact E3. cbn [fst snd].
    split; [reflexivity|].
    split_and!; [congruence|by rewrite !Forall_app|congruence]. }
  erewrite init_bind_returned by exact E3.
  destruct (stats_client_opens host port prefix); initunfold; cbn [fst snd].
  - eexists _, _, _. split; [reflexivity|]. cbn.
    split_and!; [congruence|by rewrite ?app_nil_r, !Forall_app|by eauto].
  - eexists _, _, _. split; [reflexivity|]. cbn.
    split_and!; [congruence|by rewrite ?app_nil_r, !Forall_app|congruence].
Qed.

(** What [init_service] does in each environment. *)
Lemma init_service_outcomes g :
  exists evs g' r,
    service g = (evs, g', r)
    /\ vault_client g' = vault_client g
    /\ quiet evs
    /\ (forall e, r = inl e -> exists cause, e = RuntimeError cause)
    /\ match the_environment HSFT_CONF_ENV with
       | PRODUCTION =>
           (exists e, r = inl e) /\ _statsd_client g' = _statsd_client g
       | SANDBOX =>
           match r with
           | inr _ => is_Some (_statsd_client g')
           | inl e => _statsd_client g' = _statsd_client g
           end
       | LOCALHOST => r = inr tt /\ g' = g /\ evs = environment_events HSFT_CONF_ENV
       end.
Proof.
  unfold init_service, init_try.
  pose proof (environment_events_quiet HSFT_CONF_ENV) as Henv.
  erewrite init_bind_returned by apply current_environment_spec.
  destruct (the_environment HSFT_CONF_ENV) eqn:Eenv.
  - rewrite decide_False by done.
    rewrite decide_False by (by intros [|]).
    cbn. rewrite app_nil_r. eexists _, _, _. split; [reflexivity|]. done.
  - rewrite decide_False by done. rewrite decide_True by (by right).
    destruct (init_statsd_outcomes g) as (evs & g' & r & E & Hv & Hq & Hs).
    rewrite E. cbn [fst snd]. destruct r as [e|[]].
    + initunfold. cbn. eexists _, _, _. split; [reflexivity|].
      split_and!; [done| |by intros ? [= <-]; eauto|done].
      rewrite !Forall_app. split_and!; [done|done|by repeat constructor].
    + eexists _, _, _. split; [reflexivity|].
      split_and!; [done|by apply Forall_app|done|done].
  - rewrite decide_True by done.
    destruct (init_vault_client_raises g) as (evs & g' & e & E & Hv & Hs & Hq).
    rewrite E. cbn [fst snd]. initunfold. cbn.
    eexists _, _, _. split; [reflexivity|].
    split_and!; [done| |by intros ? [= <-]; eauto|by eauto|done].
    rewrite !Forall_app. split_and!; [done|done|by repeat constructor].
Qed.

Lemma call_initialize_analyzer_engine_spec g :
  call_engine g = (Engine <$> engine.1, g, engine.2).
Proof.
  unfold call_initialize_analyzer_engine.
  destruct engine as [evs [e|returned]]; initunfold; cbn; by rewrite app_nil_r.
Qed.

Lemma engine_events_no_alert (evs : list EngineEvent) ev :
  ev ∈ Engine <$> evs -> is_alert ev = false.
Proof. by intros (? & -> & _)%list_elem_of_fmap. Qed.

Lemma quiet_no_alert evs ev : quiet evs -> ev ∈ evs -> is_alert ev = false.
Proof. intros H Hin. by apply (proj1 (Forall_forall _ _) H) in Hin as [_ ?]. Qed.

(** What the start-up half of [lifespan] leaves behind. *)
Lemma lifespan_startup_outcomes g :
  exists evs g' analyzer_instance initialization_successful,
    startup g = (evs, g',
                 inr (mkAppState (Some analyzer_instance)
                        (Some initialization_successful)))
    /\ vault_client g' = vault_client g
    /\ (initialization_successful = true <-> is_Some analyzer_instance)
    /\ (initialization_successful = true ->
        (service g).2 = inr tt /\ engine.2 = inr (analyzer_instance, true))
    /\ (forall ev, ev ∈ evs -> is_alert ev = true ->
        (service g).2 = inr tt /\ exists e, engine.2 = inl e)
    /\ (the_environment HSFT_CONF_ENV = PRODUCTION ->
        analyzer_instance = None /\ initialization_successful = false
        /\ quiet evs /\ _statsd_client g' = _statsd_client g)
    /\ (the_environment HSFT_CONF_ENV = LOCALHOST ->
        g' = g
        /\ (forall returned, engine.2 = inr returned ->
            returned = (analyzer_instance, initialization_successful)
            /\ evs = environment_events HSFT_CONF_ENV ++ (Engine <$> engine.1))).
Proof.
  assert (false = true <-> is_Some (@None AnalyzerEngine)) as Hnone
    by (split; [done|by intros [? ?]]).
  unfold lifespan_startup.
  destruct (init_service_outcomes g) as (evs & g1 & r & E & Hv & Hq & Hrt & Henv).
  rewrite E. cbn [fst snd].
  destruct r as [e|[]].
  - destruct (Hrt e eq_refl) as [cause ->].
    pose proof (init_bind_raised service (fun _ => call_engine) g _ _ _ E) as H1.
    erewrite init_bind_returned
      by (erewrite init_try_raised by exact H1; initunfold; cbn; reflexivity).
    initunfold. cbn. rewrite !app_nil_r.
    eexists _, _, _, _. split; [reflexivity|].
    split_and!; try done.
    + intros ev [Hin|Hin]%elem_of_app.
      * by rewrite (quiet_no_alert _ _ Hq Hin).
      * by apply list_elem_of_singleton in Hin as ->.
    + intros HP. rewrite HP in Henv. split_and!; try done.
      * apply Forall_app. split; [done|]. by repeat constructor.
      * by destruct Henv.
    + intros Hl. rewrite Hl in Henv. by destruct Henv as [[=] _].
  - pose proof (init_bind_returned service (fun _ => call_engine) g _ _ _ E) as H1.
    cbv beta in H1.
    rewrite call_initialize_analyzer_engine_spec in H1. cbn [fst snd] in H1.
    pose proof initialize_analyzer_engine_returned semaphore_opens semaphore_acquires
      semaphore_releases semaphore_closes nlp_engine_and_registry supported_languages
      base_analyze as Hret.
    destruct engine as [eevs [e|[a ok]]] eqn:Ee; cbn [fst snd] in *.
    + assert (forall cause, e <> RuntimeError cause) as Hno.
      { intros cause ->.
        revert Ee. unfold initialize_analyzer_engine.
        destruct semaphore_opens; [|done].
        unfold release_semaphore.
        destruct semaphore_acquires;
          [destruct (load_model _ _ _) as [? ?]|];
          destruct semaphore_releases, semaphore_closes; done. }
      destruct e as [| | | |cause]; [| | | |by destruct (Hno cause)];
        (erewrite init_bind_returned
           by (erewrite init_try_raised by exact H1; initunfold; cbn; reflexivity));
        initunfold; cbn; rewrite ?app_nil_r;
        (eexists _, _, _, _; split; [reflexivity|]);
        (split_and!; try done;
         [by eauto|
          intros HP; rewrite HP in Henv; by destruct Henv as [[? [=]] _]|
          intros HL; rewrite HL in Henv; by destruct Henv as (_ & -> & _)]).
    + erewrite init_bind_returned
        by (erewrite init_try_returned by exact H1; reflexivity).
      initunfold. cbn. rewrite ?app_nil_r.
      eexists _, _, _, _. split; [reflexivity|].
      split_and!; try done.
      * by apply Hret.
      * by intros ->.
      * intros ev [Hin|Hin]%elem_of_app.
        -- by rewrite (quiet_no_alert _ _ Hq Hin).
        -- by rewrite (engine_events_no_alert _ _ Hin).
      * intros HP. rewrite HP in Henv. by destruct Henv as [[? [=]] _].
      * intros HL. rewrite HL in Henv. destruct Henv as (_ & -> & ->).
        split; [done|]. by intros ? [= <-].
Qed.

End StartupFacts.

Lemma the_environment_spec HSFT_CONF_ENV :
  (the_environment HSFT_CONF_ENV = PRODUCTION
   <-> HSFT_CONF_ENV = Some (lit "nv_prod"))
  /\ (the_environment HSFT_CONF_ENV = SANDBOX
      <-> HSFT_CONF_ENV = Some (lit "sandbox")).
Proof.
  unfold the_environment, Environment_of_value.
  destruct HSFT_CONF_ENV as [v|]; cbv [default from_option id].
  - repeat (destruct (decide _) as [->|?]);
      split; split; try done;
      try (intros H; vm_compute in H; discriminate H);
      try (by intros [= ->]).
  - by split; split.
Qed.

(** [init_vault_client] passes a [str] where [get_config] expects something
    it can call, so its first [get_config] raises whatever the configuration
    holds: the function never returns and never sets [vault_client].
    Nothing else at start-up sets it either: [init_service] and the
    start-up half of [lifespan] leave it as it was. *)
Theorem startup_never_sets_vault_client
    (HSFT_CONF_ENV : option str)
    (read_config : Environment -> option (list (str * toml)))
    (HS_VAULT_TOKEN : option str)
    (is_authenticated is_authenticated_again : bool)
    (py_str : toml -> str) (py_int : toml -> InitExn + Z)
    (stats_client_opens : str -> Z -> str -> bool)
    (semaphore_opens semaphore_acquires semaphore_releases semaphore_closes
       nlp_engine_and_registry : bool)
    (supported_languages : option (list str))
    (base_analyze : list str -> option AnalyzerEngine)
    (sensu_send_alert : SensuStatus -> str -> str -> str -> bool)
    (str_of_init_exception : InitExn -> str)
    (g : Globals) :
  let vault :=
    init_vault_client HSFT_CONF_ENV read_config HS_VAULT_TOKEN is_authenticated
      is_authenticated_again g in
  let service :=
    init_service HSFT_CONF_ENV read_config HS_VAULT_TOKEN is_authenticated
      is_authenticated_again py_str py_int stats_client_opens g in
  let startup :=
    lifespan_startup HSFT_CONF_ENV read_config HS_VAULT_TOKEN is_authenticated
      is_authenticated_again py_str py_int stats_client_opens
      semaphore_opens semaphore_acquires semaphore_releases semaphore_closes
      nlp_engine_and_registry supported_languages base_analyze
      sensu_send_alert str_of_init_exception g in
  (exists e, vault.2 = inl e)
  /\ vault_client vault.1.2 = vault_client g
  /\ _statsd_client vault.1.2 = _statsd_client g
  /\ vault_client service.1.2 = vault_client g
  /\ vault_client startup.1.2 = vault_client g.
Proof.
  cbv zeta.
  destruct (init_vault_client_raises HSFT_CONF_ENV read_config HS_VAULT_TOKEN
              is_authenticated is_authenticated_again g)
    as (evs & g' & e & -> & Hv & Hs & _).
  destruct (init_service_outcomes HSFT_CONF_ENV read_config HS_VAULT_TOKEN
              is_authenticated is_authenticated_again py_str py_int
              stats_client_opens g)
    as (evs1 & g1 & r & -> & Hv1 & _).
  destruct (lifespan_startup_outcomes HSFT_CONF_ENV read_config HS_VAULT_TOKEN
              is_authenticated is_authenticated_again py_str py_int
              stats_client_opens semaphore_opens semaphore_acquires
              semaphore_releases semaphore_closes nlp_engine_and_registry
              supported_languages base_analyze sensu_send_alert
              str_of_init_exception g)
    as (evs2 & g2 & a & ok & -> & Hv2 & _).
  cbn [fst snd]. split_and!; by eauto.
Qed.

(** [init_service] by environment.  The [match] statement runs its first
    fitting case, so in production only [init_vault_client] runs: the call
    raises [RuntimeError] and statsd is not set up.  In the sandbox
    [init_statsd] runs: the statsd client is set when the call returns and
    left alone when it raises.  Anywhere else, also under an unknown name or
    none, the call returns and changes nothing.  Whatever goes wrong leaves
    the function as a [RuntimeError]. *)
Theorem init_service_by_environment
    (HSFT_CONF_ENV : option str)
    (read_config : Environment -> option (list (str * toml)))
    (HS_VAULT_TOKEN : option str)
    (is_authenticated is_authenticated_again : bool)
    (py_str : toml -> str) (py_int : toml -> InitExn + Z)
    (stats_client_opens : str -> Z -> str -> bool)
    (g : Globals) :
  let run :=
    init_service HSFT_CONF_ENV read_config HS_VAULT_TOKEN is_authenticated
      is_authenticated_again py_str py_int stats_client_opens g in
  (forall e, run.2 = inl e -> exists cause, e = RuntimeError cause)
  /\ (HSFT_CONF_ENV = Some (lit "nv_prod") ->
      (exists cause, run.2 = inl (RuntimeError cause))
      /\ _statsd_client run.1.2 = _statsd_client g)
  /\ (HSFT_CONF_ENV = Some (lit "sandbox") ->
      match run.2 with
      | inr _ => is_Some (_statsd_client run.1.2)
      | inl _ => _statsd_client run.1.2 = _statsd_client g
      end)
  /\ (HSFT_CONF_ENV <> Some (lit "nv_prod") ->
      HSFT_CONF_ENV <> Some (lit "sandbox") ->
      run = (environment_events HSFT_CONF_ENV, g, inr tt)).
Proof.
  cbv zeta.
  destruct (init_service_outcomes HSFT_CONF_ENV read_config HS_VAULT_TOKEN
              is_authenticated is_authenticated_again py_str py_int
              stats_client_opens g)
    as (evs & g' & r & -> & Hv & _ & Hrt & Henv).
  destruct (the_environment_spec HSFT_CONF_ENV) as [HP HS].
  cbn [fst snd]. split_and!.
  - done.
  - intros H. rewrite (proj2 HP H) in Henv. destruct Henv as [[e ->] Hs].
    split; [|done]. destruct (Hrt e eq_refl) as [cause ->]. by eauto.
  - intros H. by rewrite (proj2 HS H) in Henv.
  - intros HnP HnS. destruct (the_environment HSFT_CONF_ENV).
    + by destruct Henv as (-> & -> & ->).
    + by destruct HnS, (proj1 HS).
    + by destruct HnP, (proj1 HP).
Qed.

(** The start-up half of [lifespan] never raises and always sets both
    attributes of the application state, to an analyzer and [True] or to
    [None] and [False]: they are set to an analyzer only when
    [init_service] returned and [initialize_analyzer_engine] returned one.
    So after start-up the health check never answers that the analyzer
    alone is missing.  An alert is sent at start-up only when
    [init_service] returned and [initialize_analyzer_engine] raised: the
    [RuntimeError] of a failed [init_service] is logged and no alert
    follows. *)
Theorem startup_state_is_consistent
    (HSFT_CONF_ENV : option str)
    (read_config : Environment -> option (list (str * toml)))
    (HS_VAULT_TOKEN : option str)
    (is_authenticated is_authenticated_again : bool)
    (py_str : toml -> str) (py_int : toml -> InitExn + Z)
    (stats_client_opens : str -> Z -> str -> bool)
    (semaphore_opens semaphore_acquires semaphore_releases semaphore_closes
       nlp_engine_and_registry : bool)
    (supported_languages : option (list str))
    (base_analyze : list str -> option AnalyzerEngine)
    (sensu_send_alert : SensuStatus -> str -> str -> str -> bool)
    (str_of_init_exception : InitExn -> str)
    (g : Globals) :
  let service :=
    init_service HSFT_CONF_ENV read_config HS_VAULT_TOKEN is_authenticated
      is_authenticated_again py_str py_int stats_client_opens g in
  let engine :=
    initialize_analyzer_engine semaphore_opens semaphore_acquires semaphore_releases
      semaphore_closes nlp_engine_and_registry supported_languages base_analyze in
  let startup :=
    lifespan_startup HSFT_CONF_ENV read_config HS_VAULT_TOKEN is_authenticated
      is_authenticated_again py_str py_int stats_client_opens
      semaphore_opens semaphore_acquires semaphore_releases semaphore_closes
      nlp_engine_and_registry supported_languages base_analyze
      sensu_send_alert str_of_init_exception g in
  exists analyzer_instance initialization_successful,
    let state :=
      mkAppState (Some analyzer_instance) (Some initialization_successful) in
    startup.2 = inr state
    /\ (initialization_successful = true <-> is_Some analyzer_instance)
    /\ (initialization_successful = true ->
        service.2 = inr tt /\ engine.2 = inr (analyzer_instance, true))
    /\ (HealthResponse.status (detailed_health_check state) = lit "healthy"
        <-> initialization_successful = true)
    /\ HealthResponse.message (detailed_health_check state)
       <> lit "AnalyzerEngine is not initialized. Check logs for errors."
    /\ (forall ev, ev ∈ startup.1.1 -> is_alert ev = true ->
        service.2 = inr tt /\ exists e, engine.2 = inl e).
Proof.
  cbv zeta.
  destruct (lifespan_startup_outcomes HSFT_CONF_ENV read_config HS_VAULT_TOKEN
              is_authenticated is_authenticated_again py_str py_int
              stats_client_opens semaphore_opens semaphore_acquires
              semaphore_releases semaphore_closes nlp_engine_and_registry
              supported_languages base_analyze sensu_send_alert
              str_of_init_exception g)
    as (evs & g' & a & ok & -> & _ & Hok & Hgood & Halert & _).
  exists a, ok. cbn [fst snd]. split_and!; try done.
  - destruct ok, a as [a|];
      first [ done
            | by destruct (proj1 Hok eq_refl)
            | by destruct (proj2 Hok (mk_is_Some _ _ eq_refl))
            | split; [|done]; intros H; vm_compute in H; discriminate H ].
  - destruct ok, a as [a|];
      first [ by destruct (proj1 Hok eq_refl)
            | by destruct (proj2 Hok (mk_is_Some _ _ eq_refl))
            | intros H; vm_compute in H; discriminate H ].
Qed.

(** In production start-up fails before the analyzer is loaded: the
    semaphore is not touched, no alert is sent and statsd is not set up;
    the application state holds [None] and [False], the health check
    answers "unhealthy" and the mask endpoint's dependency answers 503. *)
Theorem production_startup_is_unhealthy
    (HSFT_CONF_ENV : option str)
    (read_config : Environment -> option (list (str * toml)))
    (HS_VAULT_TOKEN : option str)
    (is_authenticated is_authenticated_again : bool)
    (py_str : toml -> str) (py_int : toml -> InitExn + Z)
    (stats_client_opens : str -> Z -> str -> bool)
    (semaphore_opens semaphore_acquires semaphore_releases semaphore_closes
       nlp_engine_and_registry : bool)
    (supported_languages : option (list str))
    (base_analyze : list str -> option AnalyzerEngine)
    (sensu_send_alert : SensuStatus -> str -> str -> str -> bool)
    (str_of_init_exception : InitExn -> str)
    (g : Globals)
    (Hproduction : HSFT_CONF_ENV = Some (Environment_value PRODUCTION)) :
  let startup :=
    lifespan_startup HSFT_CONF_ENV read_config HS_VAULT_TOKEN is_authenticated
      is_authenticated_again py_str py_int stats_client_opens
      semaphore_opens semaphore_acquires semaphore_releases semaphore_closes
      nlp_engine_and_registry supported_languages base_analyze
      sensu_send_alert str_of_init_exception g in
  let state := mkAppState (Some None) (Some false) in
  startup.2 = inr state
  /\ Forall (fun ev => is_engine ev = false /\ is_alert ev = false) startup.1.1
  /\ _statsd_client startup.1.2 = _statsd_client g
  /\ detailed_health_check state
     = HealthResponse.mk (lit "unhealthy")
         (lit "Core service initialization failed. Check logs for errors.")
  /\ (get_analyzer_engine_dependency sensu_send_alert state).2
     = inl (HTTPError 503
              (lit "Core service components are not ready. Check service logs.")).
Proof.
  cbv zeta.
  destruct (lifespan_startup_outcomes HSFT_CONF_ENV read_config HS_VAULT_TOKEN
              is_authenticated is_authenticated_again py_str py_int
              stats_client_opens semaphore_opens semaphore_acquires
              semaphore_releases semaphore_closes nlp_engine_and_registry
              supported_languages base_analyze sensu_send_alert
              str_of_init_exception g)
    as (evs & g' & a & ok & -> & _ & _ & _ & _ & HP & _).
  destruct (HP (proj2 (proj1 (the_environment_spec HSFT_CONF_ENV)) Hproduction))
    as (-> & -> & Hq & Hs).
  cbn [fst snd]. split_and!; try done.
  unfold get_analyzer_engine_dependency. cbn [getattr_initialized
    state_service_initialized_successfully default negb].
  apply (raise_after_alert sensu_send_alert).
Qed.

Lemma production_startup_is_unhealthy_witness :
  let startup :=
    lifespan_startup (Some (lit "nv_prod")) (fun _ => None) None true true
      (fun _ => []) (fun _ => inr 0) (fun _ _ _ => true)
      true true true true true (Some [lit "en"]) (fun _ => Some (fun _ _ _ _ => []))
      (fun _ _ _ _ => true) (fun _ => [])
      (mkGlobals [] None None) in
  startup.2 = inr (mkAppState (Some None) (Some false))
  /\ startup.1.1 = [LogCriticalInitService OtherError;
                    LogCriticalCoreInitialization (RuntimeError OtherError)].
Proof.
  split; [|reflexivity].
  apply (production_startup_is_unhealthy (Some (lit "nv_prod")) (fun _ => None) None
           true true (fun _ => []) (fun _ => inr 0) (fun _ _ _ => true)
           true true true true true (Some [lit "en"])
           (fun _ => Some (fun _ _ _ _ => []))
           (fun _ _ _ _ => true) (fun _ => []) (mkGlobals [] None None)).
  reflexivity.
Defined.

(* ===================================================================== *)
(** * The credentials of the DLP recognizer                               *)
(* ===================================================================== *)

Lemma get_config_events_config HSFT_CONF_ENV read_config {T} key (coerce : Coerce T) g :
  Forall (fun ev => is_vault_read ev = false /\ is_vault_warning ev = false)
         (get_config HSFT_CONF_ENV read_config key coerce g).1.1.
Proof.
  rewrite get_config_spec. destruct (nonempty key); [|by constructor].
  assert (Forall (fun ev => is_vault_read ev = false /\ is_vault_warning ev = false)
                 (environment_events HSFT_CONF_ENV)) as Henv.
  { unfold environment_events. destruct (Environment_of_value _); by repeat constructor. }
  assert (Forall (fun ev => is_vault_read ev = false /\ is_vault_warning ev = false)
                 (ensure_config HSFT_CONF_ENV read_config g).1.1) as H.
  { unfold ensure_config. destruct (nonempty (_config g)); [by constructor|].
    rewrite _load_config_spec.
    by destruct (read_config (the_environment HSFT_CONF_ENV)). }
  destruct (ensure_config HSFT_CONF_ENV read_config g) as [[evs g'] [e|[]]]; [done|].
  cbn [fst snd] in H.
  destruct (follow _ _) as [[]|result]; cbn [fst snd]; try done.
  - apply Forall_app. split; [done|]. by repeat constructor.
  - by destruct coerce.
Qed.

(** [get_gcp_credentials] always returns the value of the environment
    variable [GCP_CREDENTIALS_JSON] and never raises: without a vault
    client it does nothing else; with one, its first [get_config] passes a
    [str] where something that can be called is expected and raises, so no
    secret is read from vault, one warning is logged and the function falls
    back to the environment.  The two clients stay as they are. *)
Theorem gcp_credentials_come_from_environment
    (HSFT_CONF_ENV : option str)
    (read_config : Environment -> option (list (str * toml)))
    (GCP_CREDENTIALS_JSON : option str)
    (read_secret_version : toml -> toml -> option str)
    (g : Globals) :
  let run :=
    get_gcp_credentials HSFT_CONF_ENV read_config GCP_CREDENTIALS_JSON
      read_secret_version g in
  run.2 = inr GCP_CREDENTIALS_JSON
  /\ Forall (fun ev => is_vault_read ev = false) run.1.1
  /\ vault_client run.1.2 = vault_client g
  /\ _statsd_client run.1.2 = _statsd_client g
  /\ (vault_client g = None -> run = ([], g, inr GCP_CREDENTIALS_JSON))
  /\ (is_Some (vault_client g) ->
      exists e, filter (fun ev => is_vault_warning ev = true) run.1.1
                = [LogWarningVaultUnavailable e]).
Proof.
  cbv zeta. unfold get_gcp_credentials.
  destruct (vault_client g) as [client|] eqn:Ec.
  - destruct (get_config_not_callable HSFT_CONF_ENV read_config (T := toml)
                (lit "gcp") g) as [e He].
    destruct (get_config_keeps HSFT_CONF_ENV read_config (T := toml)
                (lit "gcp") NotCallable g) as [Hv Hs].
    pose proof (get_config_events_config HSFT_CONF_ENV read_config (T := toml)
                  (lit "gcp") NotCallable g) as Hq.
    destruct (get_config HSFT_CONF_ENV read_config (lit "gcp") NotCallable g)
      as [[evs g'] r] eqn:E. cbn [fst snd] in *. subst r.
    initunfold. rewrite Ec, E. cbn. rewrite !app_nil_r.
    split_and!; try done.
    + apply Forall_app. split; [|by repeat constructor].
      eapply Forall_impl; [exact Hq|]. by intros ev [? _].
    + congruence.
    + intros _. exists e. rewrite filter_app.
      replace (filter (fun ev => is_vault_warning ev = true) evs)
        with (@nil InitEvent); [done|].
      symmetry. clear -Hq. induction Hq as [|ev l [_ Hw] _ IH]; [done|].
      rewrite filter_cons, decide_False; [done|]. by rewrite Hw.
  - initunfold. rewrite Ec. cbn. by split_and!; try intros [? ?].
Qed.
